(** * Open-Loop Optimistic Planning: a shallow embedding of
      [rl_agents/agents/tree_search/olop.py]

    The planner is embedded as state-passing code over an arena of look-ahead
    nodes.  Python floats are idealised as real numbers (extended with
    [+oo] for [np.infty]); Python ints are [Z]. *)

From stdpp Require Import base list strings.
From Stdlib Require Import ZArith Reals Lra Lia.

Local Open Scope Z_scope.

(** ** Exceptions and the planner monad *)

Inductive exn : Type :=
  | ValueError      (* raise ValueError(...) *)
  | KeyError        (* a missing config entry or dict key *)
  | TypeError       (* an operation its operand's type does not support *)
  | AttributeError  (* attribute access on None *)
  | IndexError      (* indexing an empty sequence *)
  | Exception_      (* raise Exception(...) *)
  | Stuck.          (* the model left the states Python can reach: a dangling
                       node index or an exhausted loop bound *)

Inductive outcome (A : Type) : Type :=
  | Ok (a : A)
  | Raise (e : exn).
Arguments Ok {A} a.
Arguments Raise {A} e.

(** ** Numbers *)

(** A float that may be [np.infty]. *)
Inductive ext : Type :=
  | Fin (r : R)
  | PInf.

Definition eadd (x y : ext) : ext :=
  match x, y with
  | Fin a, Fin b => Fin (a + b)
  | _, _ => PInf
  end.

(** [c * x] for a finite factor [c]; every call site has [c > 0]. *)
Definition escale (c : R) (x : ext) : ext :=
  match x with
  | Fin a => Fin (c * a)
  | PInf => PInf
  end.

(** [y < x] on extended reals. *)
Definition elt (y x : ext) : Prop :=
  match y, x with
  | Fin b, Fin a => (b < a)%R
  | Fin _, PInf => True
  | PInf, _ => False
  end.

Definition elt_dec (y x : ext) : {elt y x} + {~ elt y x}.
Proof.
  destruct y as [b|], x as [a|]; simpl.
  - apply Rlt_dec.
  - left; exact I.
  - right; tauto.
  - right; tauto.
Defined.

Definition ele (x y : ext) : Prop := ~ elt y x.

(** Python's [min(x, y)]: the first argument unless the second is smaller. *)
Definition emin (x y : ext) : ext := if elt_dec y x then y else x.

(** ** Configuration

    [self.config] is a dict.  [budget], [gamma], [upper_bound] and
    [lazy_tree_construction] always have a value (the defaults of the planner
    classes); [episodes] and [horizon] may be absent. *)

Record config : Type := mkConfig {
  cfg_budget : Z;
  cfg_gamma : R;
  cfg_episodes : option Z;
  cfg_horizon : option Z;
  cfg_upper_bound : string;
  cfg_lazy_tree_construction : bool
}.

Definition set_episodes (e : Z) (c : config) : config :=
  mkConfig (cfg_budget c) (cfg_gamma c) (Some e) (cfg_horizon c)
           (cfg_upper_bound c) (cfg_lazy_tree_construction c).

Definition set_horizon (h : Z) (c : config) : config :=
  mkConfig (cfg_budget c) (cfg_gamma c) (cfg_episodes c) (Some h)
           (cfg_upper_bound c) (cfg_lazy_tree_construction c).

(** ** [OLOP.horizon]

    [int(np.ceil(np.log(episodes) / (2 * np.log(1 / gamma))))], over the
    reals: the value of the expression when no operation rounds.  The
    embedding is meant for [episodes >= 1] and [0 < gamma < 1], where every
    intermediate float is finite and no operation raises; [horizon_float]
    below keeps the rounded operations. *)
Definition horizon (episodes : Z) (gamma : R) : Z :=
  Zceil (ln (IZR episodes) / (2 * ln (1 / gamma))).

(** ** [OLOP.allocate_budget] *)

(** The [for episodes in range(1, budget)] loop: the first [episodes] whose
    cost exceeds the budget, if there is one before the range ends. *)
Fixpoint allocate_loop (budget : Z) (gamma : R) (range : list Z) : option Z :=
  match range with
  | [] => None
  | episodes :: rest =>
      if budget <? episodes * horizon episodes gamma
      then Some episodes
      else allocate_loop budget gamma rest
  end.

Definition allocate_budget_config (c : config) : outcome unit * config :=
  match allocate_loop (cfg_budget c) (cfg_gamma c) (seqZ 1 (cfg_budget c - 1)) with
  | Some episodes =>
      let c1 := set_episodes (episodes - 1) c in
      let c2 := set_horizon (horizon (episodes - 1) (cfg_gamma c1)) c1 in
      (Ok tt, c2)
  | None => (Raise ValueError, c)
  end.

(** ** The look-ahead tree

    Nodes are Python objects with identity; the embedding keeps them in an
    arena ([heap]) and names them by their index.  [children] is the node's
    dict from action to child, kept in insertion order. *)

Record OLOPNode : Type := mkNode {
  parent : option nat;
  children : list (Z * nat);
  count : Z;
  cumulative_reward : R;
  mu_ucb : ext;
  done : bool;
  value : ext
}.

Record OLOP : Type := mkOLOP {
  config_of : config;
  heap : list OLOPNode;
  root : option nat;
  leaves : list nat
}.

(** A planner before [make_root] has run. *)
Definition new_planner (c : config) : OLOP := mkOLOP c [] None [].

(** *** dict operations on [children] *)

Fixpoint dict_get (k : Z) (d : list (Z * nat)) : option nat :=
  match d with
  | [] => None
  | (k', v) :: rest => if k' =? k then Some v else dict_get k rest
  end.

(** [d[k] = v]: an existing key keeps its position. *)
Fixpoint dict_set (k : Z) (v : nat) (d : list (Z * nat)) : list (Z * nat) :=
  match d with
  | [] => [(k, v)]
  | (k', v') :: rest =>
      if k' =? k then (k', v) :: rest else (k', v') :: dict_set k v rest
  end.

Definition dict_keys (d : list (Z * nat)) : list Z := map fst d.
Definition dict_values (d : list (Z * nat)) : list nat := map snd d.
Definition dict_mem (k : Z) (d : list (Z * nat)) : bool :=
  match dict_get k d with Some _ => true | None => false end.

(** [l.remove(x)]: drops the first occurrence, [None] when there is none. *)
Fixpoint list_remove (x : nat) (l : list nat) : option (list nat) :=
  match l with
  | [] => None
  | y :: rest =>
      if Nat.eqb y x then Some rest
      else match list_remove x rest with
           | Some rest' => Some (y :: rest')
           | None => None
           end
  end.

(** *** The planner monad: state and exceptions; the state survives a raise *)

Definition M (A : Type) : Type := OLOP -> outcome A * OLOP.

Definition ret {A} (a : A) : M A := fun s => (Ok a, s).
Definition raise {A} (e : exn) : M A := fun s => (Raise e, s).
Definition bind {A B} (m : M A) (k : A -> M B) : M B :=
  fun s => match m s with
           | (Ok a, s') => k a s'
           | (Raise e, s') => (Raise e, s')
           end.

Notation "x <- c1 ;; c2" := (bind c1 (fun x => c2))
  (at level 100, c1 at next level, right associativity).
Notation "c1 ;; c2" := (bind c1 (fun _ => c2))
  (at level 100, right associativity).

Definition get_config : M config := fun s => (Ok (config_of s), s).
Definition set_config (c : config) : M unit :=
  fun s => (Ok tt, mkOLOP c (heap s) (root s) (leaves s)).
Definition get_leaves : M (list nat) := fun s => (Ok (leaves s), s).
Definition set_leaves (l : list nat) : M unit :=
  fun s => (Ok tt, mkOLOP (config_of s) (heap s) (root s) l).
Definition set_root (r : nat) : M unit :=
  fun s => (Ok tt, mkOLOP (config_of s) (heap s) (Some r) (leaves s)).

(** Reading a node; an index outside the arena has no Python counterpart. *)
Definition get_node (id : nat) : M OLOPNode :=
  fun s => match heap s !! id with
           | Some n => (Ok n, s)
           | None => (Raise Stuck, s)
           end.

Definition put_node (id : nat) (n : OLOPNode) : M unit :=
  fun s => (Ok tt, mkOLOP (config_of s) (<[id := n]> (heap s)) (root s) (leaves s)).

(** Object creation: the new node gets the next free index. *)
Definition alloc (n : OLOPNode) : M nat :=
  fun s => (Ok (length (heap s)),
            mkOLOP (config_of s) (heap s ++ [n]) (root s) (leaves s)).

Definition with_children (d : list (Z * nat)) (n : OLOPNode) : OLOPNode :=
  mkNode (parent n) d (count n) (cumulative_reward n) (mu_ucb n) (done n) (value n).
Definition with_stats (c : Z) (r : R) (n : OLOPNode) : OLOPNode :=
  mkNode (parent n) (children n) c r (mu_ucb n) (done n) (value n).
Definition with_mu_ucb (m : ext) (n : OLOPNode) : OLOPNode :=
  mkNode (parent n) (children n) (count n) (cumulative_reward n) m (done n) (value n).
Definition with_done (b : bool) (n : OLOPNode) : OLOPNode :=
  mkNode (parent n) (children n) (count n) (cumulative_reward n) (mu_ucb n) b (value n).
Definition with_value (v : ext) (n : OLOPNode) : OLOPNode :=
  mkNode (parent n) (children n) (count n) (cumulative_reward n) (mu_ucb n) (done n) v.

Definition modify_node (id : nat) (f : OLOPNode -> OLOPNode) : M unit :=
  n <- get_node id ;; put_node id (f n).

(** Modelled from the spec: the generic [Node.__init__] (not part of this
    file's source) records the parent and starts the node with no children,
    [count = 0] and a scratch [value] of 0. *)
Definition Node_init (parent : option nat) : OLOPNode :=
  mkNode parent [] 0 0%R PInf false (Fin 0).

(** [OLOPNode.__init__] *)
Definition new_node (parent : option nat) (c : config) : OLOPNode :=
  let self := Node_init parent in
  let self := with_stats (count self) 0%R self in
  let self := with_mu_ucb PInf self in
  let self :=
    if String.eqb (cfg_upper_bound c) "kullback-leibler"
    then with_mu_ucb (Fin 1) self else self in
  with_done false self.

Definition STOP_ON_ANY_TERMINAL_STATE : bool := true.

(** ** Collaborators: the environment, the bound oracles, plan extraction *)

Class Collaborators : Type := {
  env : Type;
  (** [state.step(action)]: the stepped state, the reward and [done]. *)
  env_step : env -> Z -> env * R * bool;
  (** [state.get_available_actions()]; [None] when the environment has no
      such method ([AttributeError]). *)
  get_available_actions : env -> option (list Z);
  (** [state.action_space.n] *)
  action_space_n : env -> Z;
  hoeffding_upper_bound : R -> Z -> Z -> ext;
  kl_upper_bound : R -> Z -> Z -> ext;
  (** [self.get_plan()] of the generic planner. *)
  get_plan : OLOP -> outcome (list Z)
}.

Section Planner.
Context `{Collaborators}.

(** [self.config["episodes"]] and [self.config["horizon"]] *)
Definition config_episodes : M Z :=
  c <- get_config ;;
  match cfg_episodes c with Some e => ret e | None => raise KeyError end.

Definition config_horizon : M Z :=
  c <- get_config ;;
  match cfg_horizon c with Some h => ret h | None => raise KeyError end.

Definition allocate_budget : M unit :=
  fun s => let (r, c) := allocate_budget_config (config_of s) in
           (r, mkOLOP c (heap s) (root s) (leaves s)).

(** ** [OLOPNode.update] *)
Definition update (self : nat) (reward : R) (done_ : bool) : M unit :=
  if Rle_dec 0 reward then
    if Rle_dec reward 1 then
      modify_node self
        (fun n => with_stats (count n) (cumulative_reward n + reward) n) ;;
      modify_node self
        (fun n => with_stats (count n + 1) (cumulative_reward n) n) ;;
      c <- get_config ;;
      (if String.eqb (cfg_upper_bound c) "hoeffding" then
         episodes <- config_episodes ;;
         modify_node self
           (fun n => with_mu_ucb
                       (hoeffding_upper_bound (cumulative_reward n) (count n) episodes) n)
       else if String.eqb (cfg_upper_bound c) "kullback-leibler" then
         episodes <- config_episodes ;;
         modify_node self
           (fun n => with_mu_ucb
                       (kl_upper_bound (cumulative_reward n) (count n) episodes) n)
       else ret tt) ;;
      (if done_ && STOP_ON_ANY_TERMINAL_STATE
       then modify_node self (with_done true)
       else ret tt)
    else raise ValueError
  else raise ValueError.

(** ** [OLOPNode.expand]

    [leaves] is always the planner's own [self.leaves] list, which the method
    mutates in place. *)

(** The body of [for action in actions]. *)
Fixpoint expand_loop (self : nat) (state : env) (update_children : bool)
    (actions : list Z) : M unit :=
  match actions with
  | [] => ret tt
  | action :: rest =>
      c <- get_config ;;
      child <- alloc (new_node (Some self) c) ;;
      n <- get_node self ;;
      put_node self (with_children (dict_set action child (children n)) n) ;;
      (if update_children then
         let '(_, reward, done_) := env_step state action in
         n <- get_node self ;;
         match dict_get action (children n) with
         | Some ch => update ch reward done_
         | None => raise KeyError
         end
       else ret tt) ;;
      expand_loop self state update_children rest
  end.

Definition available_actions (state : env) : list Z :=
  match get_available_actions state with
  | Some actions => actions
  | None => seqZ 0 (action_space_n state)
  end.

Definition expand (self : nat) (state : option env) (update_children : bool) : M unit :=
  match state with
  | None => raise Exception_
  | Some state =>
      expand_loop self state update_children (available_actions state) ;;
      l <- get_leaves ;;
      match list_remove self l with
      | None => raise ValueError
      | Some l' =>
          set_leaves l' ;;
          n <- get_node self ;;
          l <- get_leaves ;;
          set_leaves (l ++ dict_values (children n))
      end
  end.

(** ** [OLOP.prebuild_tree] *)

(** Modelled from the spec: the generic [Node.expand(branching_factor)] (not
    part of this file's source) creates one child per action of the dense
    range [0 .. branching_factor - 1]. *)
Fixpoint Node_expand_loop (self : nat) (actions : list Z) : M unit :=
  match actions with
  | [] => ret tt
  | action :: rest =>
      c <- get_config ;;
      child <- alloc (new_node (Some self) c) ;;
      n <- get_node self ;;
      put_node self (with_children (dict_set action child (children n)) n) ;;
      Node_expand_loop self rest
  end.

(** Modelled from the spec: [Node.expand], see [Node_expand_loop]. *)
Definition Node_expand (self : nat) (branching_factor : Z) : M unit :=
  Node_expand_loop self (seqZ 0 branching_factor).

(** [for leaf in self.leaves], accumulating [next_leaves]. *)
Fixpoint prebuild_level (branching_factor : Z) (ls : list nat)
    (next_leaves : list nat) : M (list nat) :=
  match ls with
  | [] => ret next_leaves
  | leaf :: rest =>
      Node_expand leaf branching_factor ;;
      n <- get_node leaf ;;
      prebuild_level branching_factor rest (next_leaves ++ dict_values (children n))
  end.

(** [for _ in range(...)] *)
Fixpoint prebuild_levels (branching_factor : Z) (levels : nat) : M unit :=
  match levels with
  | O => ret tt
  | S k =>
      l <- get_leaves ;;
      next_leaves <- prebuild_level branching_factor l [] ;;
      set_leaves next_leaves ;;
      prebuild_levels branching_factor k
  end.

Definition prebuild_tree (branching_factor : Z) : M unit :=
  h <- config_horizon ;;
  prebuild_levels branching_factor (Z.to_nat h).

(** ** [OLOP.make_root]; [n] is [self.env.action_space.n] *)
Definition make_root (n : Z) : M nat :=
  c <- get_config ;;
  root <- alloc (new_node None c) ;;
  set_leaves [root] ;;
  c <- get_config ;;
  (match cfg_horizon c with
   | None => allocate_budget
   | Some _ => ret tt
   end) ;;
  c <- get_config ;;
  (if cfg_lazy_tree_construction c then ret tt else prebuild_tree n) ;;
  ret root.

(** Modelled from the spec: the generic planner (not part of this file's
    source) builds its root with [make_root] and keeps it as [self.root]. *)
Definition reset (n : Z) : M unit :=
  r <- make_root n ;; set_root r.

(** ** [OLOP.compute_u_values] *)

(** [for t in np.arange(len(path), 0, -1)]: [t] runs from [len(path)] down
    to 1 while [node_t] climbs to its parent; reading a field of [None]
    raises [AttributeError]. *)
Fixpoint compute_u_loop (gamma : R) (node : nat) (node_t : option nat) (t : nat)
    : M unit :=
  match t with
  | O => ret tt
  | S t' =>
      match node_t with
      | None => raise AttributeError
      | Some nt =>
          n_t <- get_node nt ;;
          n <- get_node node ;;
          put_node node
            (with_value (eadd (value n) (escale (gamma ^ S t') (mu_ucb n_t))) n) ;;
          n_t <- get_node nt ;;
          compute_u_loop gamma node (parent n_t) t'
      end
  end.

Definition compute_u_values (node : nat) (path : list Z) : M (list Z * ext) :=
  c <- get_config ;;
  let gamma := cfg_gamma c in
  n <- get_node node ;;
  put_node node
    (with_value (if negb (done n)
                 then Fin (gamma ^ (length path + 1) / (1 - gamma))
                 else Fin 0) n) ;;
  compute_u_loop gamma node (Some node) (length path) ;;
  n <- get_node node ;;
  ret (path, value n).

(** ** [OLOP.sharpen_b_values] *)

(** [while node_t.parent]: a node object is truthy, [None] is not.  The
    parent chain of a tree is shorter than the arena, which bounds the
    loop. *)
Fixpoint sharpen_loop (fuel : nat) (h : list OLOPNode) (node_t : OLOPNode)
    (min_value : ext) : outcome ext :=
  match parent node_t with
  | None => Ok min_value
  | Some p =>
      match fuel with
      | O => Raise Stuck
      | S fuel' =>
          let min_value := emin min_value (value node_t) in
          match h !! p with
          | Some node_p => sharpen_loop fuel' h node_p min_value
          | None => Raise Stuck
          end
      end
  end.

Definition sharpen_b_values (node : nat) : M ext :=
  c <- get_config ;;
  n <- get_node node ;;
  if String.eqb (cfg_upper_bound c) "kullback-leibler" then ret (value n)
  else fun s => (sharpen_loop (length (heap s)) (heap s) n (value n), s).

(** ** [OLOP.run] *)

(** Modelled from the spec: the generic [Node.breadth_first_search] (not part
    of this file's source) visits the nodes in breadth-first order from the
    root and applies [operator] to each node and its path from the root.
    The traversal is written level by level: the nodes of one depth are
    visited in order while their children are queued behind them, which is
    the order in which a queue hands them out. *)
Fixpoint bfs_level {A} (operator : nat -> list Z -> M A)
    (level next : list (nat * list Z)) : M (list (nat * list Z)) :=
  match level with
  | [] => ret next
  | (node, path) :: rest =>
      operator node path ;;
      n <- get_node node ;;
      bfs_level operator rest
        (next ++ map (fun kv => (snd kv, path ++ [fst kv])) (children n))
  end.

(** Modelled from the spec: [Node.breadth_first_search], see [bfs_level]; a
    tree has fewer levels than the arena has nodes, which bounds the loop. *)
Fixpoint breadth_first_search {A} (fuel : nat) (level : list (nat * list Z))
    (operator : nat -> list Z -> M A) : M unit :=
  match level with
  | [] => ret tt
  | _ :: _ =>
      match fuel with
      | O => raise Stuck
      | S fuel' =>
          next <- bfs_level operator level [] ;;
          breadth_first_search fuel' next operator
      end
  end.

(** Modelled from the spec: the generic [Node.path] (not part of this file's
    source) rebuilds the action sequence from the root to the node by
    repeated parent lookups. *)
Fixpoint Node_path (fuel : nat) (h : list OLOPNode) (node : nat) : list Z :=
  match fuel with
  | O => []
  | S fuel' =>
      match h !! node with
      | None => []
      | Some n =>
          match parent n with
          | None => []
          | Some p =>
              match h !! p with
              | None => []
              | Some np =>
                  Node_path fuel' h p ++
                  match filter (fun kv => snd kv = node) (children np) with
                  | kv :: _ => [fst kv]
                  | [] => []
                  end
              end
          end
      end
  end.

(** [np.argmax]: the index of the first maximum. *)
Fixpoint argmax_from (best_i : nat) (best : ext) (i : nat) (l : list ext) : nat :=
  match l with
  | [] => best_i
  | x :: rest =>
      if elt_dec best x then argmax_from i x (S i) rest
      else argmax_from best_i best (S i) rest
  end.

Definition argmax (l : list ext) : outcome nat :=
  match l with
  | [] => Raise ValueError
  | x :: rest => Ok (argmax_from O x 1%nat rest)
  end.

(** [list(map(OLOP.sharpen_b_values, self.leaves))] *)
Fixpoint map_sharpen (ls : list nat) : M (list ext) :=
  match ls with
  | [] => ret []
  | leaf :: rest =>
      b <- sharpen_b_values leaf ;;
      bs <- map_sharpen rest ;;
      ret (b :: bs)
  end.

(** The rollout: [for action in best_sequence].  [node.children.keys()] is a
    dict view, which cannot be subscripted: [keys()[0]] raises
    [TypeError]. *)
Fixpoint execute_sequence (best_sequence : list Z) (node : nat) (state : env)
    : M unit :=
  match best_sequence with
  | [] => ret tt
  | action :: rest =>
      let '(state, reward, done_) := env_step state action in
      n <- get_node node ;;
      (match children n with
       | [] => expand node (Some state) false
       | _ => ret tt
       end) ;;
      n <- get_node node ;;
      action <- (if dict_mem action (children n) then ret action
                 else raise TypeError) ;;
      match dict_get action (children n) with
      | None => raise KeyError
      | Some child =>
          update child reward done_ ;;
          if done_ then ret tt else execute_sequence rest child state
      end
  end.

(** [l[:stop]]; a negative [stop] counts from the end. *)
Definition slice_to (stop : Z) (l : list Z) : list Z :=
  if 0 <=? stop then take (Z.to_nat stop) l
  else take (length l - Z.to_nat (- stop)) l.

Definition get_state : M OLOP := fun s => (Ok s, s).

(** The first value pass:
    [list(Node.breadth_first_search(self.root, operator=self.compute_u_values))] *)
Definition first_pass (r : nat) : M unit :=
  s <- get_state ;;
  breadth_first_search (length (heap s)) [(r, [])] compute_u_values.

Definition run (state : env) : M unit :=
  s <- get_state ;;
  match root s with
  | None => raise AttributeError
  | Some r =>
      first_pass r ;;
      l <- get_leaves ;;
      sequences_upper_bounds <- map_sharpen l ;;
      best <- (fun s => (argmax sequences_upper_bounds, s)) ;;
      match l !! best with
      | None => raise IndexError
      | Some leaf =>
          s <- get_state ;;
          let best_sequence := Node_path (length (heap s)) (heap s) leaf in
          c <- get_config ;;
          best_sequence <-
            (if cfg_lazy_tree_construction c then
               h <- config_horizon ;;
               ret (slice_to h best_sequence ++
                    replicate (Z.to_nat (h - Z.of_nat (length best_sequence))) 0)
             else ret best_sequence) ;;
          execute_sequence best_sequence r state
      end
  end.

(** ** [OLOP.plan]; [safe_deepcopy_env(state)] hands every episode its own
    copy of the caller's state *)
Fixpoint run_episodes (episodes : nat) (state : env) : M unit :=
  match episodes with
  | O => ret tt
  | S k => run state ;; run_episodes k state
  end.

Definition plan (state : env) : M (list Z) :=
  episodes <- config_episodes ;;
  run_episodes (Z.to_nat episodes) state ;;
  fun s => (get_plan s, s).

End Planner.

(** ** Tree vocabulary used by the statements *)

(** The [k]-th ancestor of a node: [k] parent steps up. *)
Fixpoint ancestor (h : list OLOPNode) (k : nat) (id : nat) : option nat :=
  match k with
  | O => match h !! id with Some _ => Some id | None => None end
  | S k' =>
      match h !! id with
      | Some n =>
          match parent n with
          | Some p => ancestor h k' p
          | None => None
          end
      | None => None
      end
  end.

Definition is_root (h : list OLOPNode) (id : nat) : Prop :=
  exists n, h !! id = Some n /\ parent n = None.

(** A node is at depth [d] when its [d]-th ancestor is a root. *)
Definition at_depth (h : list OLOPNode) (id : nat) (d : nat) : Prop :=
  exists r, ancestor h d id = Some r /\ is_root h r.

Definition mu_ucb_at (h : list OLOPNode) (id : option nat) : ext :=
  match id with
  | Some i => match h !! i with Some n => mu_ucb n | None => PInf end
  | None => PInf
  end.

Definition value_at (h : list OLOPNode) (id : nat) : ext :=
  match h !! id with Some n => value n | None => PInf end.

Definition esum (l : list ext) : ext := foldr eadd (Fin 0) l.

(** The spec's [tail(node)]. *)
Definition tail_term (gamma : R) (d : nat) (terminal : bool) : ext :=
  if terminal then Fin 0 else Fin (gamma ^ (d + 1) / (1 - gamma)).

(** The spec's [U(node)] for a node at depth [d]: the discounted bounds of
    the ancestors at depths [1 .. d] (the ancestor at depth [t] is [d - t]
    parent steps up), plus the tail. *)
Definition U_spec (gamma : R) (h : list OLOPNode) (id : nat) (d : nat)
    (terminal : bool) : ext :=
  eadd (esum (map (fun t => escale (gamma ^ t) (mu_ucb_at h (ancestor h (d - t) id)))
                  (seq 1 d)))
       (tail_term gamma d terminal).

(** The node and its ancestors, bottom-up. *)
Fixpoint chain (fuel : nat) (h : list OLOPNode) (id : nat) : list nat :=
  match fuel with
  | O => []
  | S fuel' =>
      match h !! id with
      | None => []
      | Some n =>
          id :: match parent n with
                | Some p => chain fuel' h p
                | None => []
                end
      end
  end.

Definition has_parent (h : list OLOPNode) (id : nat) : bool :=
  match h !! id with
  | Some n => match parent n with Some _ => true | None => false end
  | None => false
  end.

(** Objects are created parent first: a parent's index is below its
    child's. *)
Definition parents_below (h : list OLOPNode) : Prop :=
  forall id n p, h !! id = Some n -> parent n = Some p -> (p < id)%nat.

(** [m] is a least element of [l]. *)
Definition is_min_of (m : ext) (l : list ext) : Prop :=
  m ∈ l /\ forall v, v ∈ l -> ele m v.

Inductive reachable (h : list OLOPNode) (r : nat) : nat -> Prop :=
  | reach_root n : h !! r = Some n -> reachable h r r
  | reach_child p n a c m :
      reachable h r p -> h !! p = Some n -> (a, c) ∈ children n ->
      h !! c = Some m -> reachable h r c.

Definition childless (h : list OLOPNode) (id : nat) : Prop :=
  exists n, h !! id = Some n /\ children n = [].

(** The frontier invariant: [leaves] lists, without repetition, exactly the
    childless nodes reachable from the root. *)
Definition frontier_inv (s : OLOP) : Prop :=
  exists r, root s = Some r /\ NoDup (leaves s) /\
    forall id, id ∈ leaves s <-> (reachable (heap s) r id /\ childless (heap s) id).

(** Every child index names an object of the arena. *)
Definition children_in_heap (h : list OLOPNode) : Prop :=
  forall id n a c, h !! id = Some n -> (a, c) ∈ children n -> (c < length h)%nat.


(** The dict left by assigning [actions] one after the other to fresh
    children numbered from [next]. *)
Fixpoint dict_set_all (actions : list Z) (next : nat) (d : list (Z * nat))
    : list (Z * nat) :=
  match actions with
  | [] => d
  | a :: rest => dict_set_all rest (S next) (dict_set a next d)
  end.

(** The heap keeps every node's parent. *)
Definition parents_preserved (h h' : list OLOPNode) : Prop :=
  forall id n, h !! id = Some n ->
    exists n', h' !! id = Some n' /\ parent n' = parent n.

(** ** Sample instances *)

Definition demo_config (B : Z) (gamma : R) (episodes horizon_ : option Z) : config :=
  mkConfig B gamma episodes horizon_ "hoeffding" false.

Definition lazy_config (B : Z) (gamma : R) (episodes horizon_ : option Z) : config :=
  mkConfig B gamma episodes horizon_ "hoeffding" true.

(** An environment with a single state whose available actions are 1 and 2,
    every step paying reward 1; constant oracles. *)
Definition demo_collaborators : Collaborators := {|
  env := unit;
  env_step := fun st _ => (st, 1%R, false);
  get_available_actions := fun _ => Some [1; 2];
  action_space_n := fun _ => 3;
  hoeffding_upper_bound := fun _ _ _ => PInf;
  kl_upper_bound := fun _ _ _ => Fin 1;
  get_plan := fun _ => Ok []
|}.


(** A complete tree of depth [k] and branching factor [b]: the frontier
    holds [b ^ k] distinct childless nodes, all at depth [k], and every
    other node has one child for each action of [0 .. b - 1]. *)
Definition complete_tree (b : Z) (k : nat) (s : OLOP) : Prop :=
  NoDup (leaves s) /\
  length (leaves s) = (Z.to_nat b ^ k)%nat /\
  (forall id, id ∈ leaves s -> childless (heap s) id /\ at_depth (heap s) id k) /\
  (forall id n, heap s !! id = Some n -> id ∉ leaves s ->
     dict_keys (children n) = seqZ 0 b).


(** [t] parent steps can be taken from [node_t], each landing on a node of
    the heap (the last step may land on [None]). *)
Fixpoint climbs (h : list OLOPNode) (node_t : option nat) (t : nat) : Prop :=
  match t with
  | O => True
  | S t' => exists i n, node_t = Some i /\ h !! i = Some n /\ climbs h (parent n) t'
  end.

(** The value accumulated by the loop of [compute_u_values], in the order
    the loop adds the terms. *)
Fixpoint u_acc (gamma : R) (h : list OLOPNode) (node_t : option nat) (t : nat)
    (v : ext) : ext :=
  match t with
  | O => v
  | S t' =>
      match node_t with
      | None => v
      | Some i =>
          match h !! i with
          | None => v
          | Some n =>
              u_acc gamma h (parent n) t' (eadd v (escale (gamma ^ S t') (mu_ucb n)))
          end
      end
  end.


(** A root whose only child (action 0) has been sampled twice. *)
Definition sample_root : OLOPNode := mkNode None [(0, 1%nat)] 0 0%R PInf false (Fin 0).
Definition sample_child : OLOPNode :=
  mkNode (Some 0%nat) [] 2 1%R (Fin (3 / 4)) false (Fin 0).
Definition sample_planner : OLOP :=
  mkOLOP (demo_config 10 (1 / 2) (Some 5) (Some 1)) [sample_root; sample_child]
         (Some 0%nat) [1%nat].


(** The prebuilt tree of a planner with one action and horizon 1, before and
    after the first value pass with [gamma = 1/2]: no node has been sampled,
    so the Hoeffding bound of the child is still [+oo]. *)
Definition fresh_tree : OLOP :=
  mkOLOP (demo_config 10 (1 / 2) (Some 5) (Some 1))
    [mkNode None [(0, 1%nat)] 0 0%R PInf false (Fin 0);
     mkNode (Some 0%nat) [] 0 0%R PInf false (Fin 0)]
    (Some 0%nat) [1%nat].

Definition scored_tree : OLOP :=
  mkOLOP (demo_config 10 (1 / 2) (Some 5) (Some 1))
    [mkNode None [(0, 1%nat)] 0 0%R PInf false (Fin ((1 / 2) ^ 1 / (1 - 1 / 2)));
     mkNode (Some 0%nat) [] 0 0%R PInf false PInf]
    (Some 0%nat) [1%nat].

(** A lazily built planner right after [reset], and after its root has been
    expanded with the actions 1 and 2 of [demo_collaborators]. *)
Definition lazy_fresh : OLOP :=
  mkOLOP (lazy_config 10 (1 / 2) (Some 5) (Some 2))
    [mkNode None [] 0 0%R PInf false (Fin 0)]
    (Some 0%nat) [0%nat].

Definition lazy_expanded (root_value : ext) : OLOP :=
  mkOLOP (lazy_config 10 (1 / 2) (Some 5) (Some 2))
    [mkNode None [(1, 1%nat); (2, 2%nat)] 0 0%R PInf false root_value;
     mkNode (Some 0%nat) [] 0 0%R PInf false (Fin 0);
     mkNode (Some 0%nat) [] 0 0%R PInf false (Fin 0)]
    (Some 0%nat) [1%nat; 2%nat].

(** An environment that reports no available action. *)
Definition stuck_collaborators : Collaborators := {|
  env := unit;
  env_step := fun st _ => (st, 1%R, false);
  get_available_actions := fun _ => Some [];
  action_space_n := fun _ => 0;
  hoeffding_upper_bound := fun _ _ _ => PInf;
  kl_upper_bound := fun _ _ _ => Fin 1;
  get_plan := fun _ => Ok []
|}.

Definition lazy_stuck : OLOP :=
  mkOLOP (lazy_config 10 (1 / 2) (Some 5) (Some 2))
    [mkNode None [] 0 0%R PInf false (Fin 0)]
    (Some 0%nat) [].


(** The step from [s] to [s'] touched at most the statistics of node [ch]:
    the configuration, the root, the frontier, every other node and the
    place of [ch] in the tree are as before. *)
Definition node_frame (ch : nat) (s s' : OLOP) : Prop :=
  config_of s' = config_of s /\ root s' = root s /\ leaves s' = leaves s /\
  length (heap s') = length (heap s) /\
  (forall id, id <> ch -> heap s' !! id = heap s !! id) /\
  (forall m, heap s !! ch = Some m ->
     exists m', heap s' !! ch = Some m' /\
       parent m' = parent m /\ children m' = children m).

Definition frames {A} (ch : nat) (m : M A) : Prop :=
  forall s a s', m s = (Ok a, s') -> node_frame ch s s'.


(** The node reached from [id] by taking the actions of [path] through the
    children dicts. *)
Fixpoint follow (h : list OLOPNode) (id : nat) (path : list Z) : option nat :=
  match path with
  | [] => match h !! id with Some _ => Some id | None => None end
  | a :: rest =>
      match h !! id with
      | Some n =>
          match dict_get a (children n) with
          | Some c => follow h c rest
          | None => None
          end
      | None => None
      end
  end.

(** Action sequences over the action space [0 .. b - 1]. *)
Definition in_range (b : Z) (path : list Z) : Prop :=
  Forall (fun a => 0 <= a < b) path.

(** [id] is the arm of a sequence of [k] actions played from [r]. *)
Definition is_arm (b : Z) (k : nat) (h : list OLOPNode) (r id : nat) : Prop :=
  exists path, length path = k /\ in_range b path /\ follow h r path = Some id.

(** Nodes persist, keep their parent, and keep the children they have. *)
Definition grows (h h' : list OLOPNode) : Prop :=
  forall id n, h !! id = Some n ->
    exists n', h' !! id = Some n' /\ parent n' = parent n /\
      forall a c, dict_get a (children n) = Some c ->
                  dict_get a (children n') = Some c.

(** Every child points back to the node that holds it. *)
Definition parent_consistent (h : list OLOPNode) : Prop :=
  forall id n a c, h !! id = Some n -> dict_get a (children n) = Some c ->
    exists m, h !! c = Some m /\ parent m = Some id.

(** The frontier's nodes are the arms of the sequences of length [k]. *)
Definition arms_inv (b : Z) (k : nat) (r : nat) (s : OLOP) : Prop :=
  parent_consistent (heap s) /\
  (forall id, id ∈ leaves s -> is_arm b k (heap s) r id) /\
  (forall path, length path = k -> in_range b path ->
     exists leaf, leaf ∈ leaves s /\ follow (heap s) r path = Some leaf).


(** [h] is [h0] up to the scratch [value] fields. *)
Definition same_shape (h0 h : list OLOPNode) : Prop :=
  length h = length h0 /\
  forall id n0, h0 !! id = Some n0 -> exists v, h !! id = Some (with_value v n0).

(** Every entry of a children dict is a node whose parent is the holder. *)
Definition child_parent (h : list OLOPNode) : Prop :=
  forall id n a c, h !! id = Some n -> (a, c) ∈ children n ->
    exists m, h !! c = Some m /\ parent m = Some id.

Definition done_at (h : list OLOPNode) (id : nat) : bool :=
  match h !! id with Some n => done n | None => false end.

(** [U(node)] for the node [id] of depth [d], read off the heap [h]. *)
Definition U_of (gamma : R) (h : list OLOPNode) (id d : nat) : ext :=
  U_spec gamma h id d (done_at h id).

(** The queue entries that a level of the traversal leaves for the next. *)
Definition level_children (h : list OLOPNode) (level : list (nat * list Z))
    : list (nat * list Z) :=
  flat_map (fun e =>
              match h !! fst e with
              | Some n => map (fun kv => (snd kv, snd e ++ [fst kv])) (children n)
              | None => []
              end) level.


(** ** Vocabulary of the further properties *)

(** The node left by a successful [update]. *)
Definition updated_node `{Collaborators} (c : config) (episodes : Z) (reward : R)
    (done_ : bool) (n : OLOPNode) : OLOPNode :=
  let cumulative := (cumulative_reward n + reward)%R in
  let cnt := count n + 1 in
  mkNode (parent n) (children n) cnt cumulative
    (if String.eqb (cfg_upper_bound c) "hoeffding"
     then hoeffding_upper_bound cumulative cnt episodes
     else if String.eqb (cfg_upper_bound c) "kullback-leibler"
     then kl_upper_bound cumulative cnt episodes
     else mu_ucb n)
    (done_ || done n) (value n).

(** Successive calls [node.update(reward, done)] on one node. *)
Fixpoint update_seq `{Collaborators} (self : nat) (samples : list (R * bool))
    : M unit :=
  match samples with
  | [] => ret tt
  | (reward, done_) :: rest => update self reward done_ ;; update_seq self rest
  end.

Definition Rsum (l : list R) : R := foldr Rplus 0%R l.

(** The two planner states have the same tree: configuration, root, frontier
    and every node's parent and children agree; statistics and scratch values
    may differ. *)
Definition shape_eq (s s' : OLOP) : Prop :=
  config_of s' = config_of s /\ root s' = root s /\ leaves s' = leaves s /\
  length (heap s') = length (heap s) /\
  forall id n, heap s !! id = Some n ->
    exists n', heap s' !! id = Some n' /\
      parent n' = parent n /\ children n' = children n.

(** Whatever its outcome, the computation relates the state it starts from
    to the state it leaves by [P]. *)
Definition preserves {A} (P : OLOP -> OLOP -> Prop) (m : M A) : Prop :=
  forall s o s', m s = (o, s') -> P s s'.

(** Structural well-formedness of the arena: parents are created before
    their children, and a children dict holds nodes that point back. *)
Definition wf_tree (h : list OLOPNode) : Prop :=
  parents_below h /\ child_parent h.

Definition planner_inv (s : OLOP) : Prop :=
  wf_tree (heap s) /\ frontier_inv s.

(** An environment that always offers a non-empty list of distinct
    actions. *)
Definition offers_actions `{Collaborators} : Prop :=
  forall state, NoDup (available_actions state) /\ available_actions state <> [].


(** The samples a rollout folds into the tree when it walks the existing
    path of [best_sequence] from [node]: for each step, the child reached,
    the reward and the [done] flag, up to and including the first [done]. *)
Fixpoint rollout_trace `{Collaborators} (h : list OLOPNode) (best_sequence : list Z)
    (node : nat) (state : env) : list (nat * R * bool) :=
  match best_sequence with
  | [] => []
  | action :: rest =>
      let '(state', reward, done_) := env_step state action in
      match h !! node with
      | Some n =>
          match dict_get action (children n) with
          | Some child =>
              (child, reward, done_) ::
              (if done_ then [] else rollout_trace h rest child state')
          | None => []
          end
      | None => []
      end
  end.

(** The updates of a trace, in order. *)
Fixpoint update_trace `{Collaborators} (trace : list (nat * R * bool)) : M unit :=
  match trace with
  | [] => ret tt
  | (child, reward, done_) :: rest =>
      update child reward done_ ;; update_trace rest
  end.


(** An environment whose every step ends the episode with reward 1/2. *)
Definition terminal_collaborators : Collaborators := {|
  env := unit;
  env_step := fun st _ => (st, (1 / 2)%R, true);
  get_available_actions := fun _ => Some [0];
  action_space_n := fun _ => 1;
  hoeffding_upper_bound := fun _ _ _ => PInf;
  kl_upper_bound := fun _ _ _ => Fin 1;
  get_plan := fun _ => Ok []
|}.


(** A scored path of three nodes: the root, its child (action 0) and its
    grandchild, whose value is above the child's. *)
Definition path_tree : OLOP :=
  mkOLOP (demo_config 10 (1 / 2) (Some 5) (Some 2))
    [mkNode None [(0, 1%nat)] 0 0%R PInf false (Fin 3);
     mkNode (Some 0%nat) [(0, 2%nat)] 1 1%R (Fin 1) false (Fin 1);
     mkNode (Some 1%nat) [] 1 1%R (Fin 1) false (Fin 2)]
    (Some 0%nat) [2%nat].


(** ** [OLOPNode.selection_rule] *)

(** Modelled from the spec: [Node.all_argmax] (not part of this file's
    source) lists the positions of the highest entry, in increasing order;
    the maximum of an empty list is a [ValueError]. *)
Definition all_argmax (x : list Z) : outcome (list nat) :=
  match x with
  | [] => Raise ValueError
  | x0 :: rest =>
      let m := fold_left Z.max rest x0 in
      Ok (filter (fun i => x !! i = Some m) (seq 0 (length x)))
  end.

(** Modelled from the spec: [Node.get_value] (not part of this file's
    source) is the node's current value estimate. *)
Definition get_value (n : OLOPNode) : ext := value n.

(** Python's [max(iterable, key=...)] over the elements paired with their
    keys: the first element whose key is the highest. *)
Fixpoint max_from (best : nat) (best_key : ext) (l : list (nat * ext)) : nat :=
  match l with
  | [] => best
  | (i, k) :: rest =>
      if elt_dec best_key k then max_from i k rest
      else max_from best best_key rest
  end.

Definition max_key (l : list (nat * ext)) : outcome nat :=
  match l with
  | [] => Raise ValueError
  | (i, k) :: rest => Ok (max_from i k rest)
  end.

Definition lift_outcome {A} (o : outcome A) : M A := fun s => (o, s).

(** A list comprehension whose body reads the state. *)
Fixpoint for_each {A B} (f : A -> M B) (l : list A) : M (list B) :=
  match l with
  | [] => ret []
  | x :: rest =>
      y <- f x ;;
      ys <- for_each f rest ;;
      ret (y :: ys)
  end.

(** [self.children[a]] *)
Definition child_node (n : OLOPNode) (a : Z) : M OLOPNode :=
  match dict_get a (children n) with
  | Some c => get_node c
  | None => raise KeyError
  end.

Definition selection_rule (self : nat) : M Z :=
  n <- get_node self ;;
  let actions := dict_keys (children n) in
  xs <- for_each (fun a => m <- child_node n a ;; ret (count m)) actions ;;
  counts <- lift_outcome (all_argmax xs) ;;
  keys <- for_each (fun i => match actions !! i with
                             | Some a => m <- child_node n a ;; ret (get_value m)
                             | None => raise IndexError
                             end) counts ;;
  i <- lift_outcome (max_key (zip counts keys)) ;;
  match actions !! i with
  | Some a => ret a
  | None => raise IndexError
  end.

(** The visit count and the value of the child under an action. *)
Definition count_under (h : list OLOPNode) (n : OLOPNode) (a : Z) : Z :=
  match dict_get a (children n) with
  | Some c => match h !! c with Some m => count m | None => 0 end
  | None => 0
  end.

Definition value_under (h : list OLOPNode) (n : OLOPNode) (a : Z) : ext :=
  match dict_get a (children n) with
  | Some c => match h !! c with Some m => value m | None => PInf end
  | None => PInf
  end.

(** A node with two children: action 0 visited twice with value 1, action 1
    visited twice with value 2. *)
Definition tied_tree : OLOP :=
  mkOLOP (demo_config 10 (1 / 2) (Some 5) (Some 1))
    [mkNode None [(0, 1%nat); (1, 2%nat)] 0 0%R PInf false (Fin 0);
     mkNode (Some 0%nat) [] 2 1%R (Fin 1) false (Fin 1);
     mkNode (Some 0%nat) [] 2 1%R (Fin 1) false (Fin 2)]
    (Some 0%nat) [1%nat; 2%nat].


(** ** [OLOP.horizon] and the allocation in float64 arithmetic

    The source evaluates [np.log(episodes) / (2 * np.log(1 / gamma))] in
    float64: the logarithm and the two quotients are rounded before the
    ceiling is taken, so that the horizon can differ from the exact one
    where the quotient is (within rounding of) an integer.  The rounded
    operations depend on the platform's numerics and are parameters here;
    doubling is exact.  As for [horizon], the embedding is meant for
    [episodes >= 1] and [0 < gamma < 1]. *)
Class Float64 : Type := {
  (** [np.log] *)
  np_log : R -> R;
  (** the quotient of two floats *)
  float_div : R -> R -> R
}.

Section Rounded.
Context `{Float64}.

(** [int(np.ceil(np.log(episodes) / (2 * np.log(1 / gamma))))] *)
Definition horizon_float (episodes : Z) (gamma : R) : Z :=
  Zceil (float_div (np_log (IZR episodes)) (2 * np_log (float_div 1 gamma))).

(** The [for episodes in range(1, budget)] loop of [allocate_budget]. *)
Fixpoint allocate_loop_float (budget : Z) (gamma : R) (range : list Z) : option Z :=
  match range with
  | [] => None
  | episodes :: rest =>
      if budget <? episodes * horizon_float episodes gamma
      then Some episodes
      else allocate_loop_float budget gamma rest
  end.

Definition allocate_budget_config_float (c : config) : outcome unit * config :=
  match allocate_loop_float (cfg_budget c) (cfg_gamma c)
          (seqZ 1 (cfg_budget c - 1)) with
  | Some episodes =>
      let c1 := set_episodes (episodes - 1) c in
      let c2 := set_horizon (horizon_float (episodes - 1) (cfg_gamma c1)) c1 in
      (Ok tt, c2)
  | None => (Raise ValueError, c)
  end.

Definition allocate_budget_float : M unit :=
  fun s => let (r, c) := allocate_budget_config_float (config_of s) in
           (r, mkOLOP c (heap s) (root s) (leaves s)).

(** [OLOP.make_root] with the allocation in float64; [n] is
    [self.env.action_space.n]. *)
Definition make_root_float (n : Z) : M nat :=
  c <- get_config ;;
  root <- alloc (new_node None c) ;;
  set_leaves [root] ;;
  c <- get_config ;;
  (match cfg_horizon c with
   | None => allocate_budget_float
   | Some _ => ret tt
   end) ;;
  c <- get_config ;;
  (if cfg_lazy_tree_construction c then ret tt else prebuild_tree n) ;;
  ret root.

End Rounded.

(** Arithmetic without rounding: [horizon_float] is then [horizon]. *)
Definition exact_arithmetic : Float64 := {|
  np_log := ln;
  float_div := Rdiv
|}.

(** An arithmetic whose logarithm comes out one unit in the last place
    ([2^-50] for results between 4 and 8) above [ln 729] at 729 and is exact
    elsewhere: the quotient [np.log(729) / (2 * np.log(3))] then lies just
    above 3, as it does under numpy, where [OLOP.horizon(729, 1/3)] is 4. *)
Definition high_log_arithmetic : Float64 := {|
  np_log := fun x =>
    if Req_dec_T x 729 then (ln 729 + 1 / 1125899906842624)%R else ln x;
  float_div := Rdiv
|}.

(** * Properties *)

(** ** The horizon formula *)

Section Horizon.
Local Open Scope R_scope.

Lemma ln_weak_mono (x y : R) : 0 < x -> x <= y -> ln x <= ln y.
Proof.
  intros Hx [Hlt | ->]; [left; now apply ln_increasing | right; reflexivity].
Qed.

Lemma log_inv_gamma (gamma : R) : 0 < gamma -> ln (1 / gamma) = - ln gamma.
Proof.
  intros Hg. unfold Rdiv. rewrite Rmult_1_l. now apply ln_Rinv.
Qed.

Lemma denominator_pos (gamma : R) : 0 < gamma < 1 -> 0 < 2 * ln (1 / gamma).
Proof.
  intros [Hg0 Hg1]. rewrite log_inv_gamma by assumption.
  pose proof (ln_increasing gamma 1 Hg0 Hg1) as Hln. rewrite ln_1 in Hln. lra.
Qed.

Lemma ln_episodes_nonneg (M : Z) : (1 <= M)%Z -> 0 <= ln (IZR M).
Proof.
  intros HM. rewrite <- ln_1. apply ln_weak_mono; [lra |].
  now apply IZR_le.
Qed.

Lemma horizon_one (gamma : R) : horizon 1 gamma = 0%Z.
Proof.
  unfold horizon. rewrite ln_1. apply Zceil_eq.
  unfold Rdiv. rewrite Rmult_0_l. lra.
Qed.

Lemma horizon_mono_episodes (gamma : R) (M M' : Z) :
  0 < gamma < 1 -> (1 <= M <= M')%Z -> (horizon M gamma <= horizon M' gamma)%Z.
Proof.
  intros Hg [HM HMM']. unfold horizon. apply Zceil_le.
  pose proof (denominator_pos gamma Hg) as Hd.
  apply Rmult_le_compat_r; [left; now apply Rinv_0_lt_compat |].
  apply ln_weak_mono; [apply IZR_lt; lia | now apply IZR_le].
Qed.

Lemma horizon_nonneg (gamma : R) (M : Z) :
  0 < gamma < 1 -> (1 <= M)%Z -> (0 <= horizon M gamma)%Z.
Proof.
  intros Hg HM. rewrite <- (horizon_one gamma).
  apply horizon_mono_episodes; [assumption | lia].
Qed.

Lemma horizon_mono_gamma (M : Z) (gamma gamma' : R) :
  (1 <= M)%Z -> 0 < gamma -> gamma <= gamma' -> gamma' < 1 ->
  (horizon M gamma <= horizon M gamma')%Z.
Proof.
  intros HM Hg0 Hgg Hg1. unfold horizon. apply Zceil_le.
  assert (Hd : 0 < 2 * ln (1 / gamma)) by (apply denominator_pos; lra).
  assert (Hd' : 0 < 2 * ln (1 / gamma')) by (apply denominator_pos; lra).
  assert (Hdd : 2 * ln (1 / gamma') <= 2 * ln (1 / gamma)).
  { rewrite !log_inv_gamma by lra.
    pose proof (ln_weak_mono gamma gamma' Hg0 Hgg). lra. }
  pose proof (ln_episodes_nonneg M HM) as Hn.
  apply Rmult_le_compat_l; [assumption |].
  apply Rinv_le_contravar; assumption.
Qed.

(** [horizon M gamma = k + 1] exactly when [M] lies between the powers
    [(1/gamma)^(2k)] and [(1/gamma)^(2(k+1))]. *)
Lemma horizon_band (gamma : R) (M : Z) (k : nat) :
  0 < gamma < 1 -> (1 <= M)%Z ->
  IZR M * gamma ^ (2 * (k + 1)) <= 1 < IZR M * gamma ^ (2 * k) ->
  horizon M gamma = Z.of_nat (k + 1).
Proof.
  intros Hg HM [Hup Hlo]. unfold horizon. apply Zceil_eq.
  assert (HM0 : 0 < IZR M) by (apply IZR_lt; lia).
  assert (Hd : 0 < 2 * ln (1 / gamma)) by now apply denominator_pos.
  assert (Hpow : forall n : nat, ln (IZR M * gamma ^ n) = ln (IZR M) + INR n * ln gamma).
  { intros n. rewrite ln_mult; [| assumption | apply pow_lt; lra].
    rewrite ln_pow by lra. reflexivity. }
  assert (H1 : ln (IZR M) + INR (2 * (k + 1)) * ln gamma <= 0).
  { rewrite <- Hpow, <- ln_1. apply ln_weak_mono; [| assumption].
    apply Rmult_lt_0_compat; [assumption | apply pow_lt; lra]. }
  assert (H2 : 0 < ln (IZR M) + INR (2 * k) * ln gamma).
  { rewrite <- Hpow, <- ln_1. apply ln_increasing; lra. }
  rewrite log_inv_gamma in * by lra.
  rewrite <- INR_IZR_INZ.
  rewrite mult_INR in H1, H2. rewrite plus_INR in *. simpl INR in *.
  split.
  - apply Rmult_lt_reg_r with (2 * - ln gamma); [assumption |].
    unfold Rdiv. rewrite Rmult_assoc, Rinv_l by lra. lra.
  - apply Rmult_le_reg_r with (2 * - ln gamma); [assumption |].
    unfold Rdiv. rewrite Rmult_assoc, Rinv_l by lra. lra.
Qed.

End Horizon.

(** ** Budget allocation *)

Lemma allocate_loop_None (B : Z) (gamma : R) (l : list Z) :
  allocate_loop B gamma l = None <-> Forall (fun e => e * horizon e gamma <= B) l.
Proof.
  induction l as [| e l IH]; simpl.
  - split; [constructor | reflexivity].
  - destruct (Z.ltb_spec B (e * horizon e gamma)) as [Hlt | Hle].
    + split; [discriminate | intros HF; inversion HF; lia].
    + rewrite IH. split; [now constructor | intros HF; now inversion HF].
Qed.

Lemma allocate_loop_Some (B : Z) (gamma : R) (l : list Z) (e : Z) :
  allocate_loop B gamma l = Some e ->
  exists l1 l2, l = l1 ++ e :: l2 /\
    Forall (fun e' => e' * horizon e' gamma <= B) l1 /\ B < e * horizon e gamma.
Proof.
  induction l as [| x l IH]; simpl; [discriminate |].
  destruct (Z.ltb_spec B (x * horizon x gamma)) as [Hlt | Hle].
  - intros [= ->]. exists [], l. repeat split; [constructor | assumption].
  - intros Hl. destruct (IH Hl) as (l1 & l2 & -> & HF & Hgt).
    exists (x :: l1), l2. repeat split; [now constructor | assumption].
Qed.

(** In [range(1, B)] the prefix before the [i]-th element is [1 .. i-1]. *)
Lemma seqZ_split (len : Z) (l1 l2 : list Z) (e : Z) :
  seqZ 1 len = l1 ++ e :: l2 ->
  1 <= e < 1 + len /\ forall e', 1 <= e' < e -> e' ∈ l1.
Proof.
  intros Heq.
  assert (He : seqZ 1 len !! length l1 = Some e).
  { rewrite Heq. rewrite lookup_app_r by lia.
    now rewrite Nat.sub_diag. }
  apply lookup_seqZ in He as [He Hlen].
  split; [lia |].
  intros e' He'.
  assert (Hin : seqZ 1 len !! Z.to_nat (e' - 1) = Some e').
  { apply lookup_seqZ. lia. }
  rewrite Heq in Hin. rewrite lookup_app_l in Hin by lia.
  apply list_elem_of_lookup. eauto.
Qed.

Lemma allocate_loop_range_Some (B : Z) (gamma : R) (e : Z) :
  allocate_loop B gamma (seqZ 1 (B - 1)) = Some e ->
  1 <= e < B /\ B < e * horizon e gamma /\
  forall e', 1 <= e' < e -> e' * horizon e' gamma <= B.
Proof.
  intros Hl. apply allocate_loop_Some in Hl as (l1 & l2 & Heq & HF & Hgt).
  apply seqZ_split in Heq as [He Hpre].
  repeat split; try lia.
  intros e' He'. rewrite Forall_forall in HF. apply HF, Hpre, He'.
Qed.

Lemma allocate_loop_range_None (B : Z) (gamma : R) :
  allocate_loop B gamma (seqZ 1 (B - 1)) = None <->
  forall M, 1 <= M < B -> M * horizon M gamma <= B.
Proof.
  rewrite allocate_loop_None, Forall_forall. split.
  - intros HF M HM. apply HF. apply elem_of_seqZ. lia.
  - intros HM e He. apply elem_of_seqZ in He. apply HM. lia.
Qed.

Lemma allocate_budget_unfold (s : OLOP) :
  allocate_budget s =
  match allocate_loop (cfg_budget (config_of s)) (cfg_gamma (config_of s))
          (seqZ 1 (cfg_budget (config_of s) - 1)) with
  | Some e =>
      (Ok tt,
       mkOLOP (set_horizon (horizon (e - 1) (cfg_gamma (config_of s)))
                 (set_episodes (e - 1) (config_of s)))
              (heap s) (root s) (leaves s))
  | None => (Raise ValueError, s)
  end.
Proof.
  unfold allocate_budget, allocate_budget_config.
  destruct (allocate_loop _ _ _); [reflexivity | now destruct s].
Qed.

(** The cost [M * horizon M gamma] grows with [M]. *)
Lemma cost_mono (gamma : R) (M M' : Z) :
  (0 < gamma < 1)%R -> 1 <= M <= M' ->
  M * horizon M gamma <= M' * horizon M' gamma.
Proof.
  intros Hg HM.
  pose proof (horizon_mono_episodes gamma M M' Hg HM).
  pose proof (horizon_nonneg gamma M Hg ltac:(lia)).
  nia.
Qed.

Lemma horizon_half_low (M : Z) : 2 <= M <= 4 -> horizon M (1 / 2) = 1.
Proof.
  intros HM. apply (horizon_band (1 / 2) M 0); [lra | lia |].
  assert (H2 : (2 <= IZR M)%R) by (apply IZR_le; lia).
  assert (H4 : (IZR M <= 4)%R) by (apply IZR_le; lia).
  simpl. lra.
Qed.

Lemma horizon_half_mid (M : Z) : 5 <= M <= 16 -> horizon M (1 / 2) = 2.
Proof.
  intros HM. apply (horizon_band (1 / 2) M 1); [lra | lia |].
  assert (H2 : (5 <= IZR M)%R) by (apply IZR_le; lia).
  assert (H4 : (IZR M <= 16)%R) by (apply IZR_le; lia).
  simpl. lra.
Qed.

Lemma allocate_budget_demo :
  allocate_budget (new_planner (demo_config 10 (1 / 2) None None)) =
  (Ok tt, new_planner (demo_config 10 (1 / 2) (Some 5) (Some 2))).
Proof.
  rewrite allocate_budget_unfold.
  change (seqZ 1 _) with [1; 2; 3; 4; 5; 6; 7; 8; 9].
  cbn [allocate_loop new_planner config_of cfg_budget cfg_gamma demo_config].
  rewrite horizon_one.
  rewrite !horizon_half_low by lia.
  rewrite !horizon_half_mid by lia.
  simpl.
  change (6 - 1) with 5.
  rewrite horizon_half_mid by lia.
  reflexivity.
Qed.








(** ** Monotonicity of the horizon *)

(** C8 (amended): for [gamma] in (0,1) the horizon is non-decreasing in [M]
    over [M >= 1], and for fixed [M >= 1] it is non-decreasing in [gamma]. *)
Theorem horizon_monotone (gamma gamma' : R) (M M' : Z) :
  (0 < gamma)%R -> (gamma <= gamma')%R -> (gamma' < 1)%R -> 1 <= M <= M' ->
  horizon M gamma <= horizon M' gamma /\ horizon M gamma <= horizon M gamma'.
Proof.
  intros Hg0 Hgg Hg1 HM. split.
  - apply horizon_mono_episodes; [lra | assumption].
  - apply horizon_mono_gamma; [lia | assumption ..].
Qed.

Lemma horizon_monotone_witness :
  horizon 2 (1 / 4) <= horizon 3 (1 / 4) /\ horizon 2 (1 / 4) <= horizon 2 (1 / 2).
Proof.
  apply (horizon_monotone (1 / 4) (1 / 2) 2 3); [lra | lra | lra | lia].
Defined.

(** C8 as stated fails: the horizon is not strictly increasing in [gamma];
    it is 0 at [M = 1] for every [gamma], and 1 at [M = 2] for both
    [gamma = 1/4] and [gamma = 1/2]. *)
Lemma horizon_strict_counterexample :
  (0 < 1 / 4 < 1 / 2)%R /\ (1 / 2 < 1)%R /\
  ~ horizon 1 (1 / 4) < horizon 1 (1 / 2) /\
  ~ horizon 2 (1 / 4) < horizon 2 (1 / 2).
Proof.
  split; [lra |]. split; [lra |]. split.
  - rewrite !horizon_one. lia.
  - rewrite horizon_half_low by lia.
    rewrite (horizon_band (1 / 4) 2 0); [simpl; lia | lra | lia | simpl; lra].
Qed.

(** ** Statistic update *)

(** C6: a reward outside [0,1] makes [update] raise its domain error, and
    the planner state, hence the node's [count], [cumulative_reward],
    [mu_ucb] and terminal flag, is the same after the call as before. *)
Theorem update_rejects_reward `{Collaborators} (s : OLOP) (self : nat)
    (reward : R) (done_ : bool) :
  ~ (0 <= reward <= 1)%R ->
  update self reward done_ s = (Raise ValueError, s).
Proof.
  intros Hout. unfold update.
  destruct (Rle_dec 0 reward) as [H0 | H0]; [| reflexivity].
  destruct (Rle_dec reward 1) as [H1 | H1]; [| reflexivity].
  exfalso. apply Hout. split; assumption.
Qed.

Lemma update_rejects_reward_witness :
  @update demo_collaborators 0%nat 2%R true
    (mkOLOP (demo_config 10 (1 / 2) (Some 5) (Some 2))
            [new_node None (demo_config 10 (1 / 2) (Some 5) (Some 2))]
            (Some 0%nat) [0%nat])
  = (Raise ValueError,
     mkOLOP (demo_config 10 (1 / 2) (Some 5) (Some 2))
            [new_node None (demo_config 10 (1 / 2) (Some 5) (Some 2))]
            (Some 0%nat) [0%nat]).
Proof.
  apply (@update_rejects_reward demo_collaborators). lra.
Defined.

(** ** Heap lemmas *)

Lemma with_children_twice (d d' : list (Z * nat)) (n : OLOPNode) :
  with_children d (with_children d' n) = with_children d n.
Proof. reflexivity. Qed.

Lemma Node_expand_loop_run (self : nat) (actions : list Z) (s : OLOP) (n : OLOPNode) :
  heap s !! self = Some n ->
  Node_expand_loop self actions s =
  (Ok tt,
   mkOLOP (config_of s)
     (<[self := with_children (dict_set_all actions (length (heap s)) (children n)) n]>
        (heap s) ++ replicate (length actions) (new_node (Some self) (config_of s)))
     (root s) (leaves s)).
Proof.
  revert s n. induction actions as [| a rest IH]; intros s n Hn.
  - simpl. unfold ret. destruct s as [c h r l]. simpl in *.
    rewrite app_nil_r. f_equal. f_equal.
    symmetry. apply list_insert_id. now destruct n.
  - pose proof (lookup_lt_Some _ _ _ Hn) as Hlt.
    cbn [Node_expand_loop]. unfold bind at 1. unfold get_config.
    unfold bind at 1. unfold alloc.
    unfold bind at 1. unfold get_node. cbn [heap].
    rewrite lookup_app_l by assumption. rewrite Hn.
    unfold bind at 1. unfold put_node. cbn [heap config_of root leaves].
    erewrite IH; cycle 1.
    { cbn [heap]. apply list_lookup_insert_eq. rewrite length_app. simpl. lia. }
    cbn [heap config_of root leaves children with_children].
    f_equal. f_equal.
    rewrite list_insert_insert_eq.
    rewrite length_insert, length_app. cbn [length].
    rewrite insert_app_l by assumption.
    rewrite <- app_assoc. cbn [app replicate].
    replace (length (heap s) + 1)%nat with (S (length (heap s))) by lia.
    reflexivity.
Qed.

Lemma dict_set_fresh (k : Z) (v : nat) (d : list (Z * nat)) :
  k ∉ dict_keys d -> dict_set k v d = d ++ [(k, v)].
Proof.
  induction d as [| [k' v'] d IH]; simpl; [reflexivity |].
  intros Hk. rewrite not_elem_of_cons in Hk. destruct Hk as [Hne Hk].
  destruct (Z.eqb_spec k' k) as [-> | _]; [congruence |].
  now rewrite IH.
Qed.

Lemma dict_keys_app (d d' : list (Z * nat)) :
  dict_keys (d ++ d') = dict_keys d ++ dict_keys d'.
Proof. apply map_app. Qed.

Lemma dict_set_all_fresh (actions : list Z) (next : nat) (d : list (Z * nat)) :
  NoDup actions -> (forall a, a ∈ actions -> a ∉ dict_keys d) ->
  dict_set_all actions next d = d ++ zip actions (seq next (length actions)).
Proof.
  revert next d. induction actions as [| a rest IH]; intros next d Hnd Hfresh; simpl.
  - now rewrite app_nil_r.
  - apply NoDup_cons in Hnd as [Ha Hnd].
    rewrite dict_set_fresh by (apply Hfresh; left).
    rewrite IH; [now rewrite <- app_assoc | assumption |].
    intros a' Ha'. rewrite dict_keys_app. simpl.
    rewrite elem_of_app, list_elem_of_singleton.
    intros [Hin | ->]; [| contradiction].
    revert Hin. apply Hfresh. now right.
Qed.

Lemma dict_keys_zip (actions : list Z) (ids : list nat) :
  length actions = length ids -> dict_keys (zip actions ids) = actions.
Proof. intros Hlen. unfold dict_keys. apply fst_zip. lia. Qed.

Lemma dict_values_zip (actions : list Z) (ids : list nat) :
  length actions = length ids -> dict_values (zip actions ids) = ids.
Proof. intros Hlen. unfold dict_values. apply snd_zip. lia. Qed.

Lemma ancestor_preserved (h h' : list OLOPNode) (k id r : nat) :
  parents_preserved h h' -> ancestor h k id = Some r -> ancestor h' k id = Some r.
Proof.
  intros Hpp. revert id. induction k as [| k IH]; intros id; simpl.
  - destruct (h !! id) as [n |] eqn:Hn; [| discriminate].
    destruct (Hpp _ _ Hn) as (n' & -> & _). auto.
  - destruct (h !! id) as [n |] eqn:Hn; [| discriminate].
    destruct (Hpp _ _ Hn) as (n' & -> & ->).
    destruct (parent n); [apply IH | discriminate].
Qed.

Lemma at_depth_preserved (h h' : list OLOPNode) (id d : nat) :
  parents_preserved h h' -> at_depth h id d -> at_depth h' id d.
Proof.
  intros Hpp (r & Hanc & n & Hn & Hroot).
  exists r. split; [eapply ancestor_preserved; eassumption |].
  destruct (Hpp _ _ Hn) as (n' & Hn' & Hp). exists n'. split; congruence.
Qed.

Lemma parents_preserved_refl (h : list OLOPNode) : parents_preserved h h.
Proof. intros id n Hn. eauto. Qed.

Lemma parents_preserved_trans (h1 h2 h3 : list OLOPNode) :
  parents_preserved h1 h2 -> parents_preserved h2 h3 -> parents_preserved h1 h3.
Proof.
  intros H12 H23 id n Hn.
  destruct (H12 _ _ Hn) as (n2 & Hn2 & Hp2).
  destruct (H23 _ _ Hn2) as (n3 & Hn3 & Hp3).
  exists n3. split; congruence.
Qed.

Lemma at_depth_child (h : list OLOPNode) (c p d : nat) (n : OLOPNode) :
  h !! c = Some n -> parent n = Some p -> at_depth h p d -> at_depth h c (S d).
Proof.
  intros Hc Hp (r & Hanc & Hroot). exists r. split; [| assumption].
  simpl. now rewrite Hc, Hp.
Qed.

(** What the generic expansion does to a childless node. *)
Lemma Node_expand_childless (self : nat) (b : Z) (s : OLOP) (n : OLOPNode) :
  heap s !! self = Some n -> children n = [] ->
  exists s',
    Node_expand self b s = (Ok tt, s') /\
    config_of s' = config_of s /\ root s' = root s /\ leaves s' = leaves s /\
    length (heap s') = (length (heap s) + Z.to_nat b)%nat /\
    heap s' !! self =
      Some (with_children (zip (seqZ 0 b) (seq (length (heap s)) (Z.to_nat b))) n) /\
    (forall id, id <> self -> (id < length (heap s))%nat ->
       heap s' !! id = heap s !! id) /\
    (forall id, (length (heap s) <= id < length (heap s) + Z.to_nat b)%nat ->
       heap s' !! id = Some (new_node (Some self) (config_of s))).
Proof.
  intros Hn Hch. pose proof (lookup_lt_Some _ _ _ Hn) as Hlt.
  eexists. split; [unfold Node_expand; apply (Node_expand_loop_run _ _ _ n Hn) |].
  cbn [config_of root leaves heap].
  rewrite Hch, dict_set_all_fresh, length_seqZ; cycle 1.
  { apply NoDup_seqZ. }
  { intros a _. simpl. apply not_elem_of_nil. }
  cbn [app].
  repeat split.
  - rewrite length_app, length_insert, length_replicate. reflexivity.
  - rewrite lookup_app_l by (now rewrite length_insert).
    now apply list_lookup_insert_eq.
  - intros id Hne Hid. rewrite lookup_app_l by (now rewrite length_insert).
    now apply list_lookup_insert_ne.
  - intros id Hid. rewrite lookup_app_r by (rewrite length_insert; lia).
    rewrite length_insert. apply lookup_replicate_2. lia.
Qed.

Lemma childless_lt (h : list OLOPNode) (id : nat) :
  childless h id -> (id < length h)%nat.
Proof. intros (n & Hn & _). eapply lookup_lt_Some; eassumption. Qed.

Lemma new_node_parent (p : option nat) (c : config) : parent (new_node p c) = p.
Proof. unfold new_node. simpl. now destruct (String.eqb _ _). Qed.

Lemma new_node_children (p : option nat) (c : config) : children (new_node p c) = [].
Proof. unfold new_node. simpl. now destruct (String.eqb _ _). Qed.

(** One pass over the frontier: every leaf of depth [k] is replaced by its
    [b] fresh children of depth [k + 1]. *)
Lemma prebuild_level_spec (b : Z) (k : nat) (todo : list nat) :
  forall (acc : list nat) (s : OLOP),
  NoDup todo -> NoDup acc ->
  (forall id, id ∈ todo -> childless (heap s) id /\ at_depth (heap s) id k) ->
  (forall id, id ∈ acc -> childless (heap s) id /\ at_depth (heap s) id (S k)) ->
  (forall id, id ∈ todo -> id ∉ acc) ->
  (forall id n, heap s !! id = Some n -> id ∉ acc -> id ∉ todo ->
     dict_keys (children n) = seqZ 0 b) ->
  exists acc' s',
    prebuild_level b todo acc s = (Ok acc', s') /\
    config_of s' = config_of s /\ root s' = root s /\ leaves s' = leaves s /\
    length acc' = (length acc + Z.to_nat b * length todo)%nat /\
    NoDup acc' /\
    (forall id, id ∈ acc' -> childless (heap s') id /\ at_depth (heap s') id (S k)) /\
    (forall id n, heap s' !! id = Some n -> id ∉ acc' ->
       dict_keys (children n) = seqZ 0 b) /\
    parents_preserved (heap s) (heap s').
Proof.
  induction todo as [| leaf rest IH]; intros acc s Hnd Hnda Htodo Hacc Hdisj Hfull.
  - exists acc, s. simpl. unfold ret.
    split; [reflexivity |]. do 3 (split; [reflexivity |]).
    split; [lia |]. split; [assumption |]. split; [assumption |].
    split; [| apply parents_preserved_refl].
    intros id n Hn Hid. apply (Hfull id n); [assumption .. | apply not_elem_of_nil].
  - destruct (Htodo leaf ltac:(left)) as [(n & Hn & Hch) Hdepth].
    destruct (Node_expand_childless leaf b s n Hn Hch)
      as (s1 & Hrun & Hc1 & Hr1 & Hl1 & Hlen1 & Hself1 & Hold1 & Hnew1).
    set (len := length (heap s)) in *.
    set (kids := seq len (Z.to_nat b)) in *.
    apply NoDup_cons in Hnd as [Hleaf Hnd].
    assert (Hpp : parents_preserved (heap s) (heap s1)).
    { intros id m Hm. destruct (decide (id = leaf)) as [-> |].
      - eexists. split; [exact Hself1 |]. rewrite Hn in Hm. now injection Hm as <-.
      - exists m. split; [| reflexivity]. rewrite Hold1; [assumption .. |].
        eapply lookup_lt_Some; eassumption. }
    assert (Hkeep : forall id, id <> leaf -> childless (heap s) id ->
                      childless (heap s1) id).
    { intros id Hne Hc. pose proof (childless_lt _ _ Hc) as Hlt.
      destruct Hc as (m & Hm & Hcm). exists m. split; [| assumption].
      now rewrite Hold1. }
    destruct (IH (acc ++ kids) s1) as
      (acc' & s' & Hrun' & Hc' & Hr' & Hl' & Hlen' & Hnd' & Hacc' & Hfull' & Hpp').
    + assumption.
    + apply NoDup_app. split; [assumption |]. split; [| apply NoDup_seq].
      intros x Hx Hk. apply elem_of_seq in Hk.
      pose proof (childless_lt _ _ (proj1 (Hacc x Hx))). lia.
    + intros id Hid. destruct (Htodo id ltac:(now right)) as [Hc Hd].
      split; [| eapply at_depth_preserved; eassumption].
      apply Hkeep; [| assumption]. intros ->. contradiction.
    + intros id Hid. apply elem_of_app in Hid as [Hid | Hid].
      * destruct (Hacc id Hid) as [Hc Hd].
        split; [| eapply at_depth_preserved; eassumption].
        apply Hkeep; [| assumption]. intros ->.
        now apply (Hdisj leaf ltac:(left)).
      * apply elem_of_seq in Hid.
        assert (Hlk : heap s1 !! id = Some (new_node (Some leaf) (config_of s)))
          by (apply Hnew1; lia).
        split.
        -- eexists. split; [exact Hlk | apply new_node_children].
        -- eapply at_depth_child; [exact Hlk | apply new_node_parent |].
           eapply at_depth_preserved; eassumption.
    + intros id Hid Hin. apply elem_of_app in Hin as [Hin | Hin].
      * now apply (Hdisj id ltac:(now right)).
      * apply elem_of_seq in Hin.
        pose proof (childless_lt _ _ (proj1 (Htodo id ltac:(now right)))). lia.
    + intros id m Hm Hnacc Hnrest.
      rewrite elem_of_app in Hnacc.
      destruct (decide (id = leaf)) as [-> | Hne].
      * rewrite Hself1 in Hm. injection Hm as <-. simpl.
        apply dict_keys_zip. unfold kids. now rewrite length_seqZ, length_seq.
      * pose proof (lookup_lt_Some _ _ _ Hm) as Hlt. rewrite Hlen1 in Hlt.
        destruct (decide (id < len)%nat) as [Hold | Hnew].
        -- rewrite Hold1 in Hm by assumption.
           apply (Hfull id m Hm); [tauto |].
           rewrite elem_of_cons. tauto.
        -- exfalso. apply Hnacc. right. apply elem_of_seq. lia.
    + exists acc', s'. split.
      { cbn [prebuild_level]. unfold bind at 1. rewrite Hrun.
        unfold bind at 1. unfold get_node. rewrite Hself1. simpl.
        rewrite dict_values_zip by (unfold kids; now rewrite length_seqZ, length_seq).
        exact Hrun'. }
      repeat split; try congruence; try assumption.
      * rewrite Hlen', length_app. unfold kids. rewrite length_seq. simpl. lia.
      * apply Hacc'; assumption.
      * apply Hacc'; assumption.
      * eapply parents_preserved_trans; eassumption.
Qed.

Lemma prebuild_levels_spec (b : Z) (j : nat) :
  forall (k : nat) (s : OLOP),
  complete_tree b k s ->
  exists s',
    prebuild_levels b j s = (Ok tt, s') /\
    config_of s' = config_of s /\ root s' = root s /\
    complete_tree b (k + j) s' /\
    parents_preserved (heap s) (heap s').
Proof.
  induction j as [| j IH]; intros k s Hct.
  - exists s. rewrite Nat.add_0_r. simpl. unfold ret.
    do 3 (split; [reflexivity |]).
    split; [exact Hct | apply parents_preserved_refl].
  - destruct Hct as (Hnd & Hlen & Hleaves & Hfull).
    destruct (prebuild_level_spec b k (leaves s) [] s) as
      (acc & s1 & Hrun & Hc1 & Hr1 & Hl1 & Hlen1 & Hnd1 & Hacc1 & Hfull1 & Hpp1).
    + assumption.
    + constructor.
    + assumption.
    + intros id Hid. now apply not_elem_of_nil in Hid.
    + intros id _. apply not_elem_of_nil.
    + intros id n Hn _ Hid. now apply (Hfull id n).
    + destruct (IH (S k) (mkOLOP (config_of s1) (heap s1) (root s1) acc))
        as (s' & Hrun' & Hc' & Hr' & Hct' & Hpp').
      { split; [exact Hnd1 |]. split; [| split; assumption].
        simpl. rewrite Hlen1, Hlen. simpl. lia. }
      exists s'. split.
      { cbn [prebuild_levels]. unfold bind at 1. unfold get_leaves.
        unfold bind at 1. rewrite Hrun.
        unfold bind at 1. unfold set_leaves. exact Hrun'. }
      simpl in *. do 2 (split; [congruence |]). split.
      * replace (k + S j)%nat with (S k + j)%nat by lia. exact Hct'.
      * eapply parents_preserved_trans; eassumption.
Qed.

Lemma prebuild_tree_spec (b L : Z) (s : OLOP) :
  cfg_horizon (config_of s) = Some L -> complete_tree b 0 s ->
  exists s',
    prebuild_tree b s = (Ok tt, s') /\
    config_of s' = config_of s /\ root s' = root s /\
    complete_tree b (Z.to_nat L) s' /\
    parents_preserved (heap s) (heap s').
Proof.
  intros HL Hct.
  destruct (prebuild_levels_spec b (Z.to_nat L) 0 s Hct) as (s' & Hrun & Hrest).
  exists s'. split; [| exact Hrest].
  unfold prebuild_tree, config_horizon, bind, get_config. rewrite HL. exact Hrun.
Qed.

Lemma fresh_root_complete (b : Z) (c : config) (r : option nat) :
  complete_tree b 0 (mkOLOP c [new_node None c] r [0%nat]).
Proof.
  split; [apply NoDup_singleton |]. split; [reflexivity |]. split.
  - intros id Hid. apply list_elem_of_singleton in Hid as ->. split.
    + eexists. split; [reflexivity | apply new_node_children].
    + exists 0%nat. split; [reflexivity |].
      eexists. split; [reflexivity | apply new_node_parent].
  - intros id n Hn Hid. simpl in *. destruct id as [| id].
    + exfalso. apply Hid. now left.
    + discriminate.
Qed.

Lemma make_root_prebuilt (c : config) (b L : Z) :
  cfg_lazy_tree_construction c = false -> cfg_horizon c = Some L ->
  exists s',
    make_root b (new_planner c) = (Ok 0%nat, s') /\
    config_of s' = c /\ complete_tree b (Z.to_nat L) s' /\ is_root (heap s') 0.
Proof.
  intros Hlazy HL.
  destruct (prebuild_tree_spec b L (mkOLOP c [new_node None c] None [0%nat]))
    as (s' & Hrun & Hc & _ & Hct & Hpp);
    [exact HL | apply fresh_root_complete |].
  exists s'. split; [| split; [exact Hc | split; [exact Hct |]]].
  - unfold make_root, bind, get_config, alloc, set_leaves, new_planner. simpl.
    rewrite HL. unfold ret at 1. simpl. rewrite Hlazy. rewrite Hrun. reflexivity.
  - destruct (Hpp 0%nat (new_node None c) eq_refl) as (n' & Hn' & Hp).
    exists n'. split; [exact Hn' |]. now rewrite Hp, new_node_parent.
Qed.

Lemma ancestor_functional_root (h : list OLOPNode) (d d' id r r' : nat) :
  ancestor h d id = Some r -> is_root h r ->
  ancestor h d' id = Some r' -> is_root h r' -> d = d'.
Proof.
  revert d' id. induction d as [| d IH]; intros d' id Ha Hr Ha' Hr'.
  - simpl in Ha. destruct (h !! id) as [n |] eqn:Hn; [| discriminate].
    injection Ha as <-. destruct Hr as (m & Hm & Hp).
    destruct d' as [| d']; [reflexivity |]. simpl in Ha'.
    rewrite Hn in Ha', Hm. injection Hm as <-. now rewrite Hp in Ha'.
  - simpl in Ha. destruct (h !! id) as [n |] eqn:Hn; [| discriminate].
    destruct (parent n) as [p |] eqn:Hp; [| discriminate].
    destruct d' as [| d'].
    + simpl in Ha'. rewrite Hn in Ha'. injection Ha' as <-.
      destruct Hr' as (m & Hm & Hpm). rewrite Hn in Hm. injection Hm as <-. congruence.
    + simpl in Ha'. rewrite Hn, Hp in Ha'. f_equal. eapply IH; eassumption.
Qed.

(** A node has at most one depth. *)
Lemma at_depth_unique (h : list OLOPNode) (id d d' : nat) :
  at_depth h id d -> at_depth h id d' -> d = d'.
Proof.
  intros (r & Ha & Hr) (r' & Ha' & Hr'). eapply ancestor_functional_root; eassumption.
Qed.

(** ** Planning without an episode count *)

Lemma plan_needs_episodes `{Collaborators} (s : OLOP) (state : env) :
  cfg_episodes (config_of s) = None -> plan state s = (Raise KeyError, s).
Proof.
  intros He. unfold plan, config_episodes, bind, get_config. now rewrite He.
Qed.

Lemma make_root_keeps_config (c : config) (n L : Z) :
  cfg_horizon c = Some L ->
  exists r s', make_root n (new_planner c) = (Ok r, s') /\ config_of s' = c.
Proof.
  intros HL. destruct (cfg_lazy_tree_construction c) eqn:Hlazy.
  - eexists _, _. split.
    + unfold make_root, bind, get_config, alloc, set_leaves, new_planner. simpl.
      rewrite HL. unfold ret at 1. simpl. rewrite Hlazy. reflexivity.
    + reflexivity.
  - destruct (make_root_prebuilt c n L Hlazy HL) as (s' & Hrun & Hc & _).
    eauto.
Qed.

(** C10: [episodes] is written by [allocate_budget] alone, which [make_root]
    skips when a horizon is configured; a configuration with a horizon and
    no episode count builds its planner, and [plan] then raises the lookup
    error, leaving the planner as it was, so every later call does too. *)
Theorem plan_without_episodes `{Collaborators} (c : config) (n L : Z) (state : env) :
  cfg_horizon c = Some L -> cfg_episodes c = None ->
  exists s',
    reset n (new_planner c) = (Ok tt, s') /\
    cfg_episodes (config_of s') = None /\
    plan state s' = (Raise KeyError, s').
Proof.
  intros HL He.
  destruct (make_root_keeps_config c n L HL) as (r & s1 & Hrun & Hc).
  exists (mkOLOP (config_of s1) (heap s1) (Some r) (leaves s1)).
  split; [| split].
  - unfold reset, bind. rewrite Hrun. reflexivity.
  - simpl. now rewrite Hc.
  - apply plan_needs_episodes. simpl. now rewrite Hc.
Qed.

Lemma plan_without_episodes_witness :
  exists s',
    reset 2 (new_planner (demo_config 10 (1 / 2) None (Some 2))) = (Ok tt, s') /\
    cfg_episodes (config_of s') = None /\
    @plan demo_collaborators tt s' = (Raise KeyError, s').
Proof.
  apply (@plan_without_episodes demo_collaborators
           (demo_config 10 (1 / 2) None (Some 2)) 2 2 tt); reflexivity.
Defined.

(** ** The first value pass *)

Lemma eadd_comm (x y : ext) : eadd x y = eadd y x.
Proof. destruct x, y; simpl; try reflexivity. f_equal. apply Rplus_comm. Qed.

Lemma eadd_assoc (x y z : ext) : eadd x (eadd y z) = eadd (eadd x y) z.
Proof. destruct x, y, z; simpl; try reflexivity. f_equal. symmetry. apply Rplus_assoc. Qed.

Lemma eadd_0_r (x : ext) : eadd x (Fin 0) = x.
Proof. destruct x; simpl; [f_equal; apply Rplus_0_r | reflexivity]. Qed.

Lemma esum_snoc (l : list ext) (x : ext) : esum (l ++ [x]) = eadd (esum l) x.
Proof.
  induction l as [| y l IH].
  - unfold esum. simpl. apply eadd_comm.
  - change (esum ((y :: l) ++ [x])) with (eadd y (esum (l ++ [x]))).
    rewrite IH. apply eadd_assoc.
Qed.

Lemma with_value_twice (v v' : ext) (n : OLOPNode) :
  with_value v (with_value v' n) = with_value v n.
Proof. reflexivity. Qed.

(** While the loop runs, only the [value] of [node] differs from the heap
    [h0] it started on. *)
Lemma compute_u_loop_run (gamma : R) (h0 : list OLOPNode) (node : nat)
    (n0 : OLOPNode) (c : config) (r : option nat) (l : list nat) :
  h0 !! node = Some n0 ->
  forall (t : nat) (node_t : option nat) (v : ext),
  climbs h0 node_t t ->
  compute_u_loop gamma node node_t t
    (mkOLOP c (<[node := with_value v n0]> h0) r l) =
  (Ok tt, mkOLOP c (<[node := with_value (u_acc gamma h0 node_t t v) n0]> h0) r l).
Proof.
  intros Hn0. pose proof (lookup_lt_Some _ _ _ Hn0) as Hlt.
  induction t as [| t IH]; intros node_t v Hclimb.
  - reflexivity.
  - destruct Hclimb as (i & n & -> & Hi & Hclimb).
    assert (Hread : exists m, <[node := with_value v n0]> h0 !! i = Some m /\
                      mu_ucb m = mu_ucb n /\ parent m = parent n).
    { destruct (decide (i = node)) as [-> | Hne].
      - rewrite list_lookup_insert_eq by assumption.
        rewrite Hn0 in Hi. injection Hi as <-. eauto.
      - rewrite list_lookup_insert_ne by congruence. eauto. }
    destruct Hread as (m & Hm & Hmu & Hpar).
    cbn [compute_u_loop u_acc]. rewrite Hi.
    unfold bind at 1. unfold get_node at 1. cbn [heap]. rewrite Hm.
    unfold bind at 1. unfold get_node at 1. cbn [heap].
    rewrite list_lookup_insert_eq by assumption.
    unfold bind at 1. unfold put_node. cbn [heap config_of root leaves].
    rewrite list_insert_insert_eq. cbn [value with_value].
    rewrite with_value_twice.
    assert (Hread' : exists m',
              <[node := with_value (eadd v (escale (gamma ^ S t) (mu_ucb m))) n0]> h0 !! i
                = Some m' /\ parent m' = parent n).
    { destruct (decide (i = node)) as [-> | Hne].
      - rewrite list_lookup_insert_eq by assumption.
        rewrite Hn0 in Hi. injection Hi as <-. eauto.
      - rewrite list_lookup_insert_ne by congruence. eauto. }
    destruct Hread' as (m' & Hm' & Hpar').
    unfold bind at 1. unfold get_node at 1. cbn [heap]. rewrite Hm'.
    rewrite Hpar', Hmu. apply IH. exact Hclimb.
Qed.

Lemma ancestor_climbs (h : list OLOPNode) (d i r : nat) :
  ancestor h d i = Some r -> climbs h (Some i) d.
Proof.
  revert i. induction d as [| d IH]; intros i Ha; simpl; [exact I |].
  simpl in Ha. destruct (h !! i) as [n |] eqn:Hn; [| discriminate].
  destruct (parent n) as [p |] eqn:Hp; [| discriminate].
  exists i, n. rewrite Hp. auto.
Qed.

(** The loop's running total is the discounted sum of the spec, whatever the
    order of the additions. *)
Lemma u_acc_sum (gamma : R) (h : list OLOPNode) :
  forall (t i : nat) (v : ext),
  climbs h (Some i) t ->
  u_acc gamma h (Some i) t v =
  eadd v (esum (map (fun t' => escale (gamma ^ t') (mu_ucb_at h (ancestor h (t - t') i)))
                    (seq 1 t))).
Proof.
  induction t as [| t IH]; intros i v Hclimb.
  - simpl. now rewrite eadd_0_r.
  - destruct Hclimb as (i' & n & [= <-] & Hn & Hclimb).
    cbn [u_acc]. rewrite Hn.
    rewrite seq_S, map_app. cbn [map Nat.add]. rewrite esum_snoc.
    rewrite Nat.sub_diag. cbn [ancestor]. rewrite Hn. cbn [mu_ucb_at]. rewrite Hn.
    destruct t as [| t0].
    + simpl. unfold esum. simpl. f_equal. destruct (escale _ _); simpl; [| reflexivity].
      f_equal. lra.
    + destruct Hclimb as (p & np & Hp & Hnp & Hclimb).
      rewrite Hp. rewrite IH by (exists p, np; auto).
      assert (Hmap :
        map (fun t' => escale (gamma ^ t') (mu_ucb_at h (ancestor h (S (S t0) - t') i)))
            (seq 1 (S t0)) =
        map (fun t' => escale (gamma ^ t') (mu_ucb_at h (ancestor h (S t0 - t') p)))
            (seq 1 (S t0))).
      { apply map_ext_in. intros t' Ht'. apply in_seq in Ht'.
        replace (S (S t0) - t')%nat with (S (S t0 - t')) by lia.
        cbn [ancestor]. rewrite Hn, Hp. reflexivity. }
      rewrite Hmap.
      rewrite <- !eadd_assoc. f_equal. apply eadd_comm.
Qed.

(** A call of [compute_u_values] on a node whose depth is the length of the
    path stores the node's [U_spec] and changes nothing else. *)
Lemma compute_u_values_run (s : OLOP) (node : nat) (path : list Z) (n : OLOPNode) :
  heap s !! node = Some n ->
  at_depth (heap s) node (length path) ->
  compute_u_values node path s =
  (Ok (path, U_spec (cfg_gamma (config_of s)) (heap s) node (length path) (done n)),
   mkOLOP (config_of s)
     (<[node := with_value
                  (U_spec (cfg_gamma (config_of s)) (heap s) node (length path) (done n))
                  n]> (heap s))
     (root s) (leaves s)).
Proof.
  intros Hn (r & Hanc & _).
  pose proof (lookup_lt_Some _ _ _ Hn) as Hlt.
  pose proof (ancestor_climbs _ _ _ _ Hanc) as Hclimb.
  unfold compute_u_values.
  unfold bind at 1. unfold get_config.
  unfold bind at 1. unfold get_node at 1. rewrite Hn.
  unfold bind at 1. unfold put_node. cbn [heap config_of root leaves].
  unfold bind at 1.
  rewrite (compute_u_loop_run _ (heap s) node n _ _ _ Hn _ _ _ Hclimb).
  unfold bind at 1. unfold get_node. cbn [heap].
  rewrite list_lookup_insert_eq by assumption.
  cbn [value with_value]. unfold ret.
  rewrite u_acc_sum by assumption.
  assert (HU : eadd (if negb (done n)
                     then Fin (cfg_gamma (config_of s) ^ (length path + 1) /
                               (1 - cfg_gamma (config_of s)))
                     else Fin 0)
                 (esum (map (fun t' => escale (cfg_gamma (config_of s) ^ t')
                          (mu_ucb_at (heap s) (ancestor (heap s) (length path - t') node)))
                          (seq 1 (length path)))) =
               U_spec (cfg_gamma (config_of s)) (heap s) node (length path) (done n)).
  { unfold U_spec, tail_term. rewrite eadd_comm. now destruct (done n). }
  rewrite HU. reflexivity.
Qed.

(** On the sample tree the child's bound is [1/2 * 3/4 + (1/2)^2 / (1 - 1/2)]. *)
Example U_spec_sample :
  U_spec (1 / 2) [sample_root; sample_child] 1 1 false = Fin (7 / 8).
Proof.
  unfold U_spec, tail_term, esum. simpl. f_equal. lra.
Qed.

(** ** Leaf sharpening *)

Lemma ele_refl (x : ext) : ele x x.
Proof. unfold ele. destruct x; simpl; [lra | tauto]. Qed.

Lemma ele_trans (x y z : ext) : ele x y -> ele y z -> ele x z.
Proof. unfold ele. destruct x, y, z; simpl; try tauto; lra. Qed.

Lemma elt_ele (x y : ext) : elt x y -> ele x y.
Proof. unfold ele. destruct x, y; simpl; try tauto; lra. Qed.

Lemma emin_cases (x y : ext) : emin x y = x \/ emin x y = y.
Proof. unfold emin. destruct (elt_dec y x); auto. Qed.

Lemma emin_le_l (x y : ext) : ele (emin x y) x.
Proof.
  unfold emin. destruct (elt_dec y x) as [Hlt | _]; [now apply elt_ele | apply ele_refl].
Qed.

Lemma emin_le_r (x y : ext) : ele (emin x y) y.
Proof.
  unfold emin. destruct (elt_dec y x) as [_ | Hge]; [apply ele_refl | exact Hge].
Qed.

(** Folding [min] over a list yields a least element of it. *)
Lemma fold_emin_least (l : list ext) (m : ext) :
  is_min_of (fold_left emin l m) (m :: l).
Proof.
  revert m. induction l as [| x l IH]; intros m; simpl.
  - split; [now left |]. intros v Hv. apply list_elem_of_singleton in Hv as ->.
    apply ele_refl.
  - destruct (IH (emin m x)) as [Hin Hle]. split.
    + apply elem_of_cons in Hin as [-> | Hin].
      * destruct (emin_cases m x) as [-> | ->]; [now left | right; now left].
      * right. now right.
    + intros v Hv.
      assert (Hm : ele (fold_left emin l (emin m x)) (emin m x)) by (apply Hle; now left).
      apply elem_of_cons in Hv as [-> | Hv].
      * eapply ele_trans; [exact Hm | apply emin_le_l].
      * apply elem_of_cons in Hv as [-> | Hv].
        -- eapply ele_trans; [exact Hm | apply emin_le_r].
        -- apply Hle. now right.
Qed.

Lemma chain_fuel (h : list OLOPNode) :
  parents_below h ->
  forall (f1 f2 id : nat), (id < f1)%nat -> (id < f2)%nat -> chain f1 h id = chain f2 h id.
Proof.
  intros Hpb. induction f1 as [| f1 IH]; intros f2 id H1 H2; [lia |].
  destruct f2 as [| f2]; [lia |]. simpl.
  destruct (h !! id) as [n |] eqn:Hn; [| reflexivity].
  destruct (parent n) as [p |] eqn:Hp; [| reflexivity].
  pose proof (Hpb _ _ _ Hn Hp). f_equal. apply IH; lia.
Qed.

(** The loop of [sharpen_b_values] folds [min] over the values of the nodes
    of the chain that have a parent: the root is never looked at. *)
Lemma sharpen_loop_run (h : list OLOPNode) :
  parents_below h ->
  forall (fuel id : nat) (node_t : OLOPNode) (min_value : ext),
  (id <= fuel)%nat -> h !! id = Some node_t ->
  sharpen_loop fuel h node_t min_value =
  Ok (fold_left emin
        (map (value_at h) (filter (fun i => has_parent h i = true) (chain (S id) h id)))
        min_value).
Proof.
  intros Hpb. induction fuel as [| fuel IH]; intros id node_t min_value Hfuel Hid.
  - assert (id = 0)%nat as -> by lia. simpl. rewrite Hid.
    destruct (parent node_t) as [p |] eqn:Hp.
    + pose proof (Hpb _ _ _ Hid Hp). lia.
    + rewrite filter_cons_False; [reflexivity |].
      unfold has_parent. rewrite Hid, Hp. discriminate.
  - cbn [sharpen_loop chain]. rewrite Hid.
    destruct (parent node_t) as [p |] eqn:Hp.
    + pose proof (Hpb _ _ _ Hid Hp) as Hlt.
      assert (Hp' : exists node_p, h !! p = Some node_p).
      { apply lookup_lt_is_Some. pose proof (lookup_lt_Some _ _ _ Hid). lia. }
      destruct Hp' as (node_p & Hnp). rewrite Hnp.
      rewrite filter_cons_True by (unfold has_parent; now rewrite Hid, Hp).
      cbn [map fold_left]. unfold value_at at 2. rewrite Hid.
      rewrite (IH p node_p) by (assumption || lia).
      rewrite (chain_fuel h Hpb id (S p) p) by lia. reflexivity.
    + rewrite filter_cons_False; [reflexivity |].
      unfold has_parent. rewrite Hid, Hp. discriminate.
Qed.

(** C3 (amended): under the kullback-leibler oracle the sharpened score is
    the leaf's own U-value; under any other oracle it is the minimum of the
    U-values of the leaf and of its ancestors other than the root; in both
    cases it is at most the leaf's own U-value. *)
Theorem sharpen_b_values_spec (s : OLOP) (node : nat) (n : OLOPNode) :
  parents_below (heap s) ->
  heap s !! node = Some n ->
  exists b,
    sharpen_b_values node s = (Ok b, s) /\
    (cfg_upper_bound (config_of s) = "kullback-leibler" -> b = value n) /\
    (cfg_upper_bound (config_of s) <> "kullback-leibler" ->
     is_min_of b
       (value n ::
        map (value_at (heap s))
            (filter (fun i => has_parent (heap s) i = true)
                    (chain (S node) (heap s) node)))) /\
    ele b (value n).
Proof.
  intros Hpb Hn. pose proof (lookup_lt_Some _ _ _ Hn) as Hlt.
  unfold sharpen_b_values, bind, get_config, get_node. rewrite Hn.
  destruct (String.eqb_spec (cfg_upper_bound (config_of s)) "kullback-leibler")
    as [Hkl | Hkl].
  - exists (value n). unfold ret. split; [reflexivity |].
    split; [reflexivity |]. split; [congruence | apply ele_refl].
  - rewrite (sharpen_loop_run (heap s) Hpb (length (heap s)) node n (value n))
      by (assumption || lia).
    eexists. split; [reflexivity |]. split; [congruence |].
    pose proof (fold_emin_least
                  (map (value_at (heap s))
                     (filter (fun i => has_parent (heap s) i = true)
                        (chain (S node) (heap s) node)))
                  (value n)) as Hmin.
    split; [intros _; exact Hmin |].
    apply Hmin. now left.
Qed.

(** Evaluation of the planner on a concrete state, leaving real-number
    expressions as they are. *)
Ltac run_planner :=
  cbv -[Rdiv Rplus Rmult Rminus Rinv Ropp IZR pow Rlt_dec Rle_dec Rlt Rle].

Lemma parents_below_scored : parents_below (heap scored_tree).
Proof.
  intros id n p Hn Hp. destruct id as [| [| id]]; simpl in Hn.
  - injection Hn as <-. discriminate.
  - injection Hn as <-. injection Hp as <-. lia.
  - discriminate.
Qed.

Lemma sharpen_b_values_spec_witness :
  exists b,
    sharpen_b_values 1 scored_tree = (Ok b, scored_tree) /\
    (cfg_upper_bound (config_of scored_tree) = "kullback-leibler" -> b = PInf) /\
    (cfg_upper_bound (config_of scored_tree) <> "kullback-leibler" ->
     is_min_of b
       (PInf ::
        map (value_at (heap scored_tree))
            (filter (fun i => has_parent (heap scored_tree) i = true)
                    (chain 2 (heap scored_tree) 1)))) /\
    ele b PInf.
Proof.
  apply (sharpen_b_values_spec scored_tree 1
           (mkNode (Some 0%nat) [] 0 0%R PInf false PInf)).
  - apply parents_below_scored.
  - reflexivity.
Defined.

(** C3 as stated fails: in a freshly prebuilt Hoeffding tree the leaf scores
    [+oo] after sharpening, although the root, one of its ancestors, has the
    finite U-value [gamma / (1 - gamma)]: the root takes no part in the
    minimum. *)
Lemma sharpen_b_values_root_counterexample :
  reset 1 (new_planner (demo_config 10 (1 / 2) (Some 5) (Some 1))) = (Ok tt, fresh_tree) /\
  first_pass 0 fresh_tree = (Ok tt, scored_tree) /\
  leaves scored_tree = [1%nat] /\
  chain 2 (heap scored_tree) 1 = [1%nat; 0%nat] /\
  sharpen_b_values 1 scored_tree = (Ok PInf, scored_tree) /\
  ~ is_min_of PInf (map (value_at (heap scored_tree)) (chain 2 (heap scored_tree) 1)).
Proof.
  split; [run_planner; reflexivity |].
  split; [run_planner; reflexivity |].
  split; [reflexivity |].
  split; [reflexivity |].
  split; [run_planner; reflexivity |].
  intros [_ Hle].
  apply (Hle (Fin ((1 / 2) ^ 1 / (1 - 1 / 2)))).
  - simpl. right. left.
  - exact I.
Qed.

(** ** The rollout *)

(** C5 fails on the code: when the attempted action is not a key of the
    node's children the rollout raises [TypeError] instead of moving on to
    the first available child.  Here the very first episode of a lazily
    built planner pads its sequence with action 0, which the environment
    does not offer. *)
Theorem rollout_missing_action_raises :
  reset 3 (new_planner (lazy_config 10 (1 / 2) (Some 5) (Some 2))) = (Ok tt, lazy_fresh) /\
  @execute_sequence demo_collaborators [0; 0] 0 tt lazy_fresh =
    (Raise TypeError, lazy_expanded (Fin 0)) /\
  @run demo_collaborators tt lazy_fresh =
    (Raise TypeError, lazy_expanded (Fin ((1 / 2) ^ 1 / (1 - 1 / 2)))) /\
  fst (@plan demo_collaborators tt lazy_fresh) = Raise TypeError.
Proof.
  split; [run_planner; reflexivity |].
  split; [run_planner; reflexivity |].
  split; run_planner; reflexivity.
Qed.

(** ** Expansion *)

Lemma node_frame_refl (ch : nat) (s : OLOP) : node_frame ch s s.
Proof. repeat split; eauto. Qed.

Lemma node_frame_trans (ch : nat) (s1 s2 s3 : OLOP) :
  node_frame ch s1 s2 -> node_frame ch s2 s3 -> node_frame ch s1 s3.
Proof.
  intros (Hc & Hr & Hl & Hlen & Hother & Hch) (Hc' & Hr' & Hl' & Hlen' & Hother' & Hch').
  repeat split; try congruence.
  - intros id Hne. rewrite Hother', Hother by assumption. reflexivity.
  - intros m Hm. destruct (Hch m Hm) as (m1 & Hm1 & Hp1 & Hk1).
    destruct (Hch' m1 Hm1) as (m2 & Hm2 & Hp2 & Hk2).
    exists m2. repeat split; congruence.
Qed.

Lemma frames_ret {A} (ch : nat) (a : A) : frames ch (ret a).
Proof. intros s a' s' [= _ <-]. apply node_frame_refl. Qed.

Lemma frames_bind {A B} (ch : nat) (m : M A) (k : A -> M B) :
  frames ch m -> (forall a, frames ch (k a)) -> frames ch (bind m k).
Proof.
  intros Hm Hk s b s' Hrun. unfold bind in Hrun.
  destruct (m s) as [[a | e] s1] eqn:Hms; [| discriminate].
  eapply node_frame_trans; [eapply Hm | eapply Hk]; eassumption.
Qed.

Lemma frames_get_config (ch : nat) : frames ch get_config.
Proof. intros s a s' [= _ <-]. apply node_frame_refl. Qed.

Lemma frames_config_episodes (ch : nat) : frames ch config_episodes.
Proof.
  intros s a s'. unfold config_episodes, bind, get_config, ret, raise.
  destruct (cfg_episodes (config_of s)); intros [= _ <-]. apply node_frame_refl.
Qed.

Lemma frames_modify_node (ch : nat) (f : OLOPNode -> OLOPNode) :
  (forall n, parent (f n) = parent n /\ children (f n) = children n) ->
  frames ch (modify_node ch f).
Proof.
  intros Hf s a s'. unfold modify_node, bind, get_node, put_node.
  destruct (heap s !! ch) as [n |] eqn:Hn; [| discriminate].
  intros [= _ <-]. pose proof (lookup_lt_Some _ _ _ Hn) as Hlt.
  repeat split; simpl.
  - apply length_insert.
  - intros id Hne. now apply list_lookup_insert_ne.
  - intros m Hm. rewrite Hn in Hm. injection Hm as <-.
    exists (f n). split; [now apply list_lookup_insert_eq | apply Hf].
Qed.

Lemma update_frames `{Collaborators} (ch : nat) (reward : R) (done_ : bool) :
  frames ch (update ch reward done_).
Proof.
  unfold update.
  destruct (Rle_dec 0 reward); [| intros s a s'; discriminate].
  destruct (Rle_dec reward 1); [| intros s a s'; discriminate].
  repeat first
    [ apply frames_modify_node; intros ?; split; reflexivity
    | apply frames_get_config
    | apply frames_config_episodes
    | apply frames_ret
    | match goal with |- frames _ (if ?b then _ else _) => destruct b end
    | apply frames_bind; [| intros ?] ].
Qed.

Lemma dict_get_set (k : Z) (v : nat) (d : list (Z * nat)) :
  dict_get k (dict_set k v d) = Some v.
Proof.
  induction d as [| [k' v'] d IH]; simpl.
  - now rewrite Z.eqb_refl.
  - destruct (Z.eqb_spec k' k) as [-> | Hne]; simpl.
    + now rewrite Z.eqb_refl.
    + destruct (Z.eqb_spec k' k); [contradiction | exact IH].
Qed.

(** The optional sampling of a fresh child touches that child alone. *)
Lemma sample_child_frames `{Collaborators} (self : nat) (state : env) (uc : bool)
    (action : Z) (child : nat) (s s' : OLOP) (n : OLOPNode) :
  heap s !! self = Some n -> dict_get action (children n) = Some child ->
  (if uc then
     let '(_, reward, done_) := env_step state action in
     n <- get_node self ;;
     match dict_get action (children n) with
     | Some ch => update ch reward done_
     | None => raise KeyError
     end
   else ret tt) s = (Ok tt, s') ->
  node_frame child s s'.
Proof.
  intros Hn Hget Hrun. destruct uc.
  - destruct (env_step state action) as [[state' reward] done_].
    unfold bind, get_node in Hrun. rewrite Hn, Hget in Hrun.
    eapply update_frames; eassumption.
  - injection Hrun as <-. apply node_frame_refl.
Qed.

Lemma expand_loop_spec `{Collaborators} (self : nat) (state : env) (uc : bool) :
  forall (actions : list Z) (s s' : OLOP) (n : OLOPNode),
  heap s !! self = Some n ->
  expand_loop self state uc actions s = (Ok tt, s') ->
  config_of s' = config_of s /\ root s' = root s /\ leaves s' = leaves s /\
  length (heap s') = (length (heap s) + length actions)%nat /\
  (exists n', heap s' !! self = Some n' /\ parent n' = parent n /\
     children n' = dict_set_all actions (length (heap s)) (children n)) /\
  (forall id, id <> self -> (id < length (heap s))%nat ->
     heap s' !! id = heap s !! id) /\
  (forall id, (length (heap s) <= id < length (heap s) + length actions)%nat ->
     exists m, heap s' !! id = Some m /\ parent m = Some self /\ children m = []).
Proof.
  induction actions as [| a rest IH]; intros s s' n Hn Hrun.
  - injection Hrun as <-. simpl. rewrite Nat.add_0_r.
    do 4 (split; [reflexivity |]). split; [eauto |]. split; [auto |].
    intros id Hid. lia.
  - pose proof (lookup_lt_Some _ _ _ Hn) as Hlt.
    cbn [expand_loop] in Hrun.
    set (len := length (heap s)) in *.
    set (n1 := with_children (dict_set a len (children n)) n).
    set (s2 := mkOLOP (config_of s)
                 (<[self := n1]> (heap s ++ [new_node (Some self) (config_of s)]))
                 (root s) (leaves s)).
    assert (Hself2 : heap s2 !! self = Some n1).
    { simpl. apply list_lookup_insert_eq. rewrite length_app. simpl. lia. }
    unfold bind at 1 in Hrun. unfold get_config in Hrun.
    unfold bind at 1 in Hrun. unfold alloc in Hrun.
    unfold bind at 1 in Hrun. unfold get_node at 1 in Hrun. cbn [heap] in Hrun.
    rewrite lookup_app_l in Hrun by assumption. rewrite Hn in Hrun.
    unfold bind at 1 in Hrun. unfold put_node in Hrun.
    cbn [heap config_of root leaves] in Hrun. fold len in Hrun. fold n1 in Hrun.
    fold s2 in Hrun.
    unfold bind at 1 in Hrun.
    match type of Hrun with
    | match ?m s2 with _ => _ end = _ => destruct (m s2) as [[[] | e] s3] eqn:Hsample
    end; [| discriminate].
    apply (sample_child_frames self state uc a len s2 s3 n1 Hself2) in Hsample;
      [| apply dict_get_set].
    destruct Hsample as (Hc3 & Hr3 & Hl3 & Hlen3 & Hother3 & Hch3).
    change (config_of s2) with (config_of s) in Hc3.
    change (root s2) with (root s) in Hr3.
    change (leaves s2) with (leaves s) in Hl3.
    assert (Hlen2 : length (heap s2) = S len).
    { simpl. rewrite length_insert, length_app. simpl. lia. }
    assert (Hself3 : heap s3 !! self = Some n1).
    { rewrite Hother3 by lia. exact Hself2. }
    destruct (IH s3 s' n1 Hself3 Hrun)
      as (Hc & Hr & Hl & Hlen' & (n' & Hn' & Hp' & Hk') & Hother & Hnew).
    split; [congruence |]. split; [congruence |]. split; [congruence |].
    split; [rewrite Hlen', Hlen3, Hlen2; simpl; lia |].
    split; [| split].
    + exists n'. split; [exact Hn' |]. split; [exact Hp' |].
      rewrite Hk', Hlen3, Hlen2. reflexivity.
    + intros id Hne Hid. rewrite Hother by (rewrite ?Hlen3, ?Hlen2; lia || assumption).
      rewrite Hother3 by lia. simpl.
      rewrite list_lookup_insert_ne by congruence.
      now rewrite lookup_app_l.
    + intros id Hid. simpl in Hid.
      destruct (decide (id = len)) as [-> | Hne].
      * rewrite Hother by (rewrite ?Hlen3, ?Hlen2; lia).
        destruct (Hch3 (new_node (Some self) (config_of s))) as (m' & Hm' & Hpm & Hkm).
        { simpl. rewrite list_lookup_insert_ne by lia.
          rewrite lookup_app_r by lia. fold len. now rewrite Nat.sub_diag. }
        exists m'. split; [exact Hm' |].
        rewrite Hpm, Hkm, new_node_parent, new_node_children. auto.
      * apply Hnew. rewrite Hlen3, Hlen2. lia.
Qed.

Lemma expand_loop_false_ok `{Collaborators} (self : nat) (state : env) :
  forall (actions : list Z) (s : OLOP) (n : OLOPNode),
  heap s !! self = Some n ->
  exists s', expand_loop self state false actions s = (Ok tt, s').
Proof.
  induction actions as [| a rest IH]; intros s n Hn.
  - eexists. reflexivity.
  - pose proof (lookup_lt_Some _ _ _ Hn) as Hlt.
    cbn [expand_loop].
    unfold bind at 1. unfold get_config.
    unfold bind at 1. unfold alloc.
    unfold bind at 1. unfold get_node at 1. cbn [heap].
    rewrite lookup_app_l by assumption. rewrite Hn.
    unfold bind at 1. unfold put_node. cbn [heap config_of root leaves].
    unfold bind at 1. unfold ret at 1.
    eapply IH. cbn [heap]. apply list_lookup_insert_eq.
    rewrite length_app. simpl. lia.
Qed.

Lemma filter_ne_id (x : nat) (l : list nat) :
  x ∉ l -> filter (fun y => y <> x) l = l.
Proof.
  induction l as [| y l IH]; intros Hx; [reflexivity |].
  apply not_elem_of_cons in Hx as [Hne Hx].
  rewrite filter_cons_True by congruence. now rewrite IH.
Qed.

Lemma list_remove_NoDup (x : nat) (l : list nat) :
  NoDup l -> x ∈ l -> list_remove x l = Some (filter (fun y => y <> x) l).
Proof.
  induction l as [| y l IH]; intros Hnd Hx; [now apply elem_of_nil in Hx |].
  apply NoDup_cons in Hnd as [Hy Hnd]. simpl.
  destruct (Nat.eqb_spec y x) as [-> | Hne].
  - rewrite filter_cons_False by (intros Hc; now apply Hc).
    now rewrite filter_ne_id.
  - apply elem_of_cons in Hx as [-> | Hx]; [contradiction |].
    rewrite IH by assumption. now rewrite filter_cons_True by assumption.
Qed.

Lemma reachable_in_heap (h : list OLOPNode) (r id : nat) :
  reachable h r id -> exists n, h !! id = Some n.
Proof. intros [n Hn | p n a c m _ _ _ Hm]; eauto. Qed.

Lemma reachable_root_in_heap (h : list OLOPNode) (r id : nat) :
  reachable h r id -> exists n, h !! r = Some n.
Proof. induction 1; eauto. Qed.

(** Reachability survives any step that keeps the nodes and their
    children. *)
Lemma reachable_mono (h h' : list OLOPNode) (r id : nat) :
  (forall p n, h !! p = Some n ->
     exists n', h' !! p = Some n' /\ forall kv, kv ∈ children n -> kv ∈ children n') ->
  reachable h r id -> reachable h' r id.
Proof.
  intros Hgrow. induction 1 as [n Hn | p n a c m _ IH Hp Hin Hm].
  - destruct (Hgrow _ _ Hn) as (n' & Hn' & _). eapply reach_root; eassumption.
  - destruct (Hgrow _ _ Hp) as (n' & Hn' & Hsub).
    destruct (Hgrow _ _ Hm) as (m' & Hm' & _).
    eapply reach_child; [exact IH | exact Hn' | apply Hsub; exact Hin | exact Hm'].
Qed.

Lemma elem_of_zip_seq (actions : list Z) (start : nat) (a : Z) (c : nat) :
  (a, c) ∈ zip actions (seq start (length actions)) ->
  (start <= c < start + length actions)%nat.
Proof.
  intros Hin. apply elem_of_zip_r in Hin. apply elem_of_seq in Hin. lia.
Qed.

Lemma zip_partner (l : list Z) (k : list nat) (y : nat) :
  length l = length k -> y ∈ k -> exists x, (x, y) ∈ zip l k.
Proof.
  revert k. induction l as [| x l IH]; intros [| y' k] Hlen Hy;
    try discriminate; [now apply elem_of_nil in Hy |].
  apply elem_of_cons in Hy as [-> | Hy].
  - exists x. now left.
  - destruct (IH k) as (x' & Hx'); [simpl in Hlen; lia | exact Hy |].
    exists x'. now right.
Qed.

(** What a completed [expand] of a childless frontier node leaves behind. *)
Lemma expand_effect `{Collaborators} (s s' : OLOP) (self : nat) (state : env)
    (uc : bool) (n : OLOPNode) :
  heap s !! self = Some n -> children n = [] ->
  NoDup (leaves s) -> self ∈ leaves s -> NoDup (available_actions state) ->
  expand self (Some state) uc s = (Ok tt, s') ->
  config_of s' = config_of s /\ root s' = root s /\
  leaves s' = filter (fun y => y <> self) (leaves s) ++
              seq (length (heap s)) (length (available_actions state)) /\
  length (heap s') = (length (heap s) + length (available_actions state))%nat /\
  (exists n', heap s' !! self = Some n' /\ parent n' = parent n /\
     children n' = zip (available_actions state)
                       (seq (length (heap s)) (length (available_actions state)))) /\
  (forall id, id <> self -> (id < length (heap s))%nat ->
     heap s' !! id = heap s !! id) /\
  (forall id, id ∈ seq (length (heap s)) (length (available_actions state)) ->
     exists m, heap s' !! id = Some m /\ parent m = Some self /\ children m = []).
Proof.
  intros Hn Hch Hnd Hin Hact Hrun.
  unfold expand in Hrun. unfold bind at 1 in Hrun.
  destruct (expand_loop self state uc (available_actions state) s)
    as [[[] | e] s1] eqn:Hloop; [| discriminate].
  destruct (expand_loop_spec self state uc _ s s1 n Hn Hloop)
    as (Hc & Hr & Hl & Hlen & (n' & Hn' & Hp' & Hk') & Hother & Hnew).
  rewrite Hch, dict_set_all_fresh in Hk';
    [| assumption | intros a _; apply not_elem_of_nil].
  cbn [app] in Hk'.
  unfold bind at 1 in Hrun. unfold get_leaves at 1 in Hrun.
  rewrite Hl, (list_remove_NoDup self (leaves s) Hnd Hin) in Hrun.
  unfold bind at 1 in Hrun. unfold set_leaves at 1 in Hrun.
  unfold bind at 1 in Hrun. unfold get_node in Hrun. cbn [heap] in Hrun.
  rewrite Hn' in Hrun.
  unfold bind, get_leaves, set_leaves in Hrun. cbn in Hrun.
  injection Hrun as <-. cbn [config_of root leaves heap].
  rewrite Hk', dict_values_zip by (now rewrite length_seq).
  split; [exact Hc |]. split; [exact Hr |]. split; [reflexivity |].
  split; [exact Hlen |]. split; [eauto |]. split; [exact Hother |].
  intros id Hid. apply Hnew. apply elem_of_seq in Hid. lia.
Qed.

(** C7 (amended): expanding a frontier node with [n] distinct actions gives
    it exactly [n] children, one per action, all fresh and childless; the
    node leaves the leaf list, the [n] children are appended to it, and no
    other node changes.  When [n >= 1] the frontier invariant holds again
    afterwards.  The call made by the rollout ([update_children = False])
    always completes. *)
Theorem expand_frontier `{Collaborators} (s : OLOP) (self : nat) (state : env) :
  frontier_inv s -> children_in_heap (heap s) ->
  self ∈ leaves s -> NoDup (available_actions state) ->
  (exists s', expand self (Some state) false s = (Ok tt, s')) /\
  forall (update_children : bool) (s' : OLOP),
    expand self (Some state) update_children s = (Ok tt, s') ->
    (exists n', heap s' !! self = Some n' /\
       dict_keys (children n') = available_actions state /\
       dict_values (children n') =
         seq (length (heap s)) (length (available_actions state)) /\
       length (children n') = length (available_actions state)) /\
    (forall id, id ∈ seq (length (heap s)) (length (available_actions state)) ->
       exists m, heap s' !! id = Some m /\ parent m = Some self /\ children m = []) /\
    leaves s' = filter (fun y => y <> self) (leaves s) ++
                seq (length (heap s)) (length (available_actions state)) /\
    (forall id, id <> self -> (id < length (heap s))%nat ->
       heap s' !! id = heap s !! id) /\
    children_in_heap (heap s') /\
    (available_actions state <> [] -> frontier_inv s').
Proof.
  intros (r & Hroot & Hnd & Hfront) Hheap Hin Hact.
  destruct (proj1 (Hfront self) Hin) as [Hreach (n & Hn & Hch)].
  pose proof (lookup_lt_Some _ _ _ Hn) as Hlt.
  split.
  { destruct (expand_loop_false_ok self state (available_actions state) s n Hn)
      as (s1 & Hloop).
    destruct (expand_loop_spec self state false _ s s1 n Hn Hloop)
      as (_ & _ & Hl & _ & (n' & Hn' & _) & _).
    eexists. unfold expand. unfold bind at 1. rewrite Hloop.
    unfold bind at 1. unfold get_leaves at 1.
    rewrite Hl, (list_remove_NoDup self (leaves s) Hnd Hin).
    unfold bind at 1. unfold set_leaves at 1.
    unfold bind at 1. unfold get_node. cbn [heap]. rewrite Hn'.
    reflexivity. }
  intros uc s' Hrun.
  destruct (expand_effect s s' self state uc n Hn Hch Hnd Hin Hact Hrun)
    as (Hc & Hr & Hl & Hlen & (n' & Hn' & Hp' & Hk') & Hother & Hnew).
  set (actions := available_actions state) in *.
  set (len := length (heap s)) in *.
  set (kids := seq len (length actions)) in *.
  assert (Hlenk : length actions = length kids) by (unfold kids; now rewrite length_seq).
  split.
  { exists n'. split; [exact Hn' |]. rewrite Hk'.
    split; [now apply dict_keys_zip |]. split; [now apply dict_values_zip |].
    rewrite length_zip. lia. }
  split; [exact Hnew |]. split; [exact Hl |]. split; [exact Hother |].
  assert (Hheap' : children_in_heap (heap s')).
  { intros id m a c Hm Hac. rewrite Hlen.
    destruct (decide (id = self)) as [-> | Hne].
    - rewrite Hn' in Hm. injection Hm as <-. rewrite Hk' in Hac.
      apply elem_of_zip_seq in Hac. lia.
    - destruct (decide (id < len)%nat) as [Hold | Hfresh].
      + rewrite Hother in Hm by assumption.
        pose proof (Hheap _ _ _ _ Hm Hac). lia.
      + pose proof (lookup_lt_Some _ _ _ Hm) as Hid. rewrite Hlen in Hid.
        destruct (Hnew id) as (m' & Hm' & _ & Hkm).
        { apply elem_of_seq. lia. }
        rewrite Hm' in Hm. injection Hm as <-. rewrite Hkm in Hac.
        now apply elem_of_nil in Hac. }
  split; [exact Hheap' |].
  intros Hnonempty.
  assert (Hgrow : forall p m, heap s !! p = Some m ->
            exists m', heap s' !! p = Some m' /\
              forall kv, kv ∈ children m -> kv ∈ children m').
  { intros p m Hm. destruct (decide (p = self)) as [-> | Hne].
    - exists n'. split; [exact Hn' |]. rewrite Hn in Hm. injection Hm as <-.
      rewrite Hch. intros kv Hkv. now apply elem_of_nil in Hkv.
    - exists m. split; [| auto]. rewrite Hother; [exact Hm | exact Hne |].
      eapply lookup_lt_Some; eassumption. }
  assert (Hback : forall id, reachable (heap s') r id ->
            ((id < len)%nat /\ reachable (heap s) r id) \/ id ∈ kids).
  { induction 1 as [m Hm | p m a c mc _ IH Hp Hac Hc'].
    - left. destruct (reachable_root_in_heap _ _ _ Hreach) as (m0 & Hm0).
      split; [eapply lookup_lt_Some; eassumption | eapply reach_root; eassumption].
    - destruct IH as [[Hplt Hpreach] | Hpkid].
      + destruct (decide (p = self)) as [-> | Hne].
        * right. rewrite Hn' in Hp. injection Hp as <-. rewrite Hk' in Hac.
          apply elem_of_zip_r in Hac. exact Hac.
        * left. rewrite Hother in Hp by assumption.
          pose proof (Hheap _ _ _ _ Hp Hac) as Hclt.
          destruct (lookup_lt_is_Some_2 (heap s) c Hclt) as (mc0 & Hmc0).
          split; [exact Hclt |]. eapply reach_child; eassumption.
      + destruct (Hnew p Hpkid) as (m' & Hm' & _ & Hkm).
        rewrite Hm' in Hp. injection Hp as <-. rewrite Hkm in Hac.
        now apply elem_of_nil in Hac. }
  exists r. split; [congruence |]. split.
  - rewrite Hl. apply NoDup_app. split; [now apply NoDup_filter |].
    split; [| apply NoDup_seq].
    intros x Hx Hk. apply list_elem_of_filter in Hx as [_ Hx].
    apply elem_of_seq in Hk.
    pose proof (childless_lt _ _ (proj2 (proj1 (Hfront x) Hx))). lia.
  - intros id. rewrite Hl, elem_of_app, list_elem_of_filter. split.
    + intros [[Hne Hid] | Hid].
      * destruct (proj1 (Hfront id) Hid) as [Hr0 Hc0]. split.
        -- eapply reachable_mono; eassumption.
        -- pose proof (childless_lt _ _ Hc0). destruct Hc0 as (m & Hm & Hkm).
           exists m. split; [| exact Hkm]. now rewrite Hother.
      * destruct (Hnew id Hid) as (m & Hm & Hpm & Hkm). split.
        -- destruct (zip_partner actions kids id Hlenk Hid) as (a & Ha).
           eapply reach_child;
             [eapply reachable_mono; [exact Hgrow | exact Hreach]
             | exact Hn' | rewrite Hk'; exact Ha | exact Hm].
        -- exists m. auto.
    + intros [Hr0 (m & Hm & Hkm)].
      destruct (Hback id Hr0) as [[Hlt0 Hreach0] | Hkid]; [| now right].
      left. assert (Hne : id <> self).
      { intros ->. rewrite Hn' in Hm. injection Hm as <-. rewrite Hk' in Hkm.
        destruct actions as [| a0 actions0]; [now apply Hnonempty |].
        unfold kids in Hkm. simpl in Hkm. discriminate. }
      split; [exact Hne |]. apply Hfront. split; [exact Hreach0 |].
      exists m. split; [| exact Hkm]. now rewrite <- Hother.
Qed.

Lemma frontier_inv_lazy_fresh : frontier_inv lazy_fresh.
Proof.
  exists 0%nat. split; [reflexivity |]. split; [apply NoDup_singleton |].
  intros id. split.
  - intros Hid. apply list_elem_of_singleton in Hid as ->. split.
    + eapply reach_root. reflexivity.
    + eexists. split; reflexivity.
  - intros [_ Hc]. apply childless_lt in Hc. simpl in Hc.
    assert (id = 0)%nat as -> by lia. now left.
Qed.

Lemma children_in_heap_lazy_fresh : children_in_heap (heap lazy_fresh).
Proof.
  intros id n a c Hn Hac. destruct id as [| id]; simpl in Hn; [| discriminate].
  injection Hn as <-. now apply elem_of_nil in Hac.
Qed.

Lemma expand_frontier_witness :
  (exists s', @expand demo_collaborators 0 (Some tt) false lazy_fresh = (Ok tt, s')) /\
  forall (update_children : bool) (s' : OLOP),
    @expand demo_collaborators 0 (Some tt) update_children lazy_fresh = (Ok tt, s') ->
    (exists n', heap s' !! 0%nat = Some n' /\
       dict_keys (children n') = [1; 2] /\
       dict_values (children n') = [1%nat; 2%nat] /\
       length (children n') = 2%nat) /\
    (forall id, id ∈ [1%nat; 2%nat] ->
       exists m, heap s' !! id = Some m /\ parent m = Some 0%nat /\ children m = []) /\
    leaves s' = filter (fun y => y <> 0%nat) [0%nat] ++ [1%nat; 2%nat] /\
    (forall id, id <> 0%nat -> (id < 1)%nat ->
       heap s' !! id = heap lazy_fresh !! id) /\
    children_in_heap (heap s') /\
    ([1; 2] <> [] -> frontier_inv s').
Proof.
  apply (@expand_frontier demo_collaborators lazy_fresh 0%nat tt).
  - apply frontier_inv_lazy_fresh.
  - apply children_in_heap_lazy_fresh.
  - now left.
  - simpl. apply NoDup_cons. split; [| apply NoDup_singleton].
    intros Hin. apply list_elem_of_singleton in Hin. discriminate.
Defined.

(** C7 as stated fails for an empty action set: the expanded node is taken
    out of the leaf list and gets no child, so it stays a childless
    reachable node outside the frontier. *)
Lemma expand_empty_counterexample :
  frontier_inv lazy_fresh /\ 0%nat ∈ leaves lazy_fresh /\
  @available_actions stuck_collaborators tt = [] /\
  @expand stuck_collaborators 0 (Some tt) false lazy_fresh = (Ok tt, lazy_stuck) /\
  ~ frontier_inv lazy_stuck.
Proof.
  split; [apply frontier_inv_lazy_fresh |].
  split; [now left |]. split; [reflexivity |].
  split; [run_planner; reflexivity |].
  intros (r & Hroot & _ & Hfront). injection Hroot as <-.
  assert (Hin : 0%nat ∈ leaves lazy_stuck).
  { apply Hfront. split.
    - eapply reach_root. reflexivity.
    - eexists. split; reflexivity. }
  now apply elem_of_nil in Hin.
Qed.

(** ** The arms of the prebuilt tree *)

Lemma grows_refl (h : list OLOPNode) : grows h h.
Proof. intros id n Hn. eauto. Qed.

Lemma grows_trans (h1 h2 h3 : list OLOPNode) :
  grows h1 h2 -> grows h2 h3 -> grows h1 h3.
Proof.
  intros H12 H23 id n Hn.
  destruct (H12 _ _ Hn) as (n2 & Hn2 & Hp2 & Hk2).
  destruct (H23 _ _ Hn2) as (n3 & Hn3 & Hp3 & Hk3).
  exists n3. split; [exact Hn3 |]. split; [congruence | auto].
Qed.

Lemma follow_grows (h h' : list OLOPNode) (path : list Z) :
  grows h h' ->
  forall id m, follow h id path = Some m -> follow h' id path = Some m.
Proof.
  intros Hg. induction path as [| a rest IH]; intros id m; simpl.
  - destruct (h !! id) as [n |] eqn:Hn; [| discriminate].
    destruct (Hg _ _ Hn) as (n' & -> & _). auto.
  - destruct (h !! id) as [n |] eqn:Hn; [| discriminate].
    destruct (Hg _ _ Hn) as (n' & -> & _ & Hk).
    destruct (dict_get a (children n)) as [c |] eqn:Hc; [| discriminate].
    rewrite (Hk _ _ Hc). apply IH.
Qed.

Lemma follow_app (h : list OLOPNode) (p q : list Z) :
  forall id, follow h id (p ++ q) =
             match follow h id p with
             | Some m => follow h m q
             | None => None
             end.
Proof.
  induction p as [| a p IH]; intros id; simpl.
  - destruct (h !! id) as [n |] eqn:Hn; [reflexivity |].
    destruct q; simpl; now rewrite Hn.
  - destruct (h !! id) as [n |]; [| reflexivity].
    destruct (dict_get a (children n)); [apply IH | reflexivity].
Qed.

Lemma is_arm_grows (b : Z) (k : nat) (h h' : list OLOPNode) (r id : nat) :
  grows h h' -> is_arm b k h r id -> is_arm b k h' r id.
Proof.
  intros Hg (path & Hlen & Hrange & Hf).
  exists path. split; [exact Hlen |]. split; [exact Hrange |].
  eapply follow_grows; eassumption.
Qed.

Lemma dict_get_zip_seq (actions : list Z) (start : nat) (i : nat) (a : Z) :
  NoDup actions -> actions !! i = Some a ->
  dict_get a (zip actions (seq start (length actions))) = Some (start + i)%nat.
Proof.
  revert start i. induction actions as [| x actions IH]; intros start i Hnd Hi;
    [discriminate |].
  apply NoDup_cons in Hnd as [Hx Hnd]. simpl.
  destruct i as [| i]; simpl in Hi.
  - injection Hi as ->. rewrite Z.eqb_refl. f_equal. lia.
  - destruct (Z.eqb_spec x a) as [-> | Hne].
    + exfalso. apply Hx. apply list_elem_of_lookup. eauto.
    + rewrite (IH (S start) i Hnd Hi). f_equal. lia.
Qed.

Lemma dict_get_children_range (b : Z) (len : nat) (a : Z) :
  0 <= a < b ->
  dict_get a (zip (seqZ 0 b) (seq len (Z.to_nat b))) = Some (len + Z.to_nat a)%nat.
Proof.
  intros Ha.
  rewrite <- (length_seqZ 0 b) at 1.
  apply dict_get_zip_seq; [apply NoDup_seqZ |].
  apply lookup_seqZ. lia.
Qed.

Lemma dict_get_in (a : Z) (c : nat) (d : list (Z * nat)) :
  dict_get a d = Some c -> (a, c) ∈ d.
Proof.
  induction d as [| [k v] d IH]; simpl; [discriminate |].
  destruct (Z.eqb_spec k a) as [-> | _].
  - intros [= ->]. now left.
  - intros Hd. right. now apply IH.
Qed.

Lemma follow_kid (h : list OLOPNode) (r leaf : nat) (path : list Z) (a : Z)
    (b : Z) (len : nat) (n m : OLOPNode) :
  follow h r path = Some leaf ->
  h !! leaf = Some (with_children (zip (seqZ 0 b) (seq len (Z.to_nat b))) n) ->
  0 <= a < b ->
  h !! (len + Z.to_nat a)%nat = Some m ->
  follow h r (path ++ [a]) = Some (len + Z.to_nat a)%nat.
Proof.
  intros Hf Hleaf Ha Hm. rewrite follow_app, Hf. simpl.
  rewrite Hleaf. simpl. rewrite dict_get_children_range by assumption.
  now rewrite Hm.
Qed.

(** One pass over the frontier, seen from the action sequences: the arms of
    the sequences of length [k] are replaced by those of length [k + 1]. *)
Lemma prebuild_level_arms (b : Z) (k r : nat) (todo : list nat) :
  forall (acc : list nat) (s : OLOP) (acc' : list nat) (s' : OLOP),
  prebuild_level b todo acc s = (Ok acc', s') ->
  NoDup todo ->
  (forall id, id ∈ todo -> childless (heap s) id) ->
  (forall id, id ∈ todo -> is_arm b k (heap s) r id) ->
  (forall id, id ∈ acc -> is_arm b (S k) (heap s) r id) ->
  (forall path a, length path = k -> in_range b path -> 0 <= a < b ->
     (exists leaf, leaf ∈ todo /\ follow (heap s) r path = Some leaf) \/
     (exists c, c ∈ acc /\ follow (heap s) r (path ++ [a]) = Some c)) ->
  parent_consistent (heap s) ->
  (forall id, id ∈ acc' -> is_arm b (S k) (heap s') r id) /\
  (forall path a, length path = k -> in_range b path -> 0 <= a < b ->
     exists c, c ∈ acc' /\ follow (heap s') r (path ++ [a]) = Some c) /\
  parent_consistent (heap s') /\ grows (heap s) (heap s').
Proof.
  induction todo as [| leaf rest IH];
    intros acc s acc' s' Hrun Hnd Hchild Htodo Hacc HQ Hpc.
  - injection Hrun as <- <-.
    split; [exact Hacc |]. split; [| split; [exact Hpc | apply grows_refl]].
    intros path a Hlen Hrange Ha.
    destruct (HQ path a Hlen Hrange Ha) as [(leaf & Hin & _) | Hright];
      [now apply elem_of_nil in Hin | exact Hright].
  - destruct (Hchild leaf ltac:(left)) as (n & Hn & Hch).
    destruct (Node_expand_childless leaf b s n Hn Hch)
      as (s1 & Hrun1 & Hc1 & Hr1 & Hl1 & Hlen1 & Hself1 & Hold1 & Hnew1).
    set (len := length (heap s)) in *.
    set (kids := seq len (Z.to_nat b)) in *.
    apply NoDup_cons in Hnd as [Hleaf Hnd].
    pose proof (lookup_lt_Some _ _ _ Hn) as Hlt. fold len in Hlt.
    cbn [prebuild_level] in Hrun. unfold bind at 1 in Hrun. rewrite Hrun1 in Hrun.
    unfold bind at 1 in Hrun. unfold get_node in Hrun. rewrite Hself1 in Hrun.
    cbn [children with_children] in Hrun.
    rewrite dict_values_zip in Hrun
      by (unfold kids; now rewrite length_seqZ, length_seq).
    assert (Hg : grows (heap s) (heap s1)).
    { intros id m Hm. destruct (decide (id = leaf)) as [-> | Hne].
      - eexists. split; [exact Hself1 |]. rewrite Hn in Hm. injection Hm as <-.
        split; [reflexivity |]. rewrite Hch. intros a c Hac. discriminate.
      - exists m. split; [| auto]. rewrite Hold1; [exact Hm | exact Hne |].
        eapply lookup_lt_Some; eassumption. }
    assert (Hkid : forall a, 0 <= a < b ->
              heap s1 !! (len + Z.to_nat a)%nat =
              Some (new_node (Some leaf) (config_of s))).
    { intros a Ha. apply Hnew1. lia. }
    assert (Hpc1 : parent_consistent (heap s1)).
    { intros id m a c Hm Hac.
      destruct (decide (id = leaf)) as [-> | Hne].
      - rewrite Hself1 in Hm. injection Hm as <-. simpl in Hac.
        apply dict_get_in, elem_of_zip_r, elem_of_seq in Hac.
        eexists. split; [apply Hnew1; lia | apply new_node_parent].
      - destruct (decide (id < len)%nat) as [Hold | Hfresh].
        + rewrite Hold1 in Hm by assumption.
          destruct (Hpc _ _ _ _ Hm Hac) as (mc & Hmc & Hpmc).
          destruct (Hg _ _ Hmc) as (mc' & Hmc' & Hpmc' & _).
          exists mc'. split; [exact Hmc' | congruence].
        + pose proof (lookup_lt_Some _ _ _ Hm) as Hid. rewrite Hlen1 in Hid.
          rewrite Hnew1 in Hm by lia. injection Hm as <-.
          rewrite new_node_children in Hac. discriminate. }
    destruct (IH (acc ++ kids) s1 acc' s' Hrun Hnd)
      as (HA & HQ' & Hpc' & Hg').
    + intros id Hid. destruct (Hchild id ltac:(now right)) as (m & Hm & Hkm).
      exists m. split; [| exact Hkm]. rewrite Hold1; [exact Hm | |].
      * intros ->. contradiction.
      * eapply lookup_lt_Some; eassumption.
    + intros id Hid. eapply is_arm_grows; [exact Hg |]. apply Htodo. now right.
    + intros id Hid. apply elem_of_app in Hid as [Hid | Hid].
      * eapply is_arm_grows; [exact Hg |]. now apply Hacc.
      * apply elem_of_seq in Hid.
        destruct (Htodo leaf ltac:(left)) as (path & Hlen & Hrange & Hf).
        assert (Ha : 0 <= Z.of_nat (id - len) < b) by lia.
        exists (path ++ [Z.of_nat (id - len)]).
        split; [rewrite length_app; simpl; lia |].
        split; [apply Forall_app; split; [exact Hrange | now repeat constructor] |].
        replace id with (len + Z.to_nat (Z.of_nat (id - len)))%nat at 2 by lia.
        eapply follow_kid;
          [eapply follow_grows; eassumption | exact Hself1 | exact Ha
          | apply Hkid; exact Ha].
    + intros path a Hlen Hrange Ha.
      destruct (HQ path a Hlen Hrange Ha) as [(leaf' & Hin & Hf) | (c & Hc & Hf)].
      * apply elem_of_cons in Hin as [-> | Hin].
        -- right. exists (len + Z.to_nat a)%nat. split.
           ++ apply elem_of_app. right. apply elem_of_seq. lia.
           ++ eapply follow_kid;
                [eapply follow_grows; eassumption | exact Hself1 | exact Ha
                | apply Hkid; exact Ha].
        -- left. exists leaf'. split; [exact Hin |].
           eapply follow_grows; eassumption.
      * right. exists c. split; [apply elem_of_app; now left |].
        eapply follow_grows; eassumption.
    + exact Hpc1.
    + split; [exact HA |]. split; [exact HQ' |]. split; [exact Hpc' |].
      eapply grows_trans; eassumption.
Qed.

Lemma snoc_decompose (l : list Z) (k : nat) :
  length l = S k -> exists l' a, l = l' ++ [a] /\ length l' = k.
Proof.
  intros Hlen. destruct (rev l) as [| a l'] eqn:Hrev.
  - apply (f_equal (@length Z)) in Hrev. rewrite length_rev in Hrev.
    simpl in Hrev. lia.
  - exists (rev l'), a.
    assert (Hl : l = rev l' ++ [a]).
    { rewrite <- (rev_involutive l), Hrev. reflexivity. }
    split; [exact Hl |].
    rewrite Hl, length_app in Hlen. simpl in Hlen. lia.
Qed.

Lemma prebuild_levels_arms (b : Z) (r : nat) (j : nat) :
  forall (k : nat) (s s' : OLOP),
  prebuild_levels b j s = (Ok tt, s') ->
  complete_tree b k s -> arms_inv b k r s ->
  arms_inv b (k + j) r s' /\ grows (heap s) (heap s').
Proof.
  induction j as [| j IH]; intros k s s' Hrun Hct Harms.
  - injection Hrun as <-. rewrite Nat.add_0_r.
    split; [exact Harms | apply grows_refl].
  - destruct Hct as (Hnd & Hlen & Hleaves & Hfull).
    destruct Harms as (Hpc & HP2 & HP1).
    destruct (prebuild_level_spec b k (leaves s) [] s) as
      (acc & s1 & Hrun1 & Hc1 & Hr1 & Hl1 & Hlen1 & Hnd1 & Hacc1 & Hfull1 & Hpp1).
    { assumption. }
    { constructor. }
    { assumption. }
    { intros id Hid. now apply not_elem_of_nil in Hid. }
    { intros id _. apply not_elem_of_nil. }
    { intros id n Hn _ Hid. now apply (Hfull id n). }
    destruct (prebuild_level_arms b k r (leaves s) [] s acc s1 Hrun1 Hnd)
      as (HA & HQ & Hpc1 & Hg1).
    { intros id Hid. apply Hleaves, Hid. }
    { exact HP2. }
    { intros id Hid. now apply elem_of_nil in Hid. }
    { intros path a Hlenp Hrange _. left. now apply HP1. }
    { exact Hpc. }
    cbn [prebuild_levels] in Hrun. unfold bind at 1 in Hrun.
    unfold get_leaves at 1 in Hrun. unfold bind at 1 in Hrun.
    rewrite Hrun1 in Hrun. unfold bind at 1 in Hrun. unfold set_leaves in Hrun.
    destruct (IH (S k) _ s' Hrun) as (Harms' & Hg').
    + split; [exact Hnd1 |]. split; [| split; assumption].
      simpl. rewrite Hlen1, Hlen. simpl. lia.
    + split; [exact Hpc1 |]. split; [exact HA |].
      intros path Hlenp Hrange.
      destruct (snoc_decompose path k Hlenp) as (path' & a & -> & Hlen').
      apply Forall_app in Hrange as [Hrange Ha].
      apply Forall_inv in Ha.
      exact (HQ path' a Hlen' Hrange Ha).
    + replace (k + S j)%nat with (S k + j)%nat by lia.
      split; [exact Harms' |]. eapply grows_trans; eassumption.
Qed.

Lemma fresh_root_arms (b : Z) (c : config) (r : option nat) :
  arms_inv b 0 0 (mkOLOP c [new_node None c] r [0%nat]).
Proof.
  split; [| split].
  - intros id n a ch Hn Hac. destruct id as [| id]; simpl in Hn; [| discriminate].
    injection Hn as <-. rewrite new_node_children in Hac. discriminate.
  - intros id Hid. apply list_elem_of_singleton in Hid as ->.
    exists []. split; [reflexivity |]. split; [constructor | reflexivity].
  - intros path Hlen _. apply nil_length_inv in Hlen as ->.
    exists 0%nat. split; [now left | reflexivity].
Qed.

Lemma make_root_prebuilt_arms (c : config) (b L : Z) :
  cfg_lazy_tree_construction c = false -> cfg_horizon c = Some L ->
  exists s',
    make_root b (new_planner c) = (Ok 0%nat, s') /\
    complete_tree b (Z.to_nat L) s' /\ arms_inv b (Z.to_nat L) 0 s' /\
    is_root (heap s') 0.
Proof.
  intros Hlazy HL.
  set (s0 := mkOLOP c [new_node None c] None [0%nat]).
  destruct (prebuild_levels_spec b (Z.to_nat L) 0 s0 (fresh_root_complete b c None))
    as (s' & Hrun & _ & _ & Hct & Hpp).
  destruct (prebuild_levels_arms b 0 (Z.to_nat L) 0 s0 s' Hrun
              (fresh_root_complete b c None) (fresh_root_arms b c None))
    as (Harms & _).
  assert (Htree : prebuild_tree b s0 = (Ok tt, s')).
  { unfold prebuild_tree, config_horizon, bind, get_config. simpl.
    rewrite HL. exact Hrun. }
  exists s'. split; [| split; [exact Hct | split; [exact Harms |]]].
  - unfold make_root, bind, get_config, alloc, set_leaves, new_planner. simpl.
    rewrite HL. unfold ret at 1. simpl. rewrite Hlazy.
    unfold s0 in Htree. rewrite Htree. reflexivity.
  - destruct (Hpp 0%nat (new_node None c) eq_refl) as (n' & Hn' & Hp).
    exists n'. split; [exact Hn' |]. now rewrite Hp, new_node_parent.
Qed.

Lemma follow_depth (h : list OLOPNode) (path : list Z) :
  parent_consistent h ->
  forall (start d id : nat),
  at_depth h start d -> follow h start path = Some id ->
  at_depth h id (d + length path).
Proof.
  intros Hpc. induction path as [| a rest IH]; intros start d id Hd Hf; simpl in Hf.
  - destruct (h !! start); [| discriminate]. injection Hf as <-.
    now rewrite Nat.add_0_r.
  - destruct (h !! start) as [n |] eqn:Hn; [| discriminate].
    destruct (dict_get a (children n)) as [c |] eqn:Hc; [| discriminate].
    destruct (Hpc _ _ _ _ Hn Hc) as (m & Hm & Hpm).
    simpl. replace (d + S (length rest))%nat with (S d + length rest)%nat by lia.
    apply (IH c); [| exact Hf].
    eapply at_depth_child; eassumption.
Qed.

Lemma follow_in_range (b : Z) (h : list OLOPNode) (path : list Z) :
  (forall id n, h !! id = Some n -> children n <> [] ->
     dict_keys (children n) = seqZ 0 b) ->
  forall (start id : nat), follow h start path = Some id -> in_range b path.
Proof.
  intros Hfull. induction path as [| a rest IH]; intros start id Hf; [constructor |].
  simpl in Hf.
  destruct (h !! start) as [n |] eqn:Hn; [| discriminate].
  destruct (dict_get a (children n)) as [c |] eqn:Hc; [| discriminate].
  constructor; [| eapply IH; eassumption].
  assert (Hin : a ∈ dict_keys (children n)).
  { apply dict_get_in in Hc. unfold dict_keys.
    apply list_elem_of_fmap. exists (a, c). auto. }
  rewrite (Hfull _ _ Hn) in Hin; [| intros Hnil; rewrite Hnil in Hc; discriminate].
  apply elem_of_seqZ in Hin. lia.
Qed.

(** ** The prebuilt tree *)

(** C9: without lazy construction, root construction with horizon [L] and
    [b] actions leaves a complete [b]-ary tree of depth [L]: the frontier
    holds [b ^ L] distinct nodes, each childless and at depth [L] (and at no
    other depth), every node outside the frontier has exactly [b] children,
    one per action [0 .. b - 1], and the action sequences that lead from the
    root to a frontier node are exactly the sequences of length [L] over
    these actions. *)
Theorem prebuilt_tree_complete (c : config) (b L : Z) :
  cfg_lazy_tree_construction c = false -> cfg_horizon c = Some L ->
  0 <= L -> 0 <= b ->
  exists r s',
    make_root b (new_planner c) = (Ok r, s') /\ is_root (heap s') r /\
    NoDup (leaves s') /\
    Z.of_nat (length (leaves s')) = b ^ L /\
    (forall id, id ∈ leaves s' ->
       childless (heap s') id /\ at_depth (heap s') id (Z.to_nat L) /\
       forall d, at_depth (heap s') id d -> d = Z.to_nat L) /\
    (forall id n, heap s' !! id = Some n -> id ∉ leaves s' ->
       dict_keys (children n) = seqZ 0 b /\ Z.of_nat (length (children n)) = b) /\
    (forall path,
       (exists leaf, leaf ∈ leaves s' /\ follow (heap s') r path = Some leaf) <->
       (Z.of_nat (length path) = L /\ in_range b path)).
Proof.
  intros Hlazy HL HL0 Hb0.
  destruct (make_root_prebuilt_arms c b L Hlazy HL)
    as (s' & Hrun & Hct & (Hpc & HP2 & HP1) & Hroot).
  destruct Hct as (Hnd & Hlen & Hleaves & Hfull).
  exists 0%nat, s'. split; [exact Hrun |]. split; [exact Hroot |].
  split; [exact Hnd |]. split; [| split; [| split]].
  - rewrite Hlen, Nat2Z.inj_pow, !Z2Nat.id by lia. reflexivity.
  - intros id Hid. destruct (Hleaves id Hid) as [Hc Hd].
    split; [exact Hc |]. split; [exact Hd |].
    intros d Hd'. eapply at_depth_unique; eassumption.
  - intros id n Hn Hid. pose proof (Hfull id n Hn Hid) as Hkeys.
    split; [exact Hkeys |].
    assert (Hl : length (dict_keys (children n)) = length (seqZ 0 b)) by now rewrite Hkeys.
    unfold dict_keys in Hl. rewrite length_map, length_seqZ in Hl. lia.
  - intros path. split.
    + intros (leaf & Hin & Hf). split.
      * assert (H0 : at_depth (heap s') 0 0).
        { destruct Hroot as (n & Hn & Hp). exists 0%nat.
          split; [simpl; now rewrite Hn | exists n; auto]. }
        pose proof (follow_depth _ _ Hpc _ _ _ H0 Hf) as Hd.
        pose proof (at_depth_unique _ _ _ _ Hd (proj2 (Hleaves leaf Hin))). lia.
      * eapply follow_in_range; [| exact Hf].
        intros id n Hn Hne. apply (Hfull id n Hn).
        intros Hid. destruct (proj1 (Hleaves id Hid)) as (n' & Hn' & Hk).
        congruence.
    + intros [Hlenp Hrange]. apply HP1; [lia | exact Hrange].
Qed.

Lemma prebuilt_tree_complete_witness :
  exists r s',
    make_root 2 (new_planner (demo_config 10 (1 / 2) (Some 5) (Some 2))) = (Ok r, s') /\
    is_root (heap s') r /\
    NoDup (leaves s') /\
    Z.of_nat (length (leaves s')) = 2 ^ 2 /\
    (forall id, id ∈ leaves s' ->
       childless (heap s') id /\ at_depth (heap s') id (Z.to_nat 2) /\
       forall d, at_depth (heap s') id d -> d = Z.to_nat 2) /\
    (forall id n, heap s' !! id = Some n -> id ∉ leaves s' ->
       dict_keys (children n) = seqZ 0 2 /\ Z.of_nat (length (children n)) = 2) /\
    (forall path,
       (exists leaf, leaf ∈ leaves s' /\ follow (heap s') r path = Some leaf) <->
       (Z.of_nat (length path) = 2 /\ in_range 2 path)).
Proof.
  apply (prebuilt_tree_complete (demo_config 10 (1 / 2) (Some 5) (Some 2)) 2 2);
    [reflexivity | reflexivity | lia | lia].
Defined.

(** The prebuilt tree of two actions and horizon 2: seven nodes, the last
    four on the frontier. *)
Example prebuilt_tree_sample :
  exists s',
    make_root 2 (new_planner (demo_config 10 (1 / 2) (Some 5) (Some 2))) = (Ok 0%nat, s') /\
    length (heap s') = 7%nat /\ leaves s' = [3; 4; 5; 6]%nat /\
    follow (heap s') 0 [1; 0] = Some 5%nat.
Proof.
  eexists. split; [run_planner; reflexivity |].
  split; [reflexivity |]. split; reflexivity.
Qed.

(** ** The first value pass over the whole tree *)

Lemma same_shape_refl (h : list OLOPNode) : same_shape h h.
Proof.
  split; [reflexivity |]. intros id n Hn. exists (value n). rewrite Hn.
  now destruct n.
Qed.

Lemma same_shape_None (h0 h : list OLOPNode) (id : nat) :
  same_shape h0 h -> h0 !! id = None -> h !! id = None.
Proof.
  intros [Hlen _] Hn. apply lookup_ge_None in Hn. apply lookup_ge_None. lia.
Qed.

Lemma ancestor_shape (h0 h : list OLOPNode) (k : nat) :
  same_shape h0 h -> forall id, ancestor h k id = ancestor h0 k id.
Proof.
  intros Hs. induction k as [| k IH]; intros id; simpl.
  - destruct (h0 !! id) as [n0 |] eqn:Hn0.
    + destruct (proj2 Hs _ _ Hn0) as (v & ->). reflexivity.
    + now rewrite (same_shape_None _ _ _ Hs Hn0).
  - destruct (h0 !! id) as [n0 |] eqn:Hn0.
    + destruct (proj2 Hs _ _ Hn0) as (v & ->). simpl.
      destruct (parent n0); [apply IH | reflexivity].
    + now rewrite (same_shape_None _ _ _ Hs Hn0).
Qed.

Lemma mu_ucb_at_shape (h0 h : list OLOPNode) (o : option nat) :
  same_shape h0 h -> mu_ucb_at h o = mu_ucb_at h0 o.
Proof.
  intros Hs. destruct o as [i |]; [| reflexivity]. simpl.
  destruct (h0 !! i) as [n0 |] eqn:Hn0.
  - destruct (proj2 Hs _ _ Hn0) as (v & ->). reflexivity.
  - now rewrite (same_shape_None _ _ _ Hs Hn0).
Qed.

Lemma U_spec_shape (gamma : R) (h0 h : list OLOPNode) (id d : nat) (t : bool) :
  same_shape h0 h -> U_spec gamma h id d t = U_spec gamma h0 id d t.
Proof.
  intros Hs. unfold U_spec. f_equal. f_equal. apply map_ext. intros k.
  now rewrite (ancestor_shape h0 h _ Hs), (mu_ucb_at_shape h0 h _ Hs).
Qed.

Lemma at_depth_shape (h0 h : list OLOPNode) (id d : nat) :
  same_shape h0 h -> at_depth h0 id d -> at_depth h id d.
Proof.
  intros Hs (r & Ha & n & Hn & Hp). exists r.
  split; [now rewrite (ancestor_shape h0 h _ Hs) |].
  destruct (proj2 Hs _ _ Hn) as (v & Hv). eexists. split; [exact Hv | exact Hp].
Qed.

Lemma same_shape_insert (h0 h : list OLOPNode) (id : nat) (n0 : OLOPNode) (v : ext) :
  same_shape h0 h -> h0 !! id = Some n0 ->
  same_shape h0 (<[id := with_value v n0]> h).
Proof.
  intros [Hlen Hs] Hn0. split; [now rewrite length_insert |].
  intros id' n' Hn'. destruct (decide (id' = id)) as [-> | Hne].
  - exists v. rewrite Hn0 in Hn'. injection Hn' as <-.
    apply list_lookup_insert_eq. rewrite Hlen. eapply lookup_lt_Some; eassumption.
  - rewrite list_lookup_insert_ne by congruence. now apply Hs.
Qed.

Lemma at_depth_in_heap (h : list OLOPNode) (id d : nat) :
  at_depth h id d -> exists n, h !! id = Some n.
Proof.
  intros (r & Ha & _). destruct d; simpl in Ha;
    destruct (h !! id) as [n |]; try discriminate; eauto.
Qed.

(** A call of [compute_u_values] during the pass: the heap still has the
    shape it started with, and the node receives its [U_of]. *)
Lemma compute_u_values_shaped (h0 : list OLOPNode) (s : OLOP) (node : nat)
    (path : list Z) (n0 : OLOPNode) :
  same_shape h0 (heap s) -> h0 !! node = Some n0 ->
  at_depth h0 node (length path) ->
  compute_u_values node path s =
  (Ok (path, U_of (cfg_gamma (config_of s)) h0 node (length path)),
   mkOLOP (config_of s)
     (<[node := with_value (U_of (cfg_gamma (config_of s)) h0 node (length path)) n0]>
        (heap s))
     (root s) (leaves s)).
Proof.
  intros Hs Hn0 Hd. destruct (proj2 Hs _ _ Hn0) as (v & Hv).
  rewrite (compute_u_values_run s node path _ Hv (at_depth_shape _ _ _ _ Hs Hd)).
  rewrite (U_spec_shape _ h0 (heap s) _ _ _ Hs).
  unfold U_of, done_at. rewrite Hn0. reflexivity.
Qed.

Lemma value_at_insert (h : list OLOPNode) (id id' : nat) (n : OLOPNode) :
  (id < length h)%nat ->
  value_at (<[id := n]> h) id' = if decide (id' = id) then value n else value_at h id'.
Proof.
  intros Hlt. unfold value_at. destruct (decide (id' = id)) as [-> | Hne].
  - now rewrite list_lookup_insert_eq.
  - now rewrite list_lookup_insert_ne by congruence.
Qed.

(** One level of the traversal: its nodes receive their [U_of], the other
    nodes keep their value, and the children are queued. *)
Lemma bfs_level_run (h0 : list OLOPNode) (d : nat) (level : list (nat * list Z)) :
  forall (next : list (nat * list Z)) (s : OLOP),
  same_shape h0 (heap s) ->
  (forall id path, (id, path) ∈ level -> at_depth h0 id d /\ length path = d) ->
  exists s',
    bfs_level compute_u_values level next s =
      (Ok (next ++ level_children h0 level), s') /\
    config_of s' = config_of s /\ root s' = root s /\ leaves s' = leaves s /\
    same_shape h0 (heap s') /\
    (forall id, id ∈ map fst level ->
       value_at (heap s') id = U_of (cfg_gamma (config_of s)) h0 id d) /\
    (forall id, id ∉ map fst level -> value_at (heap s') id = value_at (heap s) id).
Proof.
  induction level as [| [node path] rest IH]; intros next s Hs Hlevel.
  - exists s. simpl. unfold ret. rewrite app_nil_r.
    do 4 (split; [reflexivity |]). split; [exact Hs |].
    split; [intros id Hid; now apply elem_of_nil in Hid | reflexivity].
  - destruct (Hlevel node path ltac:(left)) as [Hd Hlen].
    destruct (at_depth_in_heap _ _ _ Hd) as (n0 & Hn0).
    pose proof (lookup_lt_Some _ _ _ Hn0) as Hlt.
    rewrite <- Hlen in Hd.
    pose proof (compute_u_values_shaped h0 s node path n0 Hs Hn0 Hd) as Hcall.
    rewrite Hlen in Hcall.
    set (U := U_of (cfg_gamma (config_of s)) h0 node d) in *.
    set (s1 := mkOLOP (config_of s) (<[node := with_value U n0]> (heap s))
                 (root s) (leaves s)) in *.
    assert (Hs1 : same_shape h0 (heap s1)) by now apply same_shape_insert.
    destruct (IH (next ++ map (fun kv => (snd kv, path ++ [fst kv])) (children n0)) s1 Hs1)
      as (s' & Hrun & Hc & Hr & Hl & Hs' & Hin & Hout).
    { intros id p Hid. apply Hlevel. now right. }
    exists s'. split.
    { cbn [bfs_level]. unfold bind at 1. rewrite Hcall.
      unfold s1 in Hrun |- *.
      unfold bind at 1. unfold get_node at 1. cbn [heap].
      rewrite list_lookup_insert_eq by (rewrite (proj1 Hs); exact Hlt).
      cbn [children with_value]. rewrite Hrun.
      unfold level_children. cbn [flat_map fst snd]. rewrite Hn0.
      now rewrite app_assoc. }
    split; [exact Hc |]. split; [exact Hr |]. split; [exact Hl |].
    split; [exact Hs' |].
    assert (Hnode : value_at (heap s1) node = U).
    { simpl. rewrite value_at_insert by (rewrite (proj1 Hs); exact Hlt).
      now rewrite decide_True. }
    split.
    + intros id Hid. cbn [map fst] in Hid.
      destruct (decide (id ∈ map fst rest)) as [Hrest | Hrest];
        [now apply Hin |].
      apply elem_of_cons in Hid as [-> | Hid]; [| contradiction].
      rewrite (Hout node Hrest). exact Hnode.
    + intros id Hid. cbn [map fst] in Hid.
      apply not_elem_of_cons in Hid as [Hne Hid].
      rewrite (Hout id Hid). simpl.
      rewrite value_at_insert by (rewrite (proj1 Hs); exact Hlt).
      now rewrite decide_False.
Qed.

Lemma ancestor_below (h : list OLOPNode) (d : nat) :
  parents_below h -> forall id r, ancestor h d id = Some r -> (r + d <= id)%nat.
Proof.
  intros Hpb. induction d as [| d IH]; intros id r Ha; simpl in Ha.
  - destruct (h !! id); [| discriminate]. injection Ha as <-. lia.
  - destruct (h !! id) as [n |] eqn:Hn; [| discriminate].
    destruct (parent n) as [p |] eqn:Hp; [| discriminate].
    pose proof (Hpb _ _ _ Hn Hp). pose proof (IH _ _ Ha). lia.
Qed.

Lemma reachable_head (h : list OLOPNode) (x id : nat) :
  reachable h x id ->
  id = x \/
  exists n a c, h !! x = Some n /\ (a, c) ∈ children n /\ reachable h c id.
Proof.
  induction 1 as [n Hn | p n a c m _ IH Hp Hac Hm]; [now left |].
  right. destruct IH as [-> | (n0 & a0 & c0 & Hn0 & Hac0 & Hr0)].
  - exists n, a, c. split; [exact Hp |]. split; [exact Hac |].
    eapply reach_root; eassumption.
  - exists n0, a0, c0. split; [exact Hn0 |]. split; [exact Hac0 |].
    eapply reach_child; eassumption.
Qed.

Lemma elem_of_level_children (h : list OLOPNode) (level : list (nat * list Z))
    (c : nat) (p : list Z) :
  (c, p) ∈ level_children h level <->
  exists x path n a, (x, path) ∈ level /\ h !! x = Some n /\
    (a, c) ∈ children n /\ p = path ++ [a].
Proof.
  unfold level_children. rewrite list_elem_of_In, in_flat_map. split.
  - intros ([x path] & Hin & Hc). simpl in Hc.
    destruct (h !! x) as [n |] eqn:Hn; [| destruct Hc].
    apply in_map_iff in Hc as ([a c'] & [= <- <-] & Hac).
    exists x, path, n, a. rewrite !list_elem_of_In. auto.
  - intros (x & path & n & a & Hin & Hn & Hac & ->).
    exists (x, path). split; [now apply list_elem_of_In |]. simpl. rewrite Hn.
    apply in_map_iff. exists (a, c). split; [reflexivity | now apply list_elem_of_In].
Qed.

Lemma elem_of_map_fst (level : list (nat * list Z)) (x : nat) :
  x ∈ map fst level <-> exists path, (x, path) ∈ level.
Proof.
  rewrite list_elem_of_In, in_map_iff. split.
  - intros ([x' path] & <- & Hin). exists path. now apply list_elem_of_In.
  - intros (path & Hin). exists (x, path). split; [reflexivity | now apply list_elem_of_In].
Qed.

(** The traversal from a level of depth [d] on: every node below the level
    receives its [U_of], the nodes above it keep their value. *)
Lemma breadth_first_search_run (h0 : list OLOPNode) :
  parents_below h0 -> child_parent h0 ->
  forall (fuel d : nat) (level : list (nat * list Z)) (s : OLOP),
  (length h0 <= d + fuel)%nat ->
  same_shape h0 (heap s) ->
  (forall id path, (id, path) ∈ level -> at_depth h0 id d /\ length path = d) ->
  exists s',
    breadth_first_search fuel level compute_u_values s = (Ok tt, s') /\
    config_of s' = config_of s /\ root s' = root s /\ leaves s' = leaves s /\
    same_shape h0 (heap s') /\
    (forall x id dd, x ∈ map fst level -> reachable h0 x id -> at_depth h0 id dd ->
       value_at (heap s') id = U_of (cfg_gamma (config_of s)) h0 id dd) /\
    (forall id dd, at_depth h0 id dd -> (dd < d)%nat ->
       value_at (heap s') id = value_at (heap s) id).
Proof.
  intros Hpb Hcp. induction fuel as [| fuel IH]; intros d level s Hfuel Hs Hlevel.
  - destruct level as [| [x path] rest].
    + exists s. simpl. unfold ret. do 4 (split; [reflexivity |]).
      split; [exact Hs |].
      split; [intros x id dd Hx; now apply elem_of_nil in Hx | reflexivity].
    + exfalso. destruct (Hlevel x path ltac:(left)) as [(r & Ha & _) _].
      pose proof (ancestor_below _ _ Hpb _ _ Ha).
      assert (x < length h0)%nat; [| lia].
      destruct d; simpl in Ha; destruct (h0 !! x) eqn:Hx; try discriminate;
        eapply lookup_lt_Some; eassumption.
  - destruct level as [| e rest].
    + exists s. simpl. unfold ret. do 4 (split; [reflexivity |]).
      split; [exact Hs |].
      split; [intros x id dd Hx; now apply elem_of_nil in Hx | reflexivity].
    + set (level := e :: rest) in *.
      destruct (bfs_level_run h0 d level [] s Hs Hlevel)
        as (s1 & Hrun1 & Hc1 & Hr1 & Hl1 & Hs1 & Hin1 & Hout1).
      destruct (IH (S d) (level_children h0 level) s1) as
        (s' & Hrun & Hc & Hr & Hl & Hs' & Hbelow & Habove).
      { lia. }
      { exact Hs1. }
      { intros c p Hcp'. apply elem_of_level_children in Hcp'
          as (x & path & n & a & Hx & Hn & Hac & ->).
        destruct (Hlevel x path Hx) as [Hd Hlen].
        destruct (Hcp _ _ _ _ Hn Hac) as (m & Hm & Hpm).
        split; [eapply at_depth_child; eassumption |].
        rewrite length_app. simpl. lia. }
      exists s'. split.
      { change (breadth_first_search (S fuel) level compute_u_values s) with
          (bind (bfs_level compute_u_values level [])
             (fun next => breadth_first_search fuel next compute_u_values) s).
        unfold bind. rewrite Hrun1. exact Hrun. }
      split; [congruence |]. split; [congruence |]. split; [congruence |].
      split; [exact Hs' |]. rewrite Hc1 in Hbelow. split.
      * intros x id dd Hx Hreach Hdd.
        destruct (reachable_head _ _ _ Hreach) as [-> | (n & a & c & Hn & Hac & Hrc)].
        -- pose proof Hx as Hx'. apply elem_of_map_fst in Hx' as (path & Hxp).
           destruct (Hlevel x path Hxp) as [Hd _].
           pose proof (at_depth_unique _ _ _ _ Hdd Hd) as ->.
           rewrite (Habove x d Hd) by lia. now apply Hin1.
        -- apply elem_of_map_fst in Hx as (path & Hxp).
           apply (Hbelow c); [| exact Hrc | exact Hdd].
           apply elem_of_map_fst. exists (path ++ [a]).
           apply elem_of_level_children. exists x, path, n, a. auto.
      * intros id dd Hdd Hlt. rewrite (Habove id dd Hdd) by lia.
        apply Hout1. intros Hid. apply elem_of_map_fst in Hid as (path & Hid).
        destruct (Hlevel id path Hid) as [Hd _].
        pose proof (at_depth_unique _ _ _ _ Hdd Hd). lia.
Qed.

(** C2: the first value pass gives every node of the tree, at depth [d], the
    value [U(node)]: the sum over [t = 1 .. d] of [gamma^t * mu_ucb] of the
    ancestor at depth [t], plus the tail [gamma^(d+1) / (1 - gamma)], or 0
    for a terminal node.  This is what each call of [compute_u_values] on a
    node with a path of its depth's length stores, changing nothing
    else. *)
Theorem first_pass_assigns_U (s : OLOP) (r : nat) :
  (0 < cfg_gamma (config_of s) < 1)%R ->
  parents_below (heap s) -> child_parent (heap s) -> is_root (heap s) r ->
  (forall node path n,
     heap s !! node = Some n -> at_depth (heap s) node (length path) ->
     compute_u_values node path s =
     (Ok (path, U_spec (cfg_gamma (config_of s)) (heap s) node (length path) (done n)),
      mkOLOP (config_of s)
        (<[node := with_value
                     (U_spec (cfg_gamma (config_of s)) (heap s) node (length path)
                        (done n)) n]> (heap s))
        (root s) (leaves s))) /\
  exists s',
    first_pass r s = (Ok tt, s') /\
    config_of s' = config_of s /\ root s' = root s /\ leaves s' = leaves s /\
    same_shape (heap s) (heap s') /\
    forall id d n,
      reachable (heap s) r id -> at_depth (heap s) id d -> heap s !! id = Some n ->
      value_at (heap s') id = U_spec (cfg_gamma (config_of s)) (heap s) id d (done n).
Proof.
  intros _ Hpb Hcp Hroot. split.
  { intros node path n Hn Hd. now apply compute_u_values_run. }
  destruct (breadth_first_search_run (heap s) Hpb Hcp (length (heap s)) 0
              [(r, [])] s) as (s' & Hrun & Hc & Hr & Hl & Hs' & Hbelow & _).
  - lia.
  - apply same_shape_refl.
  - intros id path Hin. apply list_elem_of_singleton in Hin. injection Hin as -> ->.
    split; [| reflexivity]. exists r. split; [| exact Hroot].
    destruct Hroot as (n & Hn & _). simpl. now rewrite Hn.
  - exists s'. split; [exact Hrun |]. do 3 (split; [assumption |]).
    split; [exact Hs' |].
    intros id d n Hreach Hd Hn.
    rewrite (Hbelow r id d); [| now left | exact Hreach | exact Hd].
    unfold U_of, done_at. now rewrite Hn.
Qed.

Lemma parents_below_sample : parents_below (heap sample_planner).
Proof.
  intros id n p Hn Hp. destruct id as [| [| id]]; simpl in Hn.
  - injection Hn as <-. discriminate.
  - injection Hn as <-. injection Hp as <-. lia.
  - discriminate.
Qed.

Lemma child_parent_sample : child_parent (heap sample_planner).
Proof.
  intros id n a c Hn Hac. destruct id as [| [| id]]; simpl in Hn.
  - injection Hn as <-. simpl in Hac.
    apply list_elem_of_singleton in Hac. injection Hac as -> ->.
    exists sample_child. split; reflexivity.
  - injection Hn as <-. now apply elem_of_nil in Hac.
  - discriminate.
Qed.

Lemma first_pass_assigns_U_witness :
  exists s',
    first_pass 0 sample_planner = (Ok tt, s') /\
    value_at (heap s') 1 = U_spec (1 / 2) [sample_root; sample_child] 1 1 false.
Proof.
  destruct (first_pass_assigns_U sample_planner 0) as (_ & s' & Hrun & _ & _ & _ & _ & HU).
  - simpl. lra.
  - apply parents_below_sample.
  - apply child_parent_sample.
  - exists sample_root. split; reflexivity.
  - exists s'. split; [exact Hrun |].
    apply (HU 1%nat 1%nat sample_child).
    + eapply reach_child with (p := 0%nat) (a := 0);
        [eapply reach_root; reflexivity | reflexivity | now left | reflexivity].
    + exists 0%nat. split; [reflexivity |]. exists sample_root. split; reflexivity.
    + reflexivity.
Defined.

(** ** Further checks *)

(** Whenever the attempted action is missing from a non-empty children
    dict, the rollout stops with [TypeError], the planner untouched. *)
Lemma execute_sequence_missing_action `{Collaborators} (s : OLOP) (node : nat)
    (n : OLOPNode) (action : Z) (rest : list Z) (state : env) :
  heap s !! node = Some n -> children n <> [] ->
  dict_mem action (children n) = false ->
  execute_sequence (action :: rest) node state s = (Raise TypeError, s).
Proof.
  intros Hn Hne Hmem. cbn [execute_sequence].
  destruct (env_step state action) as [[state' reward] done_].
  unfold bind at 1. unfold get_node at 1. rewrite Hn.
  destruct (children n) as [| kv kvs] eqn:Hch; [contradiction |].
  unfold bind at 1. unfold ret at 1.
  unfold bind at 1. unfold get_node at 1. rewrite Hn.
  rewrite Hch, Hmem. reflexivity.
Qed.

Lemma allocate_loop_first (B : Z) (gamma : R) (e : Z) :
  1 <= e < B -> B < e * horizon e gamma ->
  (forall e', 1 <= e' < e -> e' * horizon e' gamma <= B) ->
  allocate_loop B gamma (seqZ 1 (B - 1)) = Some e.
Proof.
  intros He Hgt Hpre.
  destruct (allocate_loop B gamma (seqZ 1 (B - 1))) as [e0 |] eqn:Hloop.
  - apply allocate_loop_range_Some in Hloop as (He0 & Hgt0 & Hpre0).
    f_equal. destruct (Z.lt_trichotomy e0 e) as [Hlt | [-> | Hlt]].
    + pose proof (Hpre e0 ltac:(lia)). lia.
    + reflexivity.
    + pose proof (Hpre0 e ltac:(lia)). lia.
  - pose proof (proj1 (allocate_loop_range_None B gamma) Hloop e He). lia.
Qed.

(** The spec's scenario: budget 100 and gamma 0.9 give 9 episodes of
    horizon 11. *)
Example allocate_budget_scenario :
  allocate_budget (new_planner (demo_config 100 (9 / 10) None None)) =
  (Ok tt, new_planner (demo_config 100 (9 / 10) (Some 9) (Some 11))).
Proof.
  assert (Hg : (0 < 9 / 10 < 1)%R) by lra.
  assert (H9 : horizon 9 (9 / 10) = 11).
  { apply (horizon_band (9 / 10) 9 10); [lra | lia |]. simpl. lra. }
  assert (H10 : horizon 10 (9 / 10) = 11).
  { apply (horizon_band (9 / 10) 10 10); [lra | lia |]. simpl. lra. }
  rewrite allocate_budget_unfold. simpl config_of. simpl cfg_budget. simpl cfg_gamma.
  rewrite (allocate_loop_first 100 (9 / 10) 10).
  - change (10 - 1) with 9. rewrite H9. reflexivity.
  - lia.
  - rewrite H10. lia.
  - intros e' He'.
    pose proof (cost_mono (9 / 10) e' 9 Hg ltac:(lia)) as Hc. rewrite H9 in Hc. lia.
Qed.

(** * Further properties of the code *)

(** ** [OLOPNode.update] on an admissible reward *)

Lemma modify_node_run (self : nat) (f : OLOPNode -> OLOPNode) (s : OLOP)
    (n : OLOPNode) :
  heap s !! self = Some n ->
  modify_node self f s =
  (Ok tt, mkOLOP (config_of s) (<[self := f n]> (heap s)) (root s) (leaves s)).
Proof.
  intros Hn. unfold modify_node, bind, get_node, put_node. now rewrite Hn.
Qed.

Lemma modify_node_twice (self : nat) (f g : OLOPNode -> OLOPNode) (s : OLOP)
    (n : OLOPNode) :
  heap s !! self = Some n ->
  (modify_node self f ;; modify_node self g) s =
  (Ok tt, mkOLOP (config_of s) (<[self := g (f n)]> (heap s)) (root s) (leaves s)).
Proof.
  intros Hn. pose proof (lookup_lt_Some _ _ _ Hn) as Hlt.
  unfold bind. rewrite (modify_node_run self f s n Hn).
  rewrite (modify_node_run self g _ (f n)) by (now apply list_lookup_insert_eq).
  cbn [config_of heap root leaves]. now rewrite list_insert_insert_eq.
Qed.

Lemma update_run `{Collaborators} (s : OLOP) (self : nat) (n : OLOPNode)
    (reward : R) (done_ : bool) (e : Z) :
  (0 <= reward <= 1)%R ->
  heap s !! self = Some n ->
  cfg_episodes (config_of s) = Some e ->
  update self reward done_ s =
  (Ok tt,
   mkOLOP (config_of s)
     (<[self := updated_node (config_of s) e reward done_ n]> (heap s))
     (root s) (leaves s)).
Proof.
  intros [H0 H1] Hn He. pose proof (lookup_lt_Some _ _ _ Hn) as Hlt.
  unfold update.
  destruct (Rle_dec 0 reward) as [_ | Hc]; [| contradiction].
  destruct (Rle_dec reward 1) as [_ | Hc]; [| contradiction].
  unfold bind at 1. rewrite (modify_node_run _ _ s n Hn).
  unfold bind at 1.
  rewrite (modify_node_run _ _ _
             (with_stats (count n) (cumulative_reward n + reward) n))
    by (now apply list_lookup_insert_eq).
  cbn [config_of heap root leaves]. rewrite list_insert_insert_eq.
  unfold bind at 1. unfold get_config at 1. cbn [config_of].
  set (n2 := with_stats _ _ (with_stats _ _ n)).
  assert (Hlk : forall x, <[self := x]> (heap s) !! self = Some x)
    by (intros x; now apply list_lookup_insert_eq).
  unfold updated_node.
  destruct (String.eqb (cfg_upper_bound (config_of s)) "hoeffding").
  - unfold bind at 1. unfold bind at 1.
    unfold config_episodes, bind, get_config. cbn [config_of]. rewrite He.
    unfold ret at 1. rewrite (modify_node_run _ _ _ n2) by apply Hlk.
    cbn [config_of heap root leaves]. rewrite list_insert_insert_eq.
    destruct done_; cbn [andb STOP_ON_ANY_TERMINAL_STATE orb].
    + erewrite modify_node_run by apply Hlk.
      cbn [config_of heap root leaves]. now rewrite list_insert_insert_eq.
    + reflexivity.
  - destruct (String.eqb (cfg_upper_bound (config_of s)) "kullback-leibler").
    + unfold bind at 1. unfold bind at 1.
      unfold config_episodes, bind, get_config. cbn [config_of]. rewrite He.
      unfold ret at 1. rewrite (modify_node_run _ _ _ n2) by apply Hlk.
      cbn [config_of heap root leaves]. rewrite list_insert_insert_eq.
      destruct done_; cbn [andb STOP_ON_ANY_TERMINAL_STATE orb].
      * erewrite modify_node_run by apply Hlk.
        cbn [config_of heap root leaves]. now rewrite list_insert_insert_eq.
      * reflexivity.
    + unfold bind at 1. unfold ret at 1.
      destruct done_; cbn [andb STOP_ON_ANY_TERMINAL_STATE orb].
      * erewrite modify_node_run by apply Hlk.
        cbn [config_of heap root leaves]. now rewrite list_insert_insert_eq.
      * reflexivity.
Qed.

(** X1: on a reward of [0,1], with an episode count configured, [update]
    succeeds: the node's [count] grows by one, its [cumulative_reward] by the
    reward, [mu_ucb] is the configured oracle applied to the new statistics
    (and is left alone when [upper_bound] names neither oracle), the terminal
    flag is raised by [done] and never lowered, and nothing else changes. *)
Theorem update_in_range `{Collaborators} (s : OLOP) (self : nat) (n : OLOPNode)
    (reward : R) (done_ : bool) (e : Z) :
  (0 <= reward <= 1)%R ->
  heap s !! self = Some n ->
  cfg_episodes (config_of s) = Some e ->
  exists n',
    update self reward done_ s =
      (Ok tt, mkOLOP (config_of s) (<[self := n']> (heap s)) (root s) (leaves s)) /\
    count n' = count n + 1 /\
    cumulative_reward n' = (cumulative_reward n + reward)%R /\
    mu_ucb n' =
      (if String.eqb (cfg_upper_bound (config_of s)) "hoeffding"
       then hoeffding_upper_bound (cumulative_reward n + reward) (count n + 1) e
       else if String.eqb (cfg_upper_bound (config_of s)) "kullback-leibler"
       then kl_upper_bound (cumulative_reward n + reward) (count n + 1) e
       else mu_ucb n) /\
    done n' = (done_ || done n) /\
    parent n' = parent n /\ children n' = children n /\ value n' = value n.
Proof.
  intros Hr Hn He.
  exists (updated_node (config_of s) e reward done_ n).
  split; [now apply update_run |]. repeat split.
Qed.

Lemma update_in_range_witness :
  exists n',
    @update demo_collaborators 1 (1 / 2)%R true sample_planner =
      (Ok tt, mkOLOP (config_of sample_planner) (<[1%nat := n']> (heap sample_planner))
                (root sample_planner) (leaves sample_planner)) /\
    count n' = 2 + 1 /\
    cumulative_reward n' = (1 + 1 / 2)%R /\
    mu_ucb n' = PInf /\
    done n' = true /\
    parent n' = Some 0%nat /\ children n' = [] /\ value n' = Fin 0.
Proof.
  apply (@update_in_range demo_collaborators sample_planner 1 sample_child
           (1 / 2)%R true 5); [lra | reflexivity | reflexivity].
Defined.

(** X2: without an episode count, an [update] under either oracle raises the
    lookup error only after [cumulative_reward] and [count] have been
    written: the failed call is not atomic. *)
Theorem update_without_episodes `{Collaborators} (s : OLOP) (self : nat)
    (n : OLOPNode) (reward : R) (done_ : bool) :
  (0 <= reward <= 1)%R ->
  heap s !! self = Some n ->
  cfg_episodes (config_of s) = None ->
  cfg_upper_bound (config_of s) = "hoeffding" \/
  cfg_upper_bound (config_of s) = "kullback-leibler" ->
  update self reward done_ s =
  (Raise KeyError,
   mkOLOP (config_of s)
     (<[self := with_stats (count n + 1) (cumulative_reward n + reward) n]> (heap s))
     (root s) (leaves s)).
Proof.
  intros [H0 H1] Hn He Hub. pose proof (lookup_lt_Some _ _ _ Hn) as Hlt.
  unfold update.
  destruct (Rle_dec 0 reward) as [_ | Hc]; [| contradiction].
  destruct (Rle_dec reward 1) as [_ | Hc]; [| contradiction].
  unfold bind at 1. rewrite (modify_node_run _ _ s n Hn).
  unfold bind at 1.
  rewrite (modify_node_run _ _ _
             (with_stats (count n) (cumulative_reward n + reward) n))
    by (now apply list_lookup_insert_eq).
  cbn [config_of heap root leaves]. rewrite list_insert_insert_eq.
  unfold bind at 1. unfold get_config at 1. cbn [config_of].
  destruct Hub as [-> | ->]; cbn [String.eqb Ascii.eqb Bool.eqb];
    unfold bind at 1; unfold bind at 1;
    unfold config_episodes, bind, get_config; cbn [config_of]; rewrite He;
    reflexivity.
Qed.

Lemma update_without_episodes_witness :
  @update demo_collaborators 0 (1 / 2)%R false
    (mkOLOP (demo_config 10 (1 / 2) None (Some 1)) [sample_root] (Some 0%nat) [0%nat]) =
  (Raise KeyError,
   mkOLOP (demo_config 10 (1 / 2) None (Some 1))
     (<[0%nat := with_stats (0 + 1) (0 + 1 / 2) sample_root]> [sample_root])
     (Some 0%nat) [0%nat]).
Proof.
  apply (@update_without_episodes demo_collaborators
           (mkOLOP (demo_config 10 (1 / 2) None (Some 1)) [sample_root]
                   (Some 0%nat) [0%nat]) 0 sample_root (1 / 2)%R false);
    [lra | reflexivity | reflexivity | left; reflexivity].
Defined.

(** X3: after [k] successive updates of one node with rewards of [0,1], its
    [count] has grown by [k], its [cumulative_reward] by the sum of the
    rewards, and it is terminal exactly when it was before or one of the
    updates reported [done]; its place in the tree and every other node are
    untouched. *)
Theorem update_seq_totals `{Collaborators} (self : nat) (e : Z)
    (samples : list (R * bool)) :
  forall (s : OLOP) (n : OLOPNode),
  Forall (fun p => (0 <= fst p <= 1)%R) samples ->
  heap s !! self = Some n ->
  cfg_episodes (config_of s) = Some e ->
  exists n',
    update_seq self samples s =
      (Ok tt, mkOLOP (config_of s) (<[self := n']> (heap s)) (root s) (leaves s)) /\
    count n' = count n + Z.of_nat (length samples) /\
    cumulative_reward n' = (cumulative_reward n + Rsum (map fst samples))%R /\
    done n' = (existsb snd samples || done n) /\
    parent n' = parent n /\ children n' = children n /\ value n' = value n.
Proof.
  induction samples as [| [reward done_] rest IH]; intros s n Hall Hn He.
  - exists n. split.
    + simpl. unfold ret. destruct s as [c h r l]. simpl in *.
      now rewrite list_insert_id.
    + simpl. unfold Rsum. simpl. repeat split; try lia. lra.
  - pose proof (lookup_lt_Some _ _ _ Hn) as Hlt.
    apply Forall_cons in Hall as [Hr Hall]. simpl in Hr.
    set (n1 := updated_node (config_of s) e reward done_ n).
    destruct (IH (mkOLOP (config_of s) (<[self := n1]> (heap s)) (root s) (leaves s))
                 n1 Hall)
      as (n' & Hrun & Hcnt & Hcum & Hdone & Hpar & Hch & Hval).
    { now apply list_lookup_insert_eq. }
    { exact He. }
    exists n'. split.
    + cbn [update_seq]. unfold bind. rewrite (update_run s self n reward done_ e Hr Hn He).
      fold n1. rewrite Hrun. cbn [config_of heap root leaves].
      now rewrite list_insert_insert_eq.
    + rewrite Hcnt, Hcum, Hdone, Hpar, Hch, Hval.
      unfold n1, updated_node, Rsum. simpl.
      repeat split; try lia; try lra.
      destruct done_, (existsb snd rest), (done n); reflexivity.
Qed.

Lemma update_seq_totals_witness :
  exists n',
    @update_seq demo_collaborators 1 [(1, false); (1, false); (0, true)]%R
      sample_planner =
      (Ok tt, mkOLOP (config_of sample_planner) (<[1%nat := n']> (heap sample_planner))
                (root sample_planner) (leaves sample_planner)) /\
    count n' = 2 + Z.of_nat 3 /\
    cumulative_reward n' = (1 + Rsum [1; 1; 0])%R /\
    done n' = (true || false) /\
    parent n' = Some 0%nat /\ children n' = [] /\ value n' = Fin 0.
Proof.
  apply (@update_seq_totals demo_collaborators 1 5
           [(1, false); (1, false); (0, true)]%R sample_planner sample_child).
  - repeat constructor; simpl; lra.
  - reflexivity.
  - reflexivity.
Defined.

(** ** What a computation leaves in place, whatever its outcome *)

Section Preserves.
Context {P : OLOP -> OLOP -> Prop}.
Hypothesis P_refl : forall s, P s s.
Hypothesis P_trans : forall s1 s2 s3, P s1 s2 -> P s2 s3 -> P s1 s3.

Lemma preserves_ret {A} (a : A) : preserves P (ret a).
Proof. intros s o s' [= _ <-]. apply P_refl. Qed.

Lemma preserves_raise {A} (e : exn) : preserves P (@raise A e).
Proof. intros s o s' [= _ <-]. apply P_refl. Qed.

Lemma preserves_bind {A B} (m : M A) (k : A -> M B) :
  preserves P m -> (forall a, preserves P (k a)) -> preserves P (bind m k).
Proof.
  intros Hm Hk s o s' Hrun. unfold bind in Hrun.
  destruct (m s) as [[a | e] s1] eqn:Hms.
  - eapply P_trans; [eapply Hm | eapply Hk]; eassumption.
  - injection Hrun as _ <-. eapply Hm; eassumption.
Qed.

(** A computation that hands back the state it was given. *)
Lemma preserves_read {A} (m : M A) :
  (forall s, snd (m s) = s) -> preserves P m.
Proof.
  intros Hread s o s' Hrun. pose proof (Hread s) as Hs. rewrite Hrun in Hs.
  simpl in Hs. subst s'. apply P_refl.
Qed.

End Preserves.

Lemma get_node_read (id : nat) (s : OLOP) : snd (get_node id s) = s.
Proof. unfold get_node. now destruct (heap s !! id). Qed.

Lemma get_config_read (s : OLOP) : snd (get_config s) = s.
Proof. reflexivity. Qed.

Lemma config_episodes_read (s : OLOP) : snd (config_episodes s) = s.
Proof.
  unfold config_episodes, bind, get_config. now destruct (cfg_episodes (config_of s)).
Qed.

Lemma config_horizon_read (s : OLOP) : snd (config_horizon s) = s.
Proof.
  unfold config_horizon, bind, get_config. now destruct (cfg_horizon (config_of s)).
Qed.

Lemma shape_eq_refl (s : OLOP) : shape_eq s s.
Proof. repeat split; eauto. Qed.

Lemma shape_eq_trans (s1 s2 s3 : OLOP) :
  shape_eq s1 s2 -> shape_eq s2 s3 -> shape_eq s1 s3.
Proof.
  intros (Hc & Hr & Hl & Hlen & Hn) (Hc' & Hr' & Hl' & Hlen' & Hn').
  repeat split; try congruence.
  intros id n Hid. destruct (Hn _ _ Hid) as (n2 & Hn2 & Hp2 & Hk2).
  destruct (Hn' _ _ Hn2) as (n3 & Hn3 & Hp3 & Hk3).
  exists n3. repeat split; congruence.
Qed.

Lemma shape_eq_sym (s s' : OLOP) : shape_eq s s' -> shape_eq s' s.
Proof.
  intros (Hc & Hr & Hl & Hlen & Hn). repeat split; try congruence.
  intros id n' Hn'. pose proof (lookup_lt_Some _ _ _ Hn') as Hlt.
  rewrite Hlen in Hlt. destruct (lookup_lt_is_Some_2 _ _ Hlt) as (n & Hid).
  destruct (Hn _ _ Hid) as (n'' & Hn'' & Hp & Hk).
  exists n. rewrite Hn' in Hn''. injection Hn'' as <-. auto.
Qed.

Lemma node_frame_shape_eq (ch : nat) (s s' : OLOP) :
  node_frame ch s s' -> shape_eq s s'.
Proof.
  intros (Hc & Hr & Hl & Hlen & Hother & Hch).
  repeat split; try assumption.
  intros id n Hn. destruct (decide (id = ch)) as [-> | Hne].
  - now apply Hch.
  - exists n. rewrite Hother by assumption. auto.
Qed.

Lemma preserves_weaken {A} (P Q : OLOP -> OLOP -> Prop) (m : M A) :
  (forall s s', P s s' -> Q s s') -> preserves P m -> preserves Q m.
Proof. intros HPQ Hm s o s' Hrun. eapply HPQ, Hm, Hrun. Qed.

Lemma preserves_modify_node (ch : nat) (f : OLOPNode -> OLOPNode) :
  (forall n, parent (f n) = parent n /\ children (f n) = children n) ->
  preserves (node_frame ch) (modify_node ch f).
Proof.
  intros Hf s o s'. unfold modify_node, bind, get_node, put_node.
  destruct (heap s !! ch) as [n |] eqn:Hn.
  - intros [= _ <-]. pose proof (lookup_lt_Some _ _ _ Hn) as Hlt.
    repeat split; simpl.
    + apply length_insert.
    + intros id Hne. now apply list_lookup_insert_ne.
    + intros m Hm. rewrite Hn in Hm. injection Hm as <-.
      exists (f n). split; [now apply list_lookup_insert_eq | apply Hf].
  - intros [= _ <-]. apply node_frame_refl.
Qed.

Lemma update_preserves `{Collaborators} (ch : nat) (reward : R) (done_ : bool) :
  preserves (node_frame ch) (update ch reward done_).
Proof.
  unfold update.
  destruct (Rle_dec 0 reward);
    [| apply preserves_raise; apply node_frame_refl].
  destruct (Rle_dec reward 1);
    [| apply preserves_raise; apply node_frame_refl].
  repeat first
    [ apply preserves_modify_node; intros ?; split; reflexivity
    | apply (preserves_read (node_frame_refl ch)); apply get_config_read
    | apply (preserves_read (node_frame_refl ch)); apply config_episodes_read
    | apply preserves_ret; apply node_frame_refl
    | match goal with |- preserves _ (if ?b then _ else _) => destruct b end
    | apply (preserves_bind (node_frame_trans ch)); [| intros ?] ].
Qed.

(** ** The structural invariants *)

Lemma child_parent_in_heap (h : list OLOPNode) :
  child_parent h -> children_in_heap h.
Proof.
  intros Hcp id n a c Hn Hac. destruct (Hcp _ _ _ _ Hn Hac) as (m & Hm & _).
  eapply lookup_lt_Some; eassumption.
Qed.

Lemma wf_tree_shape_eq (s s' : OLOP) :
  shape_eq s s' -> wf_tree (heap s) -> wf_tree (heap s').
Proof.
  intros Hse [Hpb Hcp]. pose proof (shape_eq_sym _ _ Hse) as Hes.
  destruct Hse as (_ & _ & _ & _ & Hfw). destruct Hes as (_ & _ & _ & _ & Hbw).
  split.
  - intros id n' p Hn' Hp. destruct (Hbw _ _ Hn') as (n & Hn & Hpn & _).
    apply (Hpb id n p Hn). congruence.
  - intros id n' a c Hn' Hac. destruct (Hbw _ _ Hn') as (n & Hn & _ & Hkn).
    rewrite <- Hkn in Hac. destruct (Hcp _ _ _ _ Hn Hac) as (m & Hm & Hpm).
    destruct (Hfw _ _ Hm) as (m' & Hm' & Hpm' & _).
    exists m'. split; [exact Hm' | congruence].
Qed.

Lemma reachable_shape_eq (s s' : OLOP) (r id : nat) :
  shape_eq s s' -> reachable (heap s) r id -> reachable (heap s') r id.
Proof.
  intros (_ & _ & _ & _ & Hfw). apply reachable_mono.
  intros p n Hn. destruct (Hfw _ _ Hn) as (n' & Hn' & _ & Hk).
  exists n'. split; [exact Hn' |]. now rewrite Hk.
Qed.

Lemma childless_shape_eq (s s' : OLOP) (id : nat) :
  shape_eq s s' -> childless (heap s) id -> childless (heap s') id.
Proof.
  intros (_ & _ & _ & _ & Hfw) (n & Hn & Hk).
  destruct (Hfw _ _ Hn) as (n' & Hn' & _ & Hk'). exists n'. split; congruence.
Qed.

Lemma frontier_inv_shape_eq (s s' : OLOP) :
  shape_eq s s' -> frontier_inv s -> frontier_inv s'.
Proof.
  intros Hse (r & Hroot & Hnd & Hfront).
  pose proof (shape_eq_sym _ _ Hse) as Hes.
  destruct Hse as (Hc & Hr & Hl & Hlen & Hfw) eqn:E. clear E.
  exists r. split; [congruence |]. split; [congruence |].
  intros id. rewrite Hl, Hfront. split.
  - intros [Hreach Hch]. split.
    + eapply reachable_shape_eq; [| exact Hreach]. now apply shape_eq_sym.
    + eapply childless_shape_eq; [| exact Hch]. now apply shape_eq_sym.
  - intros [Hreach Hch]. split.
    + eapply reachable_shape_eq; eassumption.
    + eapply childless_shape_eq; eassumption.
Qed.

Lemma planner_inv_shape_eq (s s' : OLOP) :
  shape_eq s s' -> planner_inv s -> planner_inv s'.
Proof.
  intros Hse [Hwf Hfr]. split.
  - eapply wf_tree_shape_eq; eassumption.
  - eapply frontier_inv_shape_eq; eassumption.
Qed.

(** A childless node receives fresh, childless children: the arena stays
    well formed. *)
Lemma grow_step_wf (h h1 : list OLOPNode) (self : nat) (n : OLOPNode)
    (actions : list Z) :
  h !! self = Some n -> children n = [] ->
  (exists n', h1 !! self = Some n' /\ parent n' = parent n /\
     children n' = zip actions (seq (length h) (length actions))) ->
  (forall id, id <> self -> (id < length h)%nat -> h1 !! id = h !! id) ->
  (forall id, (length h <= id < length h + length actions)%nat ->
     exists m, h1 !! id = Some m /\ parent m = Some self /\ children m = []) ->
  length h1 = (length h + length actions)%nat ->
  wf_tree h -> wf_tree h1.
Proof.
  intros Hn Hch (n' & Hn' & Hp' & Hk') Hother Hnew Hlen [Hpb Hcp].
  pose proof (lookup_lt_Some _ _ _ Hn) as Hlt.
  assert (Hcases : forall id m, h1 !! id = Some m ->
            (id = self /\ m = n') \/
            (id <> self /\ (id < length h)%nat /\ h !! id = Some m) \/
            ((length h <= id)%nat /\ parent m = Some self /\ children m = [])).
  { intros id m Hm. destruct (decide (id = self)) as [-> | Hne].
    - left. split; [reflexivity | congruence].
    - right. destruct (decide (id < length h)%nat) as [Hold | Hfresh].
      + left. rewrite Hother in Hm by assumption. auto.
      + right. pose proof (lookup_lt_Some _ _ _ Hm) as Hid. rewrite Hlen in Hid.
        destruct (Hnew id ltac:(lia)) as (m' & Hm' & Hpm & Hkm).
        rewrite Hm' in Hm. injection Hm as <-. split; [lia | auto]. }
  split.
  - intros id m p Hm Hp.
    destruct (Hcases id m Hm) as [[-> ->] | [(Hne & Hold & Hm0) | (Hge & Hpm & _)]].
    + apply (Hpb self n p Hn). congruence.
    + apply (Hpb id m p Hm0 Hp).
    + rewrite Hpm in Hp. injection Hp as <-. lia.
  - intros id m a c Hm Hac.
    destruct (Hcases id m Hm) as [[-> ->] | [(Hne & Hold & Hm0) | (Hge & _ & Hkm)]].
    + rewrite Hk' in Hac. apply elem_of_zip_seq in Hac.
      destruct (Hnew c Hac) as (mc & Hmc & Hpmc & _). eauto.
    + destruct (Hcp _ _ _ _ Hm0 Hac) as (mc & Hmc & Hpmc).
      destruct (decide (c = self)) as [-> | Hcne].
      * exists n'. split; [exact Hn' |]. rewrite Hn in Hmc. injection Hmc as <-.
        congruence.
      * exists mc. split; [| exact Hpmc]. rewrite Hother; [exact Hmc | exact Hcne |].
        eapply lookup_lt_Some; eassumption.
    + rewrite Hkm in Hac. now apply elem_of_nil in Hac.
Qed.

(** The same step keeps the frontier invariant when the frontier is updated
    as [expand] does and at least one child is created. *)
Lemma grow_step_frontier (s s' : OLOP) (self : nat) (n : OLOPNode)
    (actions : list Z) :
  frontier_inv s -> children_in_heap (heap s) -> self ∈ leaves s ->
  heap s !! self = Some n -> children n = [] -> actions <> [] ->
  root s' = root s ->
  leaves s' = filter (fun y => y <> self) (leaves s) ++
              seq (length (heap s)) (length actions) ->
  (exists n', heap s' !! self = Some n' /\ parent n' = parent n /\
     children n' = zip actions (seq (length (heap s)) (length actions))) ->
  (forall id, id <> self -> (id < length (heap s))%nat ->
     heap s' !! id = heap s !! id) ->
  (forall id, (length (heap s) <= id < length (heap s) + length actions)%nat ->
     exists m, heap s' !! id = Some m /\ parent m = Some self /\ children m = []) ->
  frontier_inv s'.
Proof.
  intros (r & Hroot & Hnd & Hfront) Hheap Hin Hn Hch Hnonempty Hr Hl
    (n' & Hn' & Hp' & Hk') Hother Hnew.
  destruct (proj1 (Hfront self) Hin) as [Hreach _].
  set (len := length (heap s)) in *.
  set (kids := seq len (length actions)) in *.
  assert (Hlenk : length actions = length kids) by (unfold kids; now rewrite length_seq).
  assert (Hgrow : forall p m, heap s !! p = Some m ->
            exists m', heap s' !! p = Some m' /\
              forall kv, kv ∈ children m -> kv ∈ children m').
  { intros p m Hm. destruct (decide (p = self)) as [-> | Hne].
    - exists n'. split; [exact Hn' |]. rewrite Hn in Hm. injection Hm as <-.
      rewrite Hch. intros kv Hkv. now apply elem_of_nil in Hkv.
    - exists m. split; [| auto]. rewrite Hother; [exact Hm | exact Hne |].
      eapply lookup_lt_Some; eassumption. }
  assert (Hback : forall id, reachable (heap s') r id ->
            ((id < len)%nat /\ reachable (heap s) r id) \/ id ∈ kids).
  { induction 1 as [m Hm | p m a c mc _ IH Hp Hac Hc'].
    - left. destruct (reachable_root_in_heap _ _ _ Hreach) as (m0 & Hm0).
      split; [eapply lookup_lt_Some; eassumption | eapply reach_root; eassumption].
    - destruct IH as [[Hplt Hpreach] | Hpkid].
      + destruct (decide (p = self)) as [-> | Hne].
        * right. rewrite Hn' in Hp. injection Hp as <-. rewrite Hk' in Hac.
          apply elem_of_zip_r in Hac. exact Hac.
        * left. rewrite Hother in Hp by assumption.
          pose proof (Hheap _ _ _ _ Hp Hac) as Hclt.
          destruct (lookup_lt_is_Some_2 (heap s) c Hclt) as (mc0 & Hmc0).
          split; [exact Hclt |]. eapply reach_child; eassumption.
      + apply elem_of_seq in Hpkid.
        destruct (Hnew p ltac:(lia)) as (m' & Hm' & _ & Hkm).
        rewrite Hm' in Hp. injection Hp as <-. rewrite Hkm in Hac.
        now apply elem_of_nil in Hac. }
  exists r. split; [congruence |]. split.
  - rewrite Hl. apply NoDup_app. split; [now apply NoDup_filter |].
    split; [| apply NoDup_seq].
    intros x Hx Hk. apply list_elem_of_filter in Hx as [_ Hx].
    apply elem_of_seq in Hk.
    pose proof (childless_lt _ _ (proj2 (proj1 (Hfront x) Hx))). lia.
  - intros id. rewrite Hl, elem_of_app, list_elem_of_filter. split.
    + intros [[Hne Hid] | Hid].
      * destruct (proj1 (Hfront id) Hid) as [Hr0 Hc0]. split.
        -- eapply reachable_mono; eassumption.
        -- pose proof (childless_lt _ _ Hc0). destruct Hc0 as (m & Hm & Hkm).
           exists m. split; [| exact Hkm]. now rewrite Hother.
      * pose proof Hid as Hid'. apply elem_of_seq in Hid'.
        destruct (Hnew id ltac:(lia)) as (m & Hm & Hpm & Hkm). split.
        -- destruct (zip_partner actions kids id Hlenk Hid) as (a & Ha).
           eapply reach_child;
             [eapply reachable_mono; [exact Hgrow | exact Hreach]
             | exact Hn' | rewrite Hk'; exact Ha | exact Hm].
        -- exists m. auto.
    + intros [Hr0 (m & Hm & Hkm)].
      destruct (Hback id Hr0) as [[Hlt0 Hreach0] | Hkid]; [| now right].
      left. assert (Hne : id <> self).
      { intros ->. rewrite Hn' in Hm. injection Hm as <-. rewrite Hk' in Hkm.
        destruct actions as [| a0 actions0]; [now apply Hnonempty |].
        unfold kids in Hkm. simpl in Hkm. discriminate. }
      split; [exact Hne |]. apply Hfront. split; [exact Hreach0 |].
      exists m. split; [| exact Hkm]. now rewrite <- Hother.
Qed.

Lemma expand_keeps_inv `{Collaborators} (s s' : OLOP) (self : nat) (state : env)
    (uc : bool) :
  planner_inv s -> self ∈ leaves s ->
  NoDup (available_actions state) -> available_actions state <> [] ->
  expand self (Some state) uc s = (Ok tt, s') ->
  planner_inv s'.
Proof.
  intros [Hwf Hfr] Hin Hnd Hne Hrun.
  pose proof Hfr as (r & Hroot & Hndl & Hfront).
  destruct (proj1 (Hfront self) Hin) as [_ (n & Hn & Hch)].
  destruct (expand_effect s s' self state uc n Hn Hch Hndl Hin Hnd Hrun)
    as (Hc & Hr & Hl & Hlen & Hself & Hother & Hnew).
  assert (Hnew' : forall id,
            (length (heap s) <= id <
             length (heap s) + length (available_actions state))%nat ->
            exists m, heap s' !! id = Some m /\ parent m = Some self /\ children m = []).
  { intros id Hid. apply Hnew. apply elem_of_seq. lia. }
  split.
  - eapply grow_step_wf; eassumption.
  - eapply grow_step_frontier; try eassumption.
    apply child_parent_in_heap, Hwf.
Qed.

Lemma expand_false_ok `{Collaborators} (s : OLOP) (self : nat) (state : env)
    (n : OLOPNode) :
  heap s !! self = Some n -> NoDup (leaves s) -> self ∈ leaves s ->
  exists s', expand self (Some state) false s = (Ok tt, s').
Proof.
  intros Hn Hnd Hin.
  destruct (expand_loop_false_ok self state (available_actions state) s n Hn)
    as (s1 & Hloop).
  destruct (expand_loop_spec self state false _ s s1 n Hn Hloop)
    as (_ & _ & Hl & _ & (n' & Hn' & _) & _).
  eexists. unfold expand. unfold bind at 1. rewrite Hloop.
  unfold bind at 1. unfold get_leaves at 1.
  rewrite Hl, (list_remove_NoDup self (leaves s) Hnd Hin).
  unfold bind at 1. unfold set_leaves at 1.
  unfold bind at 1. unfold get_node. cbn [heap]. rewrite Hn'.
  reflexivity.
Qed.

Lemma dict_mem_get (a : Z) (d : list (Z * nat)) :
  dict_mem a d = true -> exists c, dict_get a d = Some c.
Proof. unfold dict_mem. destruct (dict_get a d); [eauto | discriminate]. Qed.

(** A rollout keeps the structural invariants, however it ends. *)
Lemma execute_sequence_keeps_inv `{Collaborators} :
  offers_actions ->
  forall (best_sequence : list Z) (node : nat) (state : env) (s : OLOP)
         (o : outcome unit) (s' : OLOP) (r : nat),
  planner_inv s -> root s = Some r -> reachable (heap s) r node ->
  execute_sequence best_sequence node state s = (o, s') ->
  planner_inv s' /\ root s' = Some r.
Proof.
  intros Henv. induction best_sequence as [| action rest IH];
    intros node state s o s' r Hinv Hroot Hreach Hrun.
  - injection Hrun as _ <-. auto.
  - cbn [execute_sequence] in Hrun.
    destruct (env_step state action) as [[st' reward] done_].
    destruct (reachable_in_heap _ _ _ Hreach) as (n & Hn).
    unfold bind at 1 in Hrun. unfold get_node at 1 in Hrun. rewrite Hn in Hrun.
    unfold bind at 1 in Hrun.
    match type of Hrun with
    | match ?m s with _ => _ end = _ =>
        assert (Hfirst : exists s1, m s = (Ok tt, s1) /\ planner_inv s1 /\
                           root s1 = Some r /\ reachable (heap s1) r node)
    end.
    { destruct (children n) as [| kv kvs] eqn:Hch.
      - destruct Hinv as [Hwf Hfr]. pose proof Hfr as (r0 & Hr0 & Hnd & Hfront).
        assert (r0 = r) as -> by congruence.
        assert (Hin : node ∈ leaves s).
        { apply Hfront. split; [exact Hreach |]. exists n. auto. }
        destruct (expand_false_ok s node st' n Hn Hnd Hin) as (s1 & Hexp).
        destruct (Henv st') as [Hnda Hnea].
        exists s1. split; [exact Hexp |].
        split; [eapply (expand_keeps_inv s s1); try eassumption; split; assumption |].
        destruct (expand_effect s s1 node st' false n Hn Hch Hnd Hin Hnda Hexp)
          as (_ & Hr1 & _ & _ & (n' & Hn' & _) & Hother & _).
        split; [congruence |].
        eapply reachable_mono; [| exact Hreach].
        intros p m Hm. destruct (decide (p = node)) as [-> | Hne].
        + exists n'. split; [exact Hn' |]. rewrite Hn in Hm. injection Hm as <-.
          rewrite Hch. intros kv Hkv. now apply elem_of_nil in Hkv.
        + exists m. split; [| auto]. rewrite Hother; [exact Hm | exact Hne |].
          eapply lookup_lt_Some; eassumption.
      - exists s. split; [reflexivity | auto]. }
    destruct Hfirst as (s1 & Hf & Hinv1 & Hroot1 & Hreach1).
    rewrite Hf in Hrun. clear Hf.
    destruct (reachable_in_heap _ _ _ Hreach1) as (n1 & Hn1).
    unfold bind at 1 in Hrun. unfold get_node at 1 in Hrun. rewrite Hn1 in Hrun.
    unfold bind at 1 in Hrun.
    destruct (dict_mem action (children n1)) eqn:Hmem.
    + destruct (dict_mem_get _ _ Hmem) as (child & Hget).
      unfold ret at 1 in Hrun. rewrite Hget in Hrun.
      unfold bind at 1 in Hrun.
      destruct (update child reward done_ s1) as [[[] | e] s2] eqn:Hupd.
      * pose proof (update_preserves child reward done_ _ _ _ Hupd) as Hframe.
        apply node_frame_shape_eq in Hframe.
        pose proof (planner_inv_shape_eq _ _ Hframe Hinv1) as Hinv2.
        assert (Hroot2 : root s2 = Some r).
        { destruct Hframe as (_ & Hr2 & _). congruence. }
        destruct done_.
        -- injection Hrun as _ <-. auto.
        -- eapply (IH child st' s2); try eassumption.
           eapply reachable_shape_eq; [exact Hframe |].
           destruct Hinv1 as [[_ Hcp] _].
           pose proof (dict_get_in _ _ _ Hget) as Hin.
           destruct (Hcp _ _ _ _ Hn1 Hin) as (m & Hm & _).
           eapply reach_child; eassumption.
      * injection Hrun as _ <-.
        pose proof (update_preserves child reward done_ _ _ _ Hupd) as Hframe.
        apply node_frame_shape_eq in Hframe.
        split; [eapply planner_inv_shape_eq; eassumption |].
        destruct Hframe as (_ & Hr2 & _). congruence.
    + unfold raise at 1 in Hrun. injection Hrun as _ <-. auto.
Qed.

Lemma preserves_get_put {B} (id : nat) (g : OLOPNode -> OLOPNode) (k : unit -> M B) :
  (forall n, parent (g n) = parent n /\ children (g n) = children n) ->
  (forall u, preserves (node_frame id) (k u)) ->
  preserves (node_frame id)
    (bind (get_node id) (fun n => bind (put_node id (g n)) k)).
Proof.
  intros Hg Hk s o s'. unfold bind at 1. unfold get_node.
  destruct (heap s !! id) as [n |] eqn:Hn.
  - unfold bind, put_node. intros Hrun.
    eapply node_frame_trans; [| eapply Hk; exact Hrun].
    pose proof (lookup_lt_Some _ _ _ Hn) as Hlt.
    repeat split; simpl.
    + apply length_insert.
    + intros id' Hne. now apply list_lookup_insert_ne.
    + intros m Hm. rewrite Hn in Hm. injection Hm as <-.
      exists (g n). split; [now apply list_lookup_insert_eq | apply Hg].
  - intros [= _ <-]. apply node_frame_refl.
Qed.

Lemma compute_u_loop_preserves (gamma : R) (node : nat) (t : nat) :
  forall node_t, preserves (node_frame node) (compute_u_loop gamma node node_t t).
Proof.
  induction t as [| t IH]; intros node_t.
  - apply preserves_ret, node_frame_refl.
  - cbn [compute_u_loop]. destruct node_t as [nt |];
      [| apply preserves_raise, node_frame_refl].
    apply (preserves_bind (node_frame_trans node));
      [apply (preserves_read (node_frame_refl node)), get_node_read | intros n_t].
    apply preserves_get_put; [intros n; split; reflexivity | intros _].
    apply (preserves_bind (node_frame_trans node));
      [apply (preserves_read (node_frame_refl node)), get_node_read | intros n_t'].
    apply IH.
Qed.

Lemma compute_u_values_preserves (node : nat) (path : list Z) :
  preserves (node_frame node) (compute_u_values node path).
Proof.
  unfold compute_u_values.
  apply (preserves_bind (node_frame_trans node));
    [apply (preserves_read (node_frame_refl node)), get_config_read | intros c].
  cbv zeta.
  apply preserves_get_put; [intros n; split; reflexivity | intros _].
  apply (preserves_bind (node_frame_trans node));
    [apply compute_u_loop_preserves | intros _].
  apply (preserves_bind (node_frame_trans node));
    [apply (preserves_read (node_frame_refl node)), get_node_read | intros n].
  apply preserves_ret, node_frame_refl.
Qed.

Lemma bfs_level_preserves (level : list (nat * list Z)) :
  forall next, preserves shape_eq (bfs_level compute_u_values level next).
Proof.
  induction level as [| [node path] rest IH]; intros next.
  - apply preserves_ret, shape_eq_refl.
  - cbn [bfs_level].
    apply (preserves_bind shape_eq_trans).
    + eapply preserves_weaken; [apply node_frame_shape_eq |].
      apply compute_u_values_preserves.
    + intros _. apply (preserves_bind shape_eq_trans);
        [apply (preserves_read shape_eq_refl), get_node_read | intros n].
      apply IH.
Qed.

Lemma breadth_first_search_preserves (fuel : nat) :
  forall level, preserves shape_eq (breadth_first_search fuel level compute_u_values).
Proof.
  induction fuel as [| fuel IH]; intros [| e rest]; cbn [breadth_first_search];
    try (apply preserves_ret, shape_eq_refl);
    try (apply preserves_raise, shape_eq_refl).
  apply (preserves_bind shape_eq_trans); [apply bfs_level_preserves | apply IH].
Qed.

Lemma first_pass_preserves (r : nat) : preserves shape_eq (first_pass r).
Proof.
  unfold first_pass, get_state.
  apply (preserves_bind shape_eq_trans);
    [apply (preserves_read shape_eq_refl); reflexivity | intros s0].
  apply breadth_first_search_preserves.
Qed.

Lemma sharpen_b_values_read (node : nat) (s : OLOP) :
  snd (sharpen_b_values node s) = s.
Proof.
  unfold sharpen_b_values, bind, get_config, get_node, ret.
  destruct (heap s !! node); [| reflexivity].
  now destruct (String.eqb _ _).
Qed.

Lemma map_sharpen_read (ls : list nat) (s : OLOP) : snd (map_sharpen ls s) = s.
Proof.
  induction ls as [| leaf rest IH]; [reflexivity |].
  cbn [map_sharpen]. unfold bind at 1.
  pose proof (sharpen_b_values_read leaf s) as Hs.
  destruct (sharpen_b_values leaf s) as [[b | e] s1]; simpl in Hs; subst s1;
    [| reflexivity].
  unfold bind at 1.
  destruct (map_sharpen rest s) as [[bs | e] s1]; simpl in IH; subst s1; reflexivity.
Qed.

Lemma run_keeps_inv `{Collaborators} (state : env) (s : OLOP) (o : outcome unit)
    (s' : OLOP) :
  offers_actions -> planner_inv s -> run state s = (o, s') ->
  planner_inv s' /\ root s' = root s.
Proof.
  intros Henv Hinv Hrun. unfold run in Hrun.
  unfold bind at 1 in Hrun. unfold get_state at 1 in Hrun.
  destruct (root s) as [r |] eqn:Hroot;
    [| unfold raise in Hrun; injection Hrun as _ <-; auto].
  unfold bind at 1 in Hrun.
  destruct (first_pass r s) as [[[] | e] s1] eqn:Hpass.
  2: { injection Hrun as _ <-.
       pose proof (first_pass_preserves r _ _ _ Hpass) as Hse.
       split; [eapply planner_inv_shape_eq; eassumption |].
       destruct Hse as (_ & Hr & _). congruence. }
  pose proof (first_pass_preserves r _ _ _ Hpass) as Hse.
  pose proof (planner_inv_shape_eq _ _ Hse Hinv) as Hinv1.
  assert (Hroot1 : root s1 = Some r) by (destruct Hse as (_ & Hr & _); congruence).
  unfold bind at 1 in Hrun. unfold get_leaves at 1 in Hrun.
  unfold bind at 1 in Hrun.
  pose proof (map_sharpen_read (leaves s1) s1) as Hms.
  destruct (map_sharpen (leaves s1) s1) as [[bounds | e] s2]; simpl in Hms; subst s2;
    [| injection Hrun as _ <-; auto].
  unfold bind at 1 in Hrun.
  destruct (argmax bounds) as [best | e]; [| injection Hrun as _ <-; auto].
  destruct (leaves s1 !! best) as [leaf |] eqn:Hleaf;
    [| unfold raise in Hrun; injection Hrun as _ <-; auto].
  unfold bind at 1 in Hrun. unfold get_state at 1 in Hrun.
  unfold bind at 1 in Hrun. unfold get_config at 1 in Hrun.
  unfold bind at 1 in Hrun.
  match type of Hrun with
  | match ?m s1 with _ => _ end = _ =>
      assert (Hpad : snd (m s1) = s1)
  end.
  { destruct (cfg_lazy_tree_construction (config_of s1)); [| reflexivity].
    unfold bind, config_horizon, get_config, bind.
    now destruct (cfg_horizon (config_of s1)). }
  match type of Hrun with
  | match ?m s1 with _ => _ end = _ => destruct (m s1) as [[seq_ | e] s2]
  end; simpl in Hpad; subst s2; [| injection Hrun as _ <-; auto].
  assert (Hreach : reachable (heap s1) r r).
  { pose proof Hinv1 as [_ (r0 & Hr0 & _ & Hfront)].
    assert (r0 = r) as -> by congruence.
    assert (Hin : leaf ∈ leaves s1) by (apply list_elem_of_lookup; eauto).
    destruct (proj1 (Hfront leaf) Hin) as [Hrl _].
    destruct (reachable_root_in_heap _ _ _ Hrl) as (n & Hn).
    eapply reach_root; eassumption. }
  destruct (execute_sequence_keeps_inv Henv seq_ r state s1 o s' r
              Hinv1 Hroot1 Hreach Hrun) as [Hinv' Hroot'].
  split; [exact Hinv' | congruence].
Qed.

Lemma run_episodes_keeps_inv `{Collaborators} (state : env) (k : nat) :
  offers_actions ->
  forall (s : OLOP) (o : outcome unit) (s' : OLOP),
  planner_inv s -> run_episodes k state s = (o, s') -> planner_inv s'.
Proof.
  intros Henv. induction k as [| k IH]; intros s o s' Hinv Hrun.
  - injection Hrun as _ <-. exact Hinv.
  - cbn [run_episodes] in Hrun. unfold bind in Hrun.
    destruct (run state s) as [[[] | e] s1] eqn:Hr.
    + destruct (run_keeps_inv state s _ s1 Henv Hinv Hr) as [Hinv1 _].
      eapply IH; eassumption.
    + injection Hrun as _ <-. eapply run_keeps_inv; eassumption.
Qed.

(** X4: in an environment that always offers a non-empty list of distinct
    actions, an episode and a whole [plan] call keep the tree well formed
    (parents created before children, children pointing back to their
    holder) and keep [leaves] equal, without repetition, to the childless
    nodes reachable from the root, whether they return or raise. *)
Theorem plan_keeps_invariants `{Collaborators} (state : env) (s : OLOP) :
  offers_actions -> planner_inv s ->
  planner_inv (snd (run state s)) /\ planner_inv (snd (plan state s)).
Proof.
  intros Henv Hinv. split.
  - destruct (run state s) as [o s'] eqn:Hrun.
    eapply run_keeps_inv; eassumption.
  - unfold plan. unfold bind at 1.
    pose proof (config_episodes_read s) as Hread.
    destruct (config_episodes s) as [[e | e] s0]; simpl in Hread; subst s0;
      [| exact Hinv].
    unfold bind at 1.
    destruct (run_episodes (Z.to_nat e) state s) as [[[] | e'] s1] eqn:Hrun;
      simpl; eapply run_episodes_keeps_inv; eassumption.
Qed.

Lemma planner_inv_lazy_fresh : planner_inv lazy_fresh.
Proof.
  split; [| apply frontier_inv_lazy_fresh]. split.
  - intros id n p Hn Hp. destruct id as [| id]; simpl in Hn; [| discriminate].
    injection Hn as <-. discriminate.
  - intros id n a c Hn Hac. destruct id as [| id]; simpl in Hn; [| discriminate].
    injection Hn as <-. now apply elem_of_nil in Hac.
Qed.

Lemma demo_offers_actions : @offers_actions demo_collaborators.
Proof.
  intros state. split; [| discriminate]. simpl.
  apply NoDup_cons. split; [| apply NoDup_singleton].
  intros Hin. apply list_elem_of_singleton in Hin. discriminate.
Qed.

Lemma plan_keeps_invariants_witness :
  planner_inv (snd (@run demo_collaborators tt lazy_fresh)) /\
  planner_inv (snd (@plan demo_collaborators tt lazy_fresh)).
Proof.
  apply (@plan_keeps_invariants demo_collaborators tt lazy_fresh).
  - apply demo_offers_actions.
  - apply planner_inv_lazy_fresh.
Defined.

(** ** Building the tree establishes the invariants *)

Lemma single_root_complete (b : Z) (c : config) (n0 : OLOPNode) (r : option nat) :
  parent n0 = None -> children n0 = [] ->
  complete_tree b 0 (mkOLOP c [n0] r [0%nat]).
Proof.
  intros Hp Hk. split; [apply NoDup_singleton |]. split; [reflexivity |]. split.
  - intros id Hid. apply list_elem_of_singleton in Hid as ->. split.
    + exists n0. auto.
    + exists 0%nat. split; [reflexivity |]. exists n0. auto.
  - intros id n Hn Hid. simpl in *. destruct id as [| id].
    + exfalso. apply Hid. now left.
    + discriminate.
Qed.

Lemma single_root_arms (b : Z) (c : config) (n0 : OLOPNode) (r : option nat) :
  children n0 = [] -> arms_inv b 0 0 (mkOLOP c [n0] r [0%nat]).
Proof.
  intros Hk. split; [| split].
  - intros id n a ch Hn Hac. destruct id as [| id]; simpl in Hn; [| discriminate].
    injection Hn as <-. rewrite Hk in Hac. discriminate.
  - intros id Hid. apply list_elem_of_singleton in Hid as ->.
    exists []. split; [reflexivity |]. split; [constructor | reflexivity].
  - intros path Hlen _. apply nil_length_inv in Hlen as ->.
    exists 0%nat. split; [now left | reflexivity].
Qed.

Lemma single_root_wf (n0 : OLOPNode) :
  parent n0 = None -> children n0 = [] -> wf_tree [n0].
Proof.
  intros Hp Hk. split.
  - intros id n p Hn Hpn. destruct id as [| id]; simpl in Hn; [| discriminate].
    injection Hn as <-. congruence.
  - intros id n a c Hn Hac. destruct id as [| id]; simpl in Hn; [| discriminate].
    injection Hn as <-. rewrite Hk in Hac. now apply elem_of_nil in Hac.
Qed.

Lemma prebuild_level_wf (b : Z) (todo : list nat) :
  forall (acc : list nat) (s : OLOP) (acc' : list nat) (s' : OLOP),
  prebuild_level b todo acc s = (Ok acc', s') ->
  NoDup todo ->
  (forall id, id ∈ todo -> childless (heap s) id) ->
  wf_tree (heap s) -> wf_tree (heap s').
Proof.
  induction todo as [| leaf rest IH]; intros acc s acc' s' Hrun Hnd Hchild Hwf.
  - injection Hrun as _ <-. exact Hwf.
  - destruct (Hchild leaf ltac:(left)) as (n & Hn & Hch).
    destruct (Node_expand_childless leaf b s n Hn Hch)
      as (s1 & Hrun1 & Hc1 & Hr1 & Hl1 & Hlen1 & Hself1 & Hold1 & Hnew1).
    apply NoDup_cons in Hnd as [Hleaf Hnd].
    cbn [prebuild_level] in Hrun. unfold bind at 1 in Hrun. rewrite Hrun1 in Hrun.
    unfold bind at 1 in Hrun. unfold get_node in Hrun. rewrite Hself1 in Hrun.
    apply (IH _ s1 acc' s' Hrun Hnd).
    + intros id Hid. destruct (Hchild id ltac:(now right)) as (m & Hm & Hkm).
      exists m. split; [| exact Hkm]. rewrite Hold1; [exact Hm | |].
      * intros ->. contradiction.
      * eapply lookup_lt_Some; eassumption.
    + apply (grow_step_wf (heap s) (heap s1) leaf n (seqZ 0 b) Hn Hch);
        rewrite ?length_seqZ; try assumption.
      * eexists. split; [exact Hself1 |]. split; reflexivity.
      * intros id Hid. eexists. split; [apply Hnew1; exact Hid |].
        split; [apply new_node_parent | apply new_node_children].
Qed.

Lemma prebuild_levels_wf (b : Z) (j : nat) :
  forall (k : nat) (s s' : OLOP),
  prebuild_levels b j s = (Ok tt, s') ->
  complete_tree b k s -> wf_tree (heap s) -> wf_tree (heap s').
Proof.
  induction j as [| j IH]; intros k s s' Hrun Hct Hwf.
  - injection Hrun as <-. exact Hwf.
  - destruct Hct as (Hnd & Hlen & Hleaves & Hfull).
    destruct (prebuild_level_spec b k (leaves s) [] s) as
      (acc & s1 & Hrun1 & Hc1 & Hr1 & Hl1 & Hlen1 & Hnd1 & Hacc1 & Hfull1 & Hpp1).
    { assumption. }
    { constructor. }
    { assumption. }
    { intros id Hid. now apply not_elem_of_nil in Hid. }
    { intros id _. apply not_elem_of_nil. }
    { intros id n Hn _ Hid. now apply (Hfull id n). }
    pose proof (prebuild_level_wf b (leaves s) [] s acc s1 Hrun1 Hnd
                  (fun id Hid => proj1 (Hleaves id Hid)) Hwf) as Hwf1.
    cbn [prebuild_levels] in Hrun. unfold bind at 1 in Hrun.
    unfold get_leaves at 1 in Hrun. unfold bind at 1 in Hrun.
    rewrite Hrun1 in Hrun. unfold bind at 1 in Hrun. unfold set_leaves in Hrun.
    apply (IH (S k) _ s' Hrun); [| exact Hwf1].
    split; [exact Hnd1 |]. split; [| split; assumption].
    simpl. rewrite Hlen1, Hlen. simpl. lia.
Qed.

(** Prebuilding from a lone root: the tree is complete, its frontier nodes
    are the arms of the sequences of the horizon's length, and the arena is
    well formed. *)
Lemma prebuild_from_root (c1 : config) (n0 : OLOPNode) (b L : Z) :
  parent n0 = None -> children n0 = [] -> cfg_horizon c1 = Some L ->
  exists s',
    prebuild_tree b (mkOLOP c1 [n0] None [0%nat]) = (Ok tt, s') /\
    config_of s' = c1 /\ root s' = None /\
    complete_tree b (Z.to_nat L) s' /\ arms_inv b (Z.to_nat L) 0 s' /\
    wf_tree (heap s') /\ is_root (heap s') 0.
Proof.
  intros Hp Hk HL.
  set (s0 := mkOLOP c1 [n0] None [0%nat]).
  pose proof (single_root_complete b c1 n0 None Hp Hk) as Hct0.
  destruct (prebuild_levels_spec b (Z.to_nat L) 0 s0 Hct0)
    as (s' & Hrun & Hc & Hr & Hct & Hpp).
  destruct (prebuild_levels_arms b 0 (Z.to_nat L) 0 s0 s' Hrun Hct0
              (single_root_arms b c1 n0 None Hk)) as (Harms & _).
  pose proof (prebuild_levels_wf b (Z.to_nat L) 0 s0 s' Hrun Hct0
                (single_root_wf n0 Hp Hk)) as Hwf.
  exists s'. split.
  { unfold prebuild_tree, config_horizon, bind, get_config. simpl.
    rewrite HL. exact Hrun. }
  split; [exact Hc |]. split; [exact Hr |]. split; [exact Hct |].
  split; [exact Harms |]. split; [exact Hwf |].
  destruct (Hpp 0%nat n0 eq_refl) as (n' & Hn' & Hp').
  exists n'. split; [exact Hn' | congruence].
Qed.

Lemma reachable_trans (h : list OLOPNode) (x y z : nat) :
  reachable h x y -> reachable h y z -> reachable h x z.
Proof.
  intros Hxy. induction 1 as [n Hn | p n a c m _ IH Hp Hac Hm]; [exact Hxy |].
  eapply reach_child; eassumption.
Qed.

Lemma follow_in_heap (h : list OLOPNode) (path : list Z) (x id : nat) :
  follow h x path = Some id -> exists n, h !! x = Some n.
Proof.
  destruct path; simpl; destruct (h !! x) as [n |]; try discriminate; eauto.
Qed.

Lemma follow_reachable (h : list OLOPNode) (path : list Z) :
  forall x id, follow h x path = Some id -> reachable h x id.
Proof.
  induction path as [| a rest IH]; intros x id Hf.
  - simpl in Hf. destruct (h !! x) as [n |] eqn:Hn; [| discriminate].
    injection Hf as <-. eapply reach_root; eassumption.
  - pose proof Hf as Hf'. simpl in Hf.
    destruct (h !! x) as [n |] eqn:Hn; [| discriminate].
    destruct (dict_get a (children n)) as [c |] eqn:Hc; [| discriminate].
    destruct (follow_in_heap _ _ _ _ Hf) as (m & Hm).
    eapply reachable_trans; [| apply IH; exact Hf].
    eapply reach_child;
      [eapply reach_root; exact Hn | exact Hn | apply dict_get_in; exact Hc | exact Hm].
Qed.

(** With at least one action, a complete tree's frontier is the set of
    childless reachable nodes. *)
Lemma complete_tree_frontier (b : Z) (k r : nat) (s : OLOP) :
  1 <= b -> root s = Some r ->
  complete_tree b k s -> arms_inv b k r s -> frontier_inv s.
Proof.
  intros Hb Hroot (Hnd & _ & Hleaves & Hfull) (_ & HP2 & _).
  exists r. split; [exact Hroot |]. split; [exact Hnd |].
  intros id. split.
  - intros Hid. split; [| apply Hleaves, Hid].
    destruct (HP2 id Hid) as (path & _ & _ & Hf).
    eapply follow_reachable; exact Hf.
  - intros [_ (n & Hn & Hk)].
    destruct (decide (id ∈ leaves s)) as [Hin | Hout]; [exact Hin |].
    pose proof (Hfull id n Hn Hout) as Hkeys. rewrite Hk in Hkeys.
    apply (f_equal (@length Z)) in Hkeys. rewrite length_seqZ in Hkeys.
    simpl in Hkeys. lia.
Qed.

Lemma single_root_frontier (c : config) (n0 : OLOPNode) :
  children n0 = [] -> frontier_inv (mkOLOP c [n0] (Some 0%nat) [0%nat]).
Proof.
  intros Hk. exists 0%nat. split; [reflexivity |]. split; [apply NoDup_singleton |].
  intros id. split.
  - intros Hid. apply list_elem_of_singleton in Hid as ->. split.
    + eapply reach_root. reflexivity.
    + exists n0. auto.
  - intros [_ Hc]. apply childless_lt in Hc. simpl in Hc.
    assert (id = 0)%nat as -> by lia. now left.
Qed.

(** X5: with a horizon configured, building the planner succeeds and leaves
    the configuration as it was, the root at index 0, a well-formed tree and
    a frontier that is exactly the childless nodes reachable from the root.
    Without lazy construction this needs an action space of at least one
    action. *)
Theorem reset_establishes_invariants (c : config) (b L : Z) :
  cfg_horizon c = Some L ->
  cfg_lazy_tree_construction c = true \/ 1 <= b ->
  exists s',
    reset b (new_planner c) = (Ok tt, s') /\
    config_of s' = c /\ root s' = Some 0%nat /\ planner_inv s'.
Proof.
  intros HL Hcase.
  destruct (cfg_lazy_tree_construction c) eqn:Hlazy.
  - exists (mkOLOP c [new_node None c] (Some 0%nat) [0%nat]). split.
    + unfold reset, make_root, bind, get_config, alloc, set_leaves, set_root,
        new_planner. simpl. rewrite HL. unfold ret at 1. simpl. now rewrite Hlazy.
    + split; [reflexivity |]. split; [reflexivity |]. split.
      * apply single_root_wf; [apply new_node_parent | apply new_node_children].
      * apply single_root_frontier, new_node_children.
  - destruct Hcase as [Hc | Hb]; [discriminate |].
    destruct (prebuild_from_root c (new_node None c) b L
                (new_node_parent _ _) (new_node_children _ _) HL)
      as (s1 & Hrun & Hc1 & Hr1 & Hct & Harms & Hwf & Hroot).
    exists (mkOLOP (config_of s1) (heap s1) (Some 0%nat) (leaves s1)). split.
    + unfold reset, make_root, bind, get_config, alloc, set_leaves, set_root,
        new_planner. simpl. rewrite HL. unfold ret at 1. simpl. rewrite Hlazy.
      rewrite Hrun. reflexivity.
    + split; [exact Hc1 |]. split; [reflexivity |]. split; [exact Hwf |].
      apply (complete_tree_frontier b (Z.to_nat L) 0); [exact Hb | reflexivity | |].
      * destruct s1. exact Hct.
      * destruct s1. exact Harms.
Qed.

Lemma reset_establishes_invariants_witness :
  exists s',
    reset 2 (new_planner (demo_config 10 (1 / 2) (Some 5) (Some 2))) = (Ok tt, s') /\
    config_of s' = demo_config 10 (1 / 2) (Some 5) (Some 2) /\
    root s' = Some 0%nat /\ planner_inv s'.
Proof.
  apply (reset_establishes_invariants (demo_config 10 (1 / 2) (Some 5) (Some 2)) 2 2).
  - reflexivity.
  - right. lia.
Defined.

(** ** Rollouts along existing paths *)

Lemma follow_shape_eq (s s' : OLOP) (path : list Z) :
  shape_eq s s' ->
  forall x id, follow (heap s) x path = Some id -> follow (heap s') x path = Some id.
Proof.
  intros (_ & _ & _ & _ & Hfw). apply follow_grows.
  intros id n Hn. destruct (Hfw _ _ Hn) as (n' & Hn' & Hp & Hk).
  exists n'. split; [exact Hn' |]. split; [exact Hp |]. now rewrite Hk.
Qed.

Lemma rollout_trace_shape_eq `{Collaborators} (s s' : OLOP) (best_sequence : list Z) :
  shape_eq s s' ->
  forall node state leaf,
  follow (heap s) node best_sequence = Some leaf ->
  rollout_trace (heap s') best_sequence node state =
  rollout_trace (heap s) best_sequence node state.
Proof.
  intros Hse. pose proof Hse as (_ & _ & _ & _ & Hfw).
  induction best_sequence as [| a rest IH]; intros node state leaf Hf; [reflexivity |].
  simpl in Hf |- *. destruct (env_step state a) as [[st' reward] done_].
  destruct (heap s !! node) as [n |] eqn:Hn; [| discriminate].
  destruct (Hfw _ _ Hn) as (n' & -> & _ & ->).
  destruct (dict_get a (children n)) as [child |]; [| discriminate].
  destruct done_; [reflexivity |]. f_equal. eapply IH. exact Hf.
Qed.

(** One step of the rollout along an existing edge. *)
Lemma execute_sequence_step `{Collaborators} (s : OLOP) (node child : nat)
    (n : OLOPNode) (action : Z) (rest : list Z) (state state' : env)
    (reward : R) (done_ : bool) :
  heap s !! node = Some n ->
  dict_get action (children n) = Some child ->
  env_step state action = (state', reward, done_) ->
  execute_sequence (action :: rest) node state s =
  (update child reward done_ ;;
   if done_ then ret tt else execute_sequence rest child state') s.
Proof.
  intros Hn Hget Hstep. cbn [execute_sequence]. rewrite Hstep.
  unfold bind at 1. unfold get_node at 1. rewrite Hn.
  destruct (children n) as [| kv kvs] eqn:Hch; [discriminate |].
  unfold bind at 1. unfold ret at 1.
  unfold bind at 1. unfold get_node at 1. rewrite Hn, Hch.
  unfold dict_mem. rewrite Hget.
  unfold bind at 1. unfold ret at 1. cbv beta. now rewrite Hget.
Qed.

(** X7: when the sequence is a path of the tree from the node, the rollout
    neither expands anything nor meets a missing action: it is exactly the
    successive updates of the nodes along the path with the sampled reward
    and [done], ending after the first [done] (or with the first update that
    raises). *)
Theorem rollout_on_path `{Collaborators} (best_sequence : list Z) :
  forall (node : nat) (state : env) (s : OLOP) (leaf : nat),
  follow (heap s) node best_sequence = Some leaf ->
  execute_sequence best_sequence node state s =
  update_trace (rollout_trace (heap s) best_sequence node state) s.
Proof.
  induction best_sequence as [| a rest IH]; intros node state s leaf Hf;
    [reflexivity |].
  simpl in Hf.
  destruct (env_step state a) as [[st' reward] done_] eqn:Hstep.
  destruct (heap s !! node) as [n |] eqn:Hn; [| discriminate].
  destruct (dict_get a (children n)) as [child |] eqn:Hget; [| discriminate].
  rewrite (execute_sequence_step s node child n a rest state st' reward done_
             Hn Hget Hstep).
  cbn [rollout_trace]. rewrite Hstep, Hn, Hget.
  cbn [update_trace]. unfold bind.
  destruct (update child reward done_ s) as [[[] | e] s2] eqn:Hupd; [| reflexivity].
  destruct done_; [reflexivity |].
  pose proof (node_frame_shape_eq _ _ _ (update_preserves child reward false _ _ _ Hupd))
    as Hse.
  rewrite (IH child st' s2 leaf) by (eapply follow_shape_eq; eassumption).
  now rewrite (rollout_trace_shape_eq s s2 rest Hse child st' leaf Hf).
Qed.

Lemma rollout_on_path_witness :
  @execute_sequence demo_collaborators [0] 0 tt sample_planner =
  @update_trace demo_collaborators
    (@rollout_trace demo_collaborators (heap sample_planner) [0] 0%nat tt)
    sample_planner.
Proof.
  apply (@rollout_on_path demo_collaborators [0] 0%nat tt sample_planner 1%nat).
  reflexivity.
Defined.

(** X8: when the first step of a sequence along an existing edge reports
    [done] with a reward of [0,1], the rollout stops there: the rest of the
    sequence is ignored, the child reached is updated once and marked
    terminal, and no other node changes. *)
Theorem rollout_stops_at_done `{Collaborators} (s : OLOP) (node child : nat)
    (n m : OLOPNode) (action : Z) (rest : list Z) (state state' : env)
    (reward : R) (e : Z) :
  heap s !! node = Some n ->
  dict_get action (children n) = Some child ->
  heap s !! child = Some m ->
  env_step state action = (state', reward, true) ->
  (0 <= reward <= 1)%R ->
  cfg_episodes (config_of s) = Some e ->
  execute_sequence (action :: rest) node state s =
  (Ok tt,
   mkOLOP (config_of s)
     (<[child := updated_node (config_of s) e reward true m]> (heap s))
     (root s) (leaves s)) /\
  done (updated_node (config_of s) e reward true m) = true /\
  count (updated_node (config_of s) e reward true m) = count m + 1.
Proof.
  intros Hn Hget Hm Hstep Hr He. split; [| split; reflexivity].
  rewrite (execute_sequence_step s node child n action rest state state' reward true
             Hn Hget Hstep).
  unfold bind. now rewrite (update_run s child m reward true e Hr Hm He).
Qed.

Lemma rollout_stops_at_done_witness :
  @execute_sequence terminal_collaborators [0; 0; 0] 0 tt sample_planner =
  (Ok tt,
   mkOLOP (config_of sample_planner)
     (<[1%nat := @updated_node terminal_collaborators (config_of sample_planner) 5
                   (1 / 2) true sample_child]> (heap sample_planner))
     (root sample_planner) (leaves sample_planner)) /\
  done (@updated_node terminal_collaborators (config_of sample_planner) 5 (1 / 2) true
          sample_child) = true /\
  count (@updated_node terminal_collaborators (config_of sample_planner) 5 (1 / 2) true
           sample_child) = 2 + 1.
Proof.
  apply (@rollout_stops_at_done terminal_collaborators sample_planner 0 1
           sample_root sample_child 0 [0; 0] tt tt (1 / 2)%R 5);
    try reflexivity.
  lra.
Defined.

(** ** Expanding a node that is not on the frontier *)

Lemma list_remove_None (x : nat) (l : list nat) :
  x ∉ l -> list_remove x l = None.
Proof.
  induction l as [| y l IH]; intros Hx; [reflexivity |].
  apply not_elem_of_cons in Hx as [Hne Hx]. simpl.
  destruct (Nat.eqb_spec y x) as [-> | _]; [contradiction |].
  now rewrite IH.
Qed.

(** X9: [expand] on a node that [leaves] does not list fails with the
    [ValueError] of [leaves.remove], but only after the loop has run: the
    children have been created and attached to the node, while the frontier
    still is the old one. *)
Theorem expand_outside_frontier `{Collaborators} (s : OLOP) (self : nat)
    (n : OLOPNode) (state : env) :
  heap s !! self = Some n -> self ∉ leaves s ->
  exists s',
    expand self (Some state) false s = (Raise ValueError, s') /\
    config_of s' = config_of s /\ root s' = root s /\ leaves s' = leaves s /\
    length (heap s') = (length (heap s) + length (available_actions state))%nat /\
    (exists n', heap s' !! self = Some n' /\
       children n' =
       dict_set_all (available_actions state) (length (heap s)) (children n)) /\
    (forall id,
       (length (heap s) <= id < length (heap s) + length (available_actions state))%nat ->
       exists m, heap s' !! id = Some m /\ parent m = Some self /\ children m = []).
Proof.
  intros Hn Hout.
  destruct (expand_loop_false_ok self state (available_actions state) s n Hn)
    as [s1 Hloop].
  destruct (expand_loop_spec self state false _ s s1 n Hn Hloop)
    as (Hc & Hr & Hl & Hlen & (n' & Hn' & _ & Hk) & _ & Hnew).
  exists s1. split.
  - unfold expand. unfold bind at 1. rewrite Hloop.
    unfold bind at 1. unfold get_leaves. rewrite Hl.
    now rewrite (list_remove_None self (leaves s) Hout).
  - do 4 (split; [assumption |]). split; [eauto | exact Hnew].
Qed.

Lemma expand_outside_frontier_witness :
  exists s',
    @expand demo_collaborators 0 (Some tt) false sample_planner =
      (Raise ValueError, s') /\
    config_of s' = config_of sample_planner /\ root s' = root sample_planner /\
    leaves s' = leaves sample_planner /\
    length (heap s') =
      (length (heap sample_planner) +
       length (@available_actions demo_collaborators tt))%nat /\
    (exists n', heap s' !! 0%nat = Some n' /\
       children n' =
       dict_set_all (@available_actions demo_collaborators tt)
         (length (heap sample_planner)) (children sample_root)) /\
    (forall id,
       (length (heap sample_planner) <= id <
        length (heap sample_planner) +
        length (@available_actions demo_collaborators tt))%nat ->
       exists m, heap s' !! id = Some m /\ parent m = Some 0%nat /\ children m = []).
Proof.
  apply (@expand_outside_frontier demo_collaborators sample_planner 0 sample_root tt).
  - reflexivity.
  - simpl. intros Hin. apply list_elem_of_singleton in Hin. discriminate.
Defined.

(** ** Sharpened scores along a path *)

Lemma sharpen_b_values_run (s : OLOP) (node : nat) (n : OLOPNode) :
  parents_below (heap s) ->
  cfg_upper_bound (config_of s) <> "kullback-leibler" ->
  heap s !! node = Some n ->
  sharpen_b_values node s =
  (Ok (fold_left emin
         (map (value_at (heap s))
            (filter (fun i => has_parent (heap s) i = true)
               (chain (S node) (heap s) node)))
         (value n)), s).
Proof.
  intros Hpb Hkl Hn. pose proof (lookup_lt_Some _ _ _ Hn) as Hlt.
  unfold sharpen_b_values, bind, get_config, get_node. rewrite Hn.
  destruct (String.eqb_spec (cfg_upper_bound (config_of s)) "kullback-leibler")
    as [Heq | _]; [contradiction |].
  now rewrite (sharpen_loop_run (heap s) Hpb (length (heap s)) node n (value n))
    by (assumption || lia).
Qed.

Lemma chain_parent (h : list OLOPNode) (id p : nat) (n : OLOPNode) :
  parents_below h -> h !! id = Some n -> parent n = Some p ->
  filter (fun i => has_parent h i = true) (chain (S id) h id) =
  id :: filter (fun i => has_parent h i = true) (chain (S p) h p).
Proof.
  intros Hpb Hn Hp. pose proof (Hpb _ _ _ Hn Hp) as Hlt.
  rewrite <- (chain_fuel h Hpb id (S p) p) by lia.
  cbn [chain]. rewrite Hn, Hp.
  now rewrite filter_cons_True by (unfold has_parent; now rewrite Hn, Hp).
Qed.

(** X10: with the Hoeffding bound, sharpening is monotone along a path: the
    sharpened score of a node whose parent is not the root is at most the
    sharpened score of that parent, whatever the scratch values are. *)
Theorem sharpen_b_values_monotone (s : OLOP) (node p q : nat) (n np : OLOPNode) :
  parents_below (heap s) ->
  cfg_upper_bound (config_of s) <> "kullback-leibler" ->
  heap s !! node = Some n -> parent n = Some p ->
  heap s !! p = Some np -> parent np = Some q ->
  exists b bp,
    sharpen_b_values node s = (Ok b, s) /\
    sharpen_b_values p s = (Ok bp, s) /\
    ele b bp.
Proof.
  intros Hpb Hkl Hn Hp Hnp Hq.
  rewrite (sharpen_b_values_run s node n Hpb Hkl Hn).
  rewrite (sharpen_b_values_run s p np Hpb Hkl Hnp).
  rewrite (chain_parent (heap s) node p n Hpb Hn Hp).
  set (Lp := map (value_at (heap s))
               (filter (fun i => has_parent (heap s) i = true)
                  (chain (S p) (heap s) p))).
  do 2 eexists. split; [reflexivity |]. split; [reflexivity |].
  cbn [map]. fold Lp.
  destruct (fold_emin_least (value_at (heap s) node :: Lp) (value n)) as [_ Hle].
  destruct (fold_emin_least Lp (value np)) as [Hin _].
  apply Hle. right. right.
  apply elem_of_cons in Hin as [-> | Hin]; [| exact Hin].
  unfold Lp. rewrite (chain_parent (heap s) p q np Hpb Hnp Hq).
  cbn [map]. unfold value_at at 1. rewrite Hnp. now left.
Qed.

Lemma parents_below_path_tree : parents_below (heap path_tree).
Proof.
  intros id n p Hn Hp. destruct id as [| [| [| id]]]; simpl in Hn;
    try discriminate; injection Hn as <-; simpl in Hp;
    try discriminate; injection Hp as <-; lia.
Qed.

Lemma sharpen_b_values_monotone_witness :
  exists b bp,
    sharpen_b_values 2 path_tree = (Ok b, path_tree) /\
    sharpen_b_values 1 path_tree = (Ok bp, path_tree) /\
    ele b bp.
Proof.
  apply (sharpen_b_values_monotone path_tree 2 1 0
           (mkNode (Some 1%nat) [] 1 1%R (Fin 1) false (Fin 2))
           (mkNode (Some 0%nat) [(0, 2%nat)] 1 1%R (Fin 1) false (Fin 1)));
    try reflexivity.
  - apply parents_below_path_tree.
  - discriminate.
Defined.

(** ** Budgets that cannot be split *)

(** X11: a budget of at most 2 cannot be split, for any discount factor of
    (0,1): the loop of [allocate_budget] tries at most one episode, whose
    horizon is 0 (the logarithm of 1 is 0 and the denominator is positive),
    and the [else] branch raises the [ValueError], leaving the configuration
    as it was. *)
Theorem allocate_budget_small (s : OLOP) :
  (0 < cfg_gamma (config_of s) < 1)%R ->
  cfg_budget (config_of s) <= 2 ->
  allocate_budget s = (Raise ValueError, s).
Proof.
  intros _ HB. rewrite allocate_budget_unfold.
  assert (Hnone : allocate_loop (cfg_budget (config_of s)) (cfg_gamma (config_of s))
                    (seqZ 1 (cfg_budget (config_of s) - 1)) = None).
  { apply allocate_loop_range_None. intros M HM.
    assert (M = 1) as -> by lia. rewrite horizon_one. lia. }
  now rewrite Hnone.
Qed.

Lemma allocate_budget_small_witness :
  allocate_budget (new_planner (demo_config 2 (9 / 10) None None)) =
  (Raise ValueError, new_planner (demo_config 2 (9 / 10) None None)).
Proof.
  apply (allocate_budget_small (new_planner (demo_config 2 (9 / 10) None None))).
  - simpl. lra.
  - simpl. lia.
Defined.

(** ** What [update] leaves alone *)

(** X12: however [update] ends (normally, with the [ValueError] of a reward
    outside [0,1], or with the [KeyError] of a missing episode count), it
    leaves the configuration, the root, the frontier and every other node as
    they were, and keeps the parent and the children of the node it
    samples. *)
Theorem update_touches_only_node `{Collaborators} (self : nat) (reward : R)
    (done_ : bool) (s : OLOP) :
  node_frame self s (snd (update self reward done_ s)).
Proof.
  destruct (update self reward done_ s) as [o s'] eqn:Hrun.
  exact (update_preserves self reward done_ s o s' Hrun).
Qed.

(** ** The selection rule *)

Lemma for_each_read {A B} (f : A -> M B) (g : A -> B) (s : OLOP) (l : list A) :
  (forall x, x ∈ l -> f x s = (Ok (g x), s)) ->
  for_each f l s = (Ok (map g l), s).
Proof.
  induction l as [| x l IH]; intros Hf; [reflexivity |].
  cbn [for_each map]. unfold bind at 1. rewrite (Hf x) by now left.
  unfold bind at 1. rewrite IH by (intros y Hy; apply Hf; now right).
  reflexivity.
Qed.

Lemma fold_max_spec (rest : list Z) :
  forall x0, fold_left Z.max rest x0 ∈ x0 :: rest /\
             forall v, v ∈ x0 :: rest -> v <= fold_left Z.max rest x0.
Proof.
  induction rest as [| x rest IH]; intros x0; simpl.
  - split; [now left |]. intros v Hv. apply list_elem_of_singleton in Hv. lia.
  - destruct (IH (Z.max x0 x)) as [Hin Hle]. split.
    + apply elem_of_cons in Hin as [Heq | Hin]; [| right; now right].
      rewrite Heq. destruct (Z.max_spec x0 x) as [[_ ->] | [_ ->]];
        [right; now left | now left].
    + intros v Hv.
      assert (Hm : Z.max x0 x <= fold_left Z.max rest (Z.max x0 x))
        by (apply Hle; now left).
      apply elem_of_cons in Hv as [-> | Hv]; [lia |].
      apply elem_of_cons in Hv as [-> | Hv]; [lia |].
      apply Hle. now right.
Qed.

Lemma max_from_spec (g : nat -> ext) (l : list nat) :
  forall best,
  max_from best (g best) (map (fun i => (i, g i)) l) ∈ best :: l /\
  forall i, i ∈ best :: l ->
    ele (g i) (g (max_from best (g best) (map (fun i => (i, g i)) l))).
Proof.
  induction l as [| j l IH]; intros best; simpl.
  - split; [now left |]. intros i Hi. apply list_elem_of_singleton in Hi as ->.
    apply ele_refl.
  - destruct (elt_dec (g best) (g j)) as [Hlt | Hge].
    + destruct (IH j) as [Hin Hle]. split; [now right |].
      intros i Hi. apply elem_of_cons in Hi as [-> | Hi]; [| now apply Hle].
      eapply ele_trans; [apply elt_ele; exact Hlt | apply Hle; now left].
    + destruct (IH best) as [Hin Hle]. split.
      * apply elem_of_cons in Hin as [-> | Hin]; [now left | right; now right].
      * intros i Hi. apply elem_of_cons in Hi as [-> | Hi]; [apply Hle; now left |].
        apply elem_of_cons in Hi as [-> | Hi]; [| apply Hle; now right].
        eapply ele_trans; [exact Hge | apply Hle; now left].
Qed.

Lemma dict_get_key (a : Z) (d : list (Z * nat)) :
  a ∈ dict_keys d <-> exists c, dict_get a d = Some c.
Proof.
  induction d as [| [k v] d IH]; simpl.
  - split; [intros Hin; now apply elem_of_nil in Hin | intros [c Hc]; discriminate].
  - destruct (Z.eqb_spec k a) as [-> | Hne].
    + split; [eauto | intros _; now left].
    + rewrite elem_of_cons, IH. split; [intros [-> | Hc]; [contradiction | exact Hc] |].
      intros Hc. now right.
Qed.

Lemma child_node_run (s : OLOP) (n m : OLOPNode) (a : Z) (c : nat) :
  dict_get a (children n) = Some c -> heap s !! c = Some m ->
  child_node n a s = (Ok m, s).
Proof.
  intros Hget Hm. unfold child_node, get_node. now rewrite Hget, Hm.
Qed.

(** X13: [selection_rule] on a node without children fails with the
    [ValueError] of the empty maximum; on a node with children it returns,
    without changing the state, an action of the node whose child has the
    highest visit count, and among the children with that count one of
    highest value. *)
Theorem selection_rule_spec (s : OLOP) (self : nat) (n : OLOPNode) :
  heap s !! self = Some n ->
  (forall a c, (a, c) ∈ children n -> is_Some (heap s !! c)) ->
  (children n = [] -> selection_rule self s = (Raise ValueError, s)) /\
  (children n <> [] ->
   exists a c m,
     selection_rule self s = (Ok a, s) /\
     dict_get a (children n) = Some c /\ heap s !! c = Some m /\
     forall a' c' m',
       dict_get a' (children n) = Some c' -> heap s !! c' = Some m' ->
       count m' <= count m /\
       (count m' = count m -> ele (value m') (value m))).
Proof.
  intros Hn Hheap. split.
  - intros Hch. unfold selection_rule. unfold bind at 1. unfold get_node.
    rewrite Hn, Hch. reflexivity.
  - intros Hne.
    set (actions := dict_keys (children n)).
    assert (Hchild : forall a, a ∈ actions ->
              exists c m, dict_get a (children n) = Some c /\ heap s !! c = Some m).
    { intros a Ha. apply dict_get_key in Ha as [c Hc].
      destruct (Hheap a c (dict_get_in _ _ _ Hc)) as [m Hm]. eauto. }
    assert (Hcount : forall a, a ∈ actions ->
              (m <- child_node n a ;; ret (count m)) s =
              (Ok (count_under (heap s) n a), s)).
    { intros a Ha. destruct (Hchild a Ha) as (c & m & Hc & Hm).
      unfold bind. rewrite (child_node_run s n m a c Hc Hm).
      unfold count_under. now rewrite Hc, Hm. }
    set (g := fun i : nat =>
                match actions !! i with
                | Some a => value_under (heap s) n a
                | None => PInf
                end).
    assert (Hkey : forall i, is_Some (actions !! i) ->
              match actions !! i with
              | Some a => m <- child_node n a ;; ret (get_value m)
              | None => raise IndexError
              end s = (Ok (g i), s)).
    { intros i [a Ha]. unfold g. rewrite Ha.
      destruct (Hchild a (list_elem_of_lookup_2 _ _ _ Ha)) as (c & m & Hc & Hm).
      unfold bind. rewrite (child_node_run s n m a c Hc Hm).
      unfold value_under, get_value. now rewrite Hc, Hm. }
    set (xs := map (count_under (heap s) n) actions).
    assert (Hxs : xs <> []).
    { unfold xs, actions, dict_keys. destruct (children n); [contradiction | discriminate]. }
    destruct xs as [| x0 rest] eqn:Exs; [contradiction |].
    set (mx := fold_left Z.max rest x0).
    destruct (fold_max_spec rest x0) as [Hmin Hmle]. fold mx in Hmin, Hmle.
    set (idxs := filter (fun i => (x0 :: rest) !! i = Some mx)
                   (seq 0 (length (x0 :: rest)))).
    assert (Hidx : forall i, i ∈ idxs <-> (x0 :: rest) !! i = Some mx).
    { intros i. unfold idxs. rewrite list_elem_of_filter, elem_of_seq. split.
      - now intros [Hi _].
      - intros Hi. split; [exact Hi |]. apply lookup_lt_Some in Hi. lia. }
    assert (Hact : forall i, i ∈ idxs ->
              exists a, actions !! i = Some a /\ count_under (heap s) n a = mx).
    { intros i Hi. apply Hidx in Hi. rewrite <- Exs in Hi. unfold xs in Hi.
      rewrite list_lookup_fmap in Hi.
      destruct (actions !! i) as [a |]; [| discriminate].
      injection Hi as Hi. eauto. }
    destruct idxs as [| i0 irest] eqn:Eidx.
    { exfalso. apply list_elem_of_lookup_1 in Hmin as [i Hi].
      apply Hidx in Hi. now apply elem_of_nil in Hi. }
    destruct (max_from_spec g irest i0) as [Hrin Hrle].
    set (r := max_from i0 (g i0) (map (fun i => (i, g i)) irest)) in Hrin, Hrle.
    destruct (Hact r Hrin) as (a & Har & Hca).
    destruct (Hchild a (list_elem_of_lookup_2 _ _ _ Har)) as (c & m & Hc & Hm).
    exists a, c, m. split; [| split; [exact Hc | split; [exact Hm |]]].
    + unfold selection_rule. unfold bind at 1. unfold get_node at 1. rewrite Hn.
      fold actions. unfold bind at 1.
      rewrite (for_each_read _ (count_under (heap s) n) s actions Hcount).
      fold xs. rewrite Exs.
      unfold bind at 1. unfold lift_outcome at 1. cbn [all_argmax].
      fold mx. fold idxs. rewrite Eidx.
      unfold bind at 1.
      rewrite (for_each_read _ g s (i0 :: irest)).
      * unfold bind at 1. unfold lift_outcome. cbn [map zip zip_with max_key].
        replace (zip_with pair irest (map g irest))
          with (map (fun i => (i, g i)) irest)
          by (clear; induction irest as [| j l IH]; simpl; [reflexivity | now rewrite IH]).
        fold r. now rewrite Har.
      * intros i Hi. apply Hkey. destruct (Hact i Hi) as (ai & Hai & _). eauto.
    + intros a' c' m' Hc' Hm'.
      assert (Ha' : a' ∈ actions) by (apply dict_get_key; eauto).
      apply list_elem_of_lookup_1 in Ha' as [j Hj].
      assert (Hxj : (x0 :: rest) !! j = Some (count m')).
      { rewrite <- Exs. unfold xs. rewrite list_lookup_fmap, Hj. simpl.
        unfold count_under. now rewrite Hc', Hm'. }
      assert (Hcm : count m = mx).
      { rewrite <- Hca. unfold count_under. now rewrite Hc, Hm. }
      split.
      * rewrite Hcm. apply Hmle. eapply list_elem_of_lookup_2. exact Hxj.
      * intros Heq. pose proof (Hrle j) as Hle.
        assert (Hjin : j ∈ i0 :: irest).
        { apply Hidx. rewrite Hxj. f_equal. congruence. }
        specialize (Hle Hjin). unfold g in Hle. rewrite Hj, Har in Hle.
        unfold value_under in Hle. now rewrite Hc', Hm', Hc, Hm in Hle.
Qed.

Lemma selection_rule_spec_witness :
  (children (mkNode None [(0, 1%nat); (1, 2%nat)] 0 0%R PInf false (Fin 0)) = [] ->
   selection_rule 0 tied_tree = (Raise ValueError, tied_tree)) /\
  (children (mkNode None [(0, 1%nat); (1, 2%nat)] 0 0%R PInf false (Fin 0)) <> [] ->
   exists a c m,
     selection_rule 0 tied_tree = (Ok a, tied_tree) /\
     dict_get a
       (children (mkNode None [(0, 1%nat); (1, 2%nat)] 0 0%R PInf false (Fin 0))) =
       Some c /\
     heap tied_tree !! c = Some m /\
     forall a' c' m',
       dict_get a'
         (children (mkNode None [(0, 1%nat); (1, 2%nat)] 0 0%R PInf false (Fin 0))) =
         Some c' ->
       heap tied_tree !! c' = Some m' ->
       count m' <= count m /\
       (count m' = count m -> ele (value m') (value m))).
Proof.
  apply (selection_rule_spec tied_tree 0
           (mkNode None [(0, 1%nat); (1, 2%nat)] 0 0%R PInf false (Fin 0))).
  - reflexivity.
  - intros a c Hin. simpl in Hin.
    apply elem_of_cons in Hin as [[= -> ->] | Hin]; [now eexists |].
    apply list_elem_of_singleton in Hin as [= -> ->]. now eexists.
Defined.

(** ** Episodes that do not run *)

(** X14: with a configured episode count of zero or less, [plan] runs no
    episode: the tree is left as it is and the plan is extracted from it. *)
Theorem plan_non_positive_episodes `{Collaborators} (state : env) (s : OLOP) (e : Z) :
  cfg_episodes (config_of s) = Some e -> e <= 0 ->
  plan state s = (get_plan s, s).
Proof.
  intros He Hle. unfold plan, config_episodes. unfold bind at 1.
  unfold bind at 1. unfold get_config. rewrite He. unfold ret at 1.
  replace (Z.to_nat e) with 0%nat by lia. reflexivity.
Qed.

Lemma plan_non_positive_episodes_witness :
  @plan demo_collaborators tt
    (mkOLOP (demo_config 10 (1 / 2) (Some 0) (Some 0)) [sample_root; sample_child]
       (Some 0%nat) [1%nat]) =
  (@get_plan demo_collaborators
     (mkOLOP (demo_config 10 (1 / 2) (Some 0) (Some 0)) [sample_root; sample_child]
        (Some 0%nat) [1%nat]),
   mkOLOP (demo_config 10 (1 / 2) (Some 0) (Some 0)) [sample_root; sample_child]
     (Some 0%nat) [1%nat]).
Proof.
  apply (@plan_non_positive_episodes demo_collaborators tt
           (mkOLOP (demo_config 10 (1 / 2) (Some 0) (Some 0))
              [sample_root; sample_child] (Some 0%nat) [1%nat]) 0).
  - reflexivity.
  - lia.
Defined.

(** X15: an episode that raises ends [plan]: the exception of the first
    episode is the outcome of [plan], the later episodes do not run and no
    plan is extracted; the tree stays as the failed episode left it. *)
Theorem plan_stops_at_failure `{Collaborators} (state : env) (s : OLOP) (e : Z)
    (x : exn) :
  cfg_episodes (config_of s) = Some e -> 1 <= e ->
  fst (run state s) = Raise x ->
  plan state s = (Raise x, snd (run state s)).
Proof.
  intros He Hle Hrun. unfold plan, config_episodes. unfold bind at 1.
  unfold bind at 1. unfold get_config. rewrite He. unfold ret at 1.
  destruct (Z.to_nat e) as [| k] eqn:Hk; [lia |].
  cbn [run_episodes]. unfold bind.
  destruct (run state s) as [[[] | x'] s'] eqn:Hr; simpl in Hrun; [discriminate |].
  now injection Hrun as ->.
Qed.

(** ** An empty frontier *)

(** X16: once the frontier is empty (a node was expanded in a state that
    offers no action), an episode scores the tree and then fails with the
    [ValueError] of the maximum of an empty list of bounds; only scratch
    values have changed. *)
Theorem run_empty_frontier `{Collaborators} (state : env) (s : OLOP) (r : nat) :
  wf_tree (heap s) -> root s = Some r -> is_root (heap s) r -> leaves s = [] ->
  fst (run state s) = Raise ValueError /\ shape_eq s (snd (run state s)).
Proof.
  intros [Hpb Hcp] Hr Hroot Hl.
  destruct (breadth_first_search_run (heap s) Hpb Hcp (length (heap s)) 0
              [(r, [])] s) as (s1 & Hrun & _ & _ & Hl1 & _).
  - lia.
  - apply same_shape_refl.
  - intros id path Hin. apply list_elem_of_singleton in Hin. injection Hin as -> ->.
    split; [| reflexivity]. exists r. split; [| exact Hroot].
    destruct Hroot as (n & Hn & _). simpl. now rewrite Hn.
  - assert (Hpass : first_pass r s = (Ok tt, s1)) by exact Hrun.
    pose proof (first_pass_preserves r _ _ _ Hpass) as Hse.
    assert (Hres : run state s = (Raise ValueError, s1)).
    { unfold run. unfold bind at 1. unfold get_state at 1. rewrite Hr.
      unfold bind at 1. rewrite Hpass.
      unfold bind at 1. unfold get_leaves at 1. now rewrite Hl1, Hl. }
    rewrite Hres. split; [reflexivity | exact Hse].
Qed.

Lemma wf_tree_lazy_stuck : wf_tree (heap lazy_stuck).
Proof.
  split.
  - intros id n p Hn Hp. destruct id as [| id]; simpl in Hn; [| discriminate].
    injection Hn as <-. discriminate.
  - intros id n a c Hn Hac. destruct id as [| id]; simpl in Hn; [| discriminate].
    injection Hn as <-. simpl in Hac. now apply elem_of_nil in Hac.
Qed.

Lemma run_empty_frontier_witness :
  fst (@run stuck_collaborators tt lazy_stuck) = Raise ValueError /\
  shape_eq lazy_stuck (snd (@run stuck_collaborators tt lazy_stuck)).
Proof.
  apply (@run_empty_frontier stuck_collaborators tt lazy_stuck 0).
  - apply wf_tree_lazy_stuck.
  - reflexivity.
  - eexists. split; reflexivity.
  - reflexivity.
Defined.

Lemma plan_stops_at_failure_witness :
  @plan stuck_collaborators tt lazy_stuck =
  (Raise ValueError, snd (@run stuck_collaborators tt lazy_stuck)).
Proof.
  apply (@plan_stops_at_failure stuck_collaborators tt lazy_stuck 5 ValueError).
  - reflexivity.
  - lia.
  - run_planner. reflexivity.
Defined.

(** ** Allocation in float64 arithmetic *)

Section FloatAllocation.
Context `{Float64}.

Lemma allocate_loop_float_None (B : Z) (gamma : R) (l : list Z) :
  allocate_loop_float B gamma l = None <->
  Forall (fun e => e * horizon_float e gamma <= B) l.
Proof.
  induction l as [| e l IH]; simpl.
  - split; [constructor | reflexivity].
  - destruct (Z.ltb_spec B (e * horizon_float e gamma)) as [Hlt | Hle].
    + split; [discriminate | intros HF; inversion HF; lia].
    + rewrite IH. split; [now constructor | intros HF; now inversion HF].
Qed.

Lemma allocate_loop_float_Some (B : Z) (gamma : R) (l : list Z) (e : Z) :
  allocate_loop_float B gamma l = Some e ->
  exists l1 l2, l = l1 ++ e :: l2 /\
    Forall (fun e' => e' * horizon_float e' gamma <= B) l1 /\
    B < e * horizon_float e gamma.
Proof.
  induction l as [| x l IH]; simpl; [discriminate |].
  destruct (Z.ltb_spec B (x * horizon_float x gamma)) as [Hlt | Hle].
  - intros [= ->]. exists [], l. repeat split; [constructor | assumption].
  - intros Hl. destruct (IH Hl) as (l1 & l2 & -> & HF & Hgt).
    exists (x :: l1), l2. repeat split; [now constructor | assumption].
Qed.

Lemma allocate_loop_float_range_Some (B : Z) (gamma : R) (e : Z) :
  allocate_loop_float B gamma (seqZ 1 (B - 1)) = Some e ->
  1 <= e < B /\ B < e * horizon_float e gamma /\
  forall e', 1 <= e' < e -> e' * horizon_float e' gamma <= B.
Proof.
  intros Hl. apply allocate_loop_float_Some in Hl as (l1 & l2 & Heq & HF & Hgt).
  apply seqZ_split in Heq as [He Hpre].
  repeat split; try lia.
  intros e' He'. rewrite Forall_forall in HF. apply HF, Hpre, He'.
Qed.

Lemma allocate_loop_float_range_None (B : Z) (gamma : R) :
  allocate_loop_float B gamma (seqZ 1 (B - 1)) = None <->
  forall M, 1 <= M < B -> M * horizon_float M gamma <= B.
Proof.
  rewrite allocate_loop_float_None, Forall_forall. split.
  - intros HF M HM. apply HF. apply elem_of_seqZ. lia.
  - intros HM e He. apply elem_of_seqZ in He. apply HM. lia.
Qed.

(** The loop breaks at the first episode count whose cost exceeds the
    budget. *)
Lemma allocate_loop_float_first (B : Z) (gamma : R) (e : Z) :
  1 <= e < B -> B < e * horizon_float e gamma ->
  (forall e', 1 <= e' < e -> e' * horizon_float e' gamma <= B) ->
  allocate_loop_float B gamma (seqZ 1 (B - 1)) = Some e.
Proof.
  intros He Hgt Hpre.
  destruct (allocate_loop_float B gamma (seqZ 1 (B - 1))) as [e0 |] eqn:Hloop.
  - apply allocate_loop_float_range_Some in Hloop as (He0 & Hgt0 & Hpre0).
    f_equal. destruct (Z.lt_trichotomy e0 e) as [Hlt | [-> | Hlt]].
    + pose proof (Hpre e0 ltac:(lia)). lia.
    + reflexivity.
    + pose proof (Hpre0 e ltac:(lia)). lia.
  - pose proof (proj1 (allocate_loop_float_range_None B gamma) Hloop e He). lia.
Qed.

Lemma allocate_budget_float_unfold (s : OLOP) :
  allocate_budget_float s =
  match allocate_loop_float (cfg_budget (config_of s)) (cfg_gamma (config_of s))
          (seqZ 1 (cfg_budget (config_of s) - 1)) with
  | Some e =>
      (Ok tt,
       mkOLOP (set_horizon (horizon_float (e - 1) (cfg_gamma (config_of s)))
                 (set_episodes (e - 1) (config_of s)))
              (heap s) (root s) (leaves s))
  | None => (Raise ValueError, s)
  end.
Proof.
  unfold allocate_budget_float, allocate_budget_config_float.
  destruct (allocate_loop_float _ _ _); [reflexivity | now destruct s].
Qed.


(** Without a configured horizon and with lazy construction off,
    [make_root] allocates and then prebuilds to the allocated horizon. *)
Lemma make_root_float_run (c : config) (b e : Z) :
  cfg_horizon c = None -> cfg_lazy_tree_construction c = false ->
  allocate_loop_float (cfg_budget c) (cfg_gamma c) (seqZ 1 (cfg_budget c - 1)) =
    Some e ->
  exists s',
    make_root_float b (new_planner c) = (Ok 0%nat, s') /\
    config_of s' =
      set_horizon (horizon_float (e - 1) (cfg_gamma c)) (set_episodes (e - 1) c) /\
    complete_tree b (Z.to_nat (horizon_float (e - 1) (cfg_gamma c))) s' /\
    wf_tree (heap s').
Proof.
  intros Hh Hlazy Hloop.
  set (c1 := set_horizon (horizon_float (e - 1) (cfg_gamma c)) (set_episodes (e - 1) c)).
  destruct (prebuild_from_root c1 (new_node None c) b
              (horizon_float (e - 1) (cfg_gamma c))
              (new_node_parent _ _) (new_node_children _ _) eq_refl)
    as (s' & Hrun & Hc' & _ & Hct & _ & Hwf & _).
  exists s'. split; [| split; [exact Hc' | split; [exact Hct | exact Hwf]]].
  unfold make_root_float. unfold bind at 1. unfold get_config at 1.
  unfold bind at 1. unfold alloc at 1.
  unfold bind at 1. unfold set_leaves at 1.
  unfold bind at 1. unfold get_config at 1.
  cbn [new_planner config_of heap root leaves length app]. rewrite Hh.
  unfold bind at 1. rewrite allocate_budget_float_unfold.
  cbn [config_of heap root leaves]. rewrite Hloop. fold c1.
  unfold bind at 1. unfold get_config at 1. cbn [config_of].
  change (cfg_lazy_tree_construction c1) with (cfg_lazy_tree_construction c).
  rewrite Hlazy. unfold bind at 1. rewrite Hrun. reflexivity.
Qed.

(** X6: with no horizon configured and lazy construction off, [make_root]
    first allocates the budget and then prebuilds the tree to the allocated
    horizon, whatever the float64 arithmetic makes of it: the configuration
    it leaves is the allocated one, with the horizon the code computes for
    the allocated episodes, and the frontier is that of the complete tree of
    that depth. *)
Theorem make_root_allocates (c : config) (b : Z) (s1 : OLOP) :
  cfg_horizon c = None -> cfg_lazy_tree_construction c = false ->
  allocate_budget_float (new_planner c) = (Ok tt, s1) ->
  exists M L s',
    cfg_episodes (config_of s1) = Some M /\
    cfg_horizon (config_of s1) = Some L /\
    L = horizon_float M (cfg_gamma c) /\
    make_root_float b (new_planner c) = (Ok 0%nat, s') /\
    config_of s' = config_of s1 /\
    complete_tree b (Z.to_nat L) s' /\
    length (leaves s') = (Z.to_nat b ^ Z.to_nat L)%nat /\
    wf_tree (heap s').
Proof.
  intros Hh Hlazy Halloc. rewrite allocate_budget_float_unfold in Halloc.
  cbn [new_planner config_of heap root leaves] in Halloc.
  destruct (allocate_loop_float (cfg_budget c) (cfg_gamma c)
              (seqZ 1 (cfg_budget c - 1))) as [e |] eqn:Hloop; [| discriminate].
  injection Halloc as <-. cbn [config_of].
  destruct (make_root_float_run c b e Hh Hlazy Hloop) as (s' & Hrun & Hc' & Hct & Hwf).
  exists (e - 1), (horizon_float (e - 1) (cfg_gamma c)), s'.
  split; [reflexivity |]. split; [reflexivity |]. split; [reflexivity |].
  split; [exact Hrun |]. split; [exact Hc' |].
  split; [exact Hct |]. split; [apply Hct | exact Hwf].
Qed.

End FloatAllocation.

(** Under exact arithmetic the float64 definitions are the idealised
    ones. *)
Lemma horizon_float_exact (M : Z) (gamma : R) :
  @horizon_float exact_arithmetic M gamma = horizon M gamma.
Proof. reflexivity. Qed.

Lemma allocate_loop_float_exact (B : Z) (gamma : R) (l : list Z) :
  @allocate_loop_float exact_arithmetic B gamma l = allocate_loop B gamma l.
Proof.
  induction l as [| e l IH]; [reflexivity |].
  cbn [allocate_loop_float allocate_loop]. rewrite horizon_float_exact, IH.
  reflexivity.
Qed.

Lemma allocate_budget_float_exact (s : OLOP) :
  @allocate_budget_float exact_arithmetic s = allocate_budget s.
Proof.
  rewrite allocate_budget_float_unfold, allocate_budget_unfold.
  now rewrite allocate_loop_float_exact.
Qed.

(** *** The horizon at [gamma = 1/3] around [729 = 3^6] *)

Lemma horizon_third_low (M : Z) : 82 <= M <= 729 -> horizon M (1 / 3) = 3.
Proof.
  intros HM. apply (horizon_band (1 / 3) M 2); [lra | lia |].
  assert (Hlo : (82 <= IZR M)%R) by (apply IZR_le; lia).
  assert (Hhi : (IZR M <= 729)%R) by (apply IZR_le; lia).
  simpl. lra.
Qed.

Lemma horizon_third_high (M : Z) : 730 <= M <= 6561 -> horizon M (1 / 3) = 4.
Proof.
  intros HM. apply (horizon_band (1 / 3) M 3); [lra | lia |].
  assert (Hlo : (730 <= IZR M)%R) by (apply IZR_le; lia).
  assert (Hhi : (IZR M <= 6561)%R) by (apply IZR_le; lia).
  simpl. lra.
Qed.

Lemma horizon_third_le (M : Z) : 1 <= M <= 729 -> 0 <= horizon M (1 / 3) <= 3.
Proof.
  intros HM. split.
  - apply horizon_nonneg; [lra | lia].
  - pose proof (horizon_mono_episodes (1 / 3) M 729 ltac:(lra) ltac:(lia)) as Hle.
    now rewrite (horizon_third_low 729) in Hle by lia.
Qed.

Lemma high_log_horizon (M : Z) :
  M <> 729 -> @horizon_float high_log_arithmetic M (1 / 3) = horizon M (1 / 3).
Proof.
  intros HM. unfold horizon_float, horizon. cbn [np_log float_div high_log_arithmetic].
  destruct (Req_dec_T (IZR M) 729) as [Heq | _];
    [apply eq_IZR in Heq; contradiction |].
  destruct (Req_dec_T (1 / (1 / 3)) 729) as [Heq | _]; [exfalso; lra |].
  reflexivity.
Qed.

Lemma ln_three_ge_1 : (1 <= ln 3)%R.
Proof.
  rewrite <- (ln_exp 1). apply ln_weak_mono; [apply exp_pos | apply exp_le_3].
Qed.

Lemma high_log_horizon_729 : @horizon_float high_log_arithmetic 729 (1 / 3) = 4.
Proof.
  unfold horizon_float. cbn [np_log float_div high_log_arithmetic].
  destruct (Req_dec_T 729 729) as [_ | Hne]; [| contradiction].
  destruct (Req_dec_T (1 / (1 / 3)) 729) as [Heq | _]; [exfalso; lra |].
  replace (1 / (1 / 3))%R with 3%R by lra.
  assert (H729 : ln 729 = (6 * ln 3)%R).
  { replace 729%R with (3 ^ 6)%R by (simpl; lra).
    rewrite ln_pow by lra. simpl. lra. }
  rewrite H729. pose proof ln_three_ge_1 as Hln.
  apply Zceil_eq.
  assert (Hq : ((6 * ln 3 + 1 / 1125899906842624) / (2 * ln 3) =
                3 + 1 / 1125899906842624 / (2 * ln 3))%R) by (field; lra).
  rewrite Hq.
  assert (Heps : (0 < 1 / 1125899906842624 / (2 * ln 3) <= 1)%R).
  { split.
    - apply Rdiv_lt_0_compat; lra.
    - apply Rmult_le_reg_r with (2 * ln 3)%R; [lra |].
      unfold Rdiv at 1. rewrite Rmult_assoc, Rinv_l by lra. lra. }
  simpl. lra.
Qed.



Lemma high_log_fits (e : Z) :
  1 <= e < 729 -> e * @horizon_float high_log_arithmetic e (1 / 3) <= 2184.
Proof.
  intros He. rewrite high_log_horizon by lia.
  pose proof (horizon_third_le e ltac:(lia)). nia.
Qed.


(** Budget 2917: 729 episodes of horizon 4 fit, 730 do not. *)
Lemma allocate_high_log_2917 :
  @allocate_budget_float high_log_arithmetic
    (new_planner (demo_config 2917 (1 / 3) None None)) =
  (Ok tt, new_planner (demo_config 2917 (1 / 3) (Some 729) (Some 4))).
Proof.
  rewrite allocate_budget_float_unfold.
  cbn [new_planner config_of cfg_budget cfg_gamma demo_config heap root leaves].
  rewrite (allocate_loop_float_first 2917 (1 / 3) 730).
  - change (730 - 1) with 729.
    rewrite high_log_horizon_729. reflexivity.
  - lia.
  - rewrite high_log_horizon, horizon_third_high by lia. lia.
  - intros e' He'. destruct (Z.eq_dec e' 729) as [-> | Hne].
    + rewrite high_log_horizon_729. lia.
    + pose proof (high_log_fits e' ltac:(lia)). lia.
Qed.



Lemma make_root_allocates_witness :
  exists M L s',
    Some 729 = Some M /\ Some 4 = Some L /\
    L = @horizon_float high_log_arithmetic M (1 / 3) /\
    @make_root_float high_log_arithmetic 2
      (new_planner (demo_config 2917 (1 / 3) None None)) = (Ok 0%nat, s') /\
    config_of s' = demo_config 2917 (1 / 3) (Some 729) (Some 4) /\
    complete_tree 2 (Z.to_nat L) s' /\
    length (leaves s') = (Z.to_nat 2 ^ Z.to_nat L)%nat /\
    wf_tree (heap s').
Proof.
  apply (@make_root_allocates high_log_arithmetic
           (demo_config 2917 (1 / 3) None None) 2
           (new_planner (demo_config 2917 (1 / 3) (Some 729) (Some 4)))).
  - reflexivity.
  - reflexivity.
  - apply allocate_high_log_2917.
Defined.

(** The two properties of the computed horizon that the maximality of the
    allocation rests on follow from what rounding keeps: the logarithm of 1
    is 0, a zero numerator gives a zero quotient, and the rounded logarithm
    and the rounded quotient (in its numerator, over a positive denominator)
    do not reverse an order. *)
Lemma horizon_float_monotone `{Float64} (gamma : R) :
  np_log 1 = 0%R ->
  (forall x y, (1 <= x <= y)%R -> (np_log x <= np_log y)%R) ->
  (forall y, (0 < y)%R -> float_div 0 y = 0%R) ->
  (forall x x' y, (0 < y)%R -> (x <= x')%R -> (float_div x y <= float_div x' y)%R) ->
  (0 < np_log (float_div 1 gamma))%R ->
  horizon_float 1 gamma = 0 /\
  forall M M', 1 <= M <= M' -> horizon_float M gamma <= horizon_float M' gamma.
Proof.
  intros Hlog1 Hlog Hdiv0 Hdiv Hden. split.
  - unfold horizon_float. rewrite Hlog1, Hdiv0 by lra.
    apply Zceil_eq. simpl. lra.
  - intros M M' [HM HMM']. unfold horizon_float. apply Zceil_le.
    apply Hdiv; [lra |]. apply Hlog. split; apply IZR_le; lia.
Qed.
